(** * xxljob: the executor's trigger / run / watch orchestration

    A shallow embedding of [executor.go], [job.go], [params.go] and
    [response.go], with [util.go] and [options.go].

    The two [sync.Map]s of the executor are finite maps.  The [*Job] values
    they share with the goroutines live in an explicit heap, so that a table
    entry, a [runJob] and a [watch] can name the same Job.  Every goroutine of
    a Job is a program counter that the scheduler advances one operation on
    the shared state (a [sync.Map] call, a channel send or receive, the
    assignment of [j.cancel]) at a time; the body of an HTTP endpoint runs as
    one step.  Time is a clock that the scheduler advances.  What a handler
    does is left open: it returns when the scheduler says so, with the error
    the scheduler picks.

    The executor is followed from [NewExecutor] up to [Stop].  The logger, the
    registrar and the HTTP client are left out: they do not touch the state
    modelled here.

    [Response.String] needs encoding/json: the last part of the model is the
    encoder and the decoder of that package, as far as a [Response] goes. *)

From Stdlib Require Import ZArith Lia String Ascii List.
From Stdlib Require Import DecimalString.
From Stdlib Require DecimalZ DecimalPos DecimalFacts.
From stdpp Require Import base option gmap strings list.
Import ListNotations.

#[local] Set Warnings "-clear-no-such-hyp,-register-all".

Open Scope string_scope.
Open Scope Z_scope.

(** ** Data model ([params.go], [job.go], [response.go]) *)

(** A Go [error]: [None] is [nil], [Some msg] an error whose [Error()] is
    [msg]. *)
Abbreviation error := (option string) (only parsing).

(** A [*Job]. *)
Abbreviation ptr := nat (only parsing).

Definition SerialExecution : string := "SERIAL_EXECUTION".
Definition DiscardLater : string := "DISCARD_LATER".
Definition CoverEarly : string := "COVER_EARLY".

Definition successCode : Z := 200.
Definition failureCode : Z := 500.

Module JobParam.
Record t : Type := mk
  { Params : string;
    ShardingIndex : Z;
    ShardingTotal : Z }.
End JobParam.

Module RunParam.
Record t : Type := mk
  { JobID : Z;
    ExecutorHandler : string;
    ExecutorParams : string;
    ExecutorBlockStrategy : string;
    ExecutorTimeout : Z;
    LogID : Z;
    LogDateTime : Z;
    GlueType : string;
    GlueSource : string;
    GlueUpdatetime : Z;
    BroadcastIndex : Z;
    BroadcastTotal : Z }.
End RunParam.

Module CallbackParam.
Record t : Type := mk
  { LogID : Z;
    LogDateTime : Z;
    HandleCode : Z;
    HandleMsg : string }.
End CallbackParam.

Module IdleBeatParam.
Record t : Type := mk { JobID : Z }.
End IdleBeatParam.

Module KillParam.
Record t : Type := mk { JobID : Z }.
End KillParam.

Module LogParam.
Record t : Type := mk { LogId : Z; LogDateTime : Z; FromLineNum : Z }.
End LogParam.

Module LogResult.
Record t : Type := mk
  { FromLineNum : Z;
    ToLineNum : Z;
    LogContent : string;
    IsEnd : bool }.
End LogResult.

(** A [JobHandler] is a Go func value: [NilHandler] is the nil func, [Func f]
    a function, named by [f].  What a handler computes is left to the
    environment: it returns when the scheduler says so, with the error the
    scheduler picks. *)
Inductive JobHandler : Type :=
  | NilHandler
  | Func (f : nat).

(** The pair [ctx], [cancel] of a Job.  Both are nil from [newJob] until
    [Run] makes the context. *)
Inductive context : Type :=
  | NoContext
  | Live (deadline : option Z)
  | Cancelled.

Module Job.
Record t : Type := mk
  { ID : Z;
    LogID : Z;
    LogDateTime : Z;
    Name : string;
    Handle : JobHandler;
    Param : JobParam.t;
    Timeout : Z;
    StartTime : Z;
    EndTime : Z;
    LogDir : string;
    ctx : context;
    done : list error (* chan error, capacity 1 *) }.

Definition set_ctx (c : context) (j : t) : t :=
  mk (ID j) (LogID j) (LogDateTime j) (Name j) (Handle j) (Param j)
     (Timeout j) (StartTime j) (EndTime j) (LogDir j) c (done j).
Definition set_done (d : list error) (j : t) : t :=
  mk (ID j) (LogID j) (LogDateTime j) (Name j) (Handle j) (Param j)
     (Timeout j) (StartTime j) (EndTime j) (LogDir j) (ctx j) d.
Definition set_StartTime (x : Z) (j : t) : t :=
  mk (ID j) (LogID j) (LogDateTime j) (Name j) (Handle j) (Param j)
     (Timeout j) x (EndTime j) (LogDir j) (ctx j) (done j).
Definition set_EndTime (x : Z) (j : t) : t :=
  mk (ID j) (LogID j) (LogDateTime j) (Name j) (Handle j) (Param j)
     (Timeout j) (StartTime j) x (LogDir j) (ctx j) (done j).
End Job.

(** ** Goroutines

    Where each goroutine of a job stands.  The constructors name the
    statement the goroutine executes next. *)

(** [go e.runJob(job)], with [job.Run()] inlined at its call. *)
Inductive runJob_pc : Type :=
  | AtGetJob                     (* executor.go: if oldJob := e.getJob(job.ID) *)
  | AtSleep (wake : Z)           (* time.Sleep(time.Second) *)
  | AtAddJob                     (* e.addJob(job) *)
  | AtRun                        (* job.Run(): the context is made *)
  | InHandle                     (* err := j.Handle(j.ctx, j.Param) *)
  | AtSendDone (err : error)     (* j.done <- err *)
  | RunReturned.

(** [go e.watch(job)]. *)
Inductive watch_pc : Type :=
  | AtRecvDone                                (* err := <-job.done *)
  | AtDelete (err : error)                    (* e.jobs.Delete(job.ID) *)
  | AtSendCallback (cb : CallbackParam.t)     (* e.callbackChan <- cb *)
  | WatchReturned.

(** ** The executor and the runtime it runs in *)

Record state : Type := mkState
  { CallbackBufferSize : nat;               (* Options *)
    handlers : gmap string JobHandler;      (* sync.Map *)
    jobs : gmap Z nat;                      (* sync.Map: job id -> *Job *)
    callbackChan : list CallbackParam.t;    (* chan CallbackParam *)
    heap : gmap nat Job.t;                  (* the Jobs made by newJob *)
    next : nat;                             (* the next *Job to allocate *)
    runners : gmap nat runJob_pc;           (* the runJob goroutines *)
    watchers : gmap nat watch_pc;           (* the watch goroutines *)
    now : Z                                 (* time.Now(), in milliseconds *) }.

Definition set_handlers (f : gmap string JobHandler → gmap string JobHandler)
    (s : state) : state :=
  mkState (CallbackBufferSize s) (f (handlers s)) (jobs s) (callbackChan s)
          (heap s) (next s) (runners s) (watchers s) (now s).
Definition set_jobs (f : gmap Z nat → gmap Z nat) (s : state) : state :=
  mkState (CallbackBufferSize s) (handlers s) (f (jobs s)) (callbackChan s)
          (heap s) (next s) (runners s) (watchers s) (now s).
Definition set_callbackChan
    (f : list CallbackParam.t → list CallbackParam.t) (s : state) : state :=
  mkState (CallbackBufferSize s) (handlers s) (jobs s) (f (callbackChan s))
          (heap s) (next s) (runners s) (watchers s) (now s).
Definition set_heap (f : gmap nat Job.t → gmap nat Job.t) (s : state) : state :=
  mkState (CallbackBufferSize s) (handlers s) (jobs s) (callbackChan s)
          (f (heap s)) (next s) (runners s) (watchers s) (now s).
Definition set_next (n : nat) (s : state) : state :=
  mkState (CallbackBufferSize s) (handlers s) (jobs s) (callbackChan s)
          (heap s) n (runners s) (watchers s) (now s).
Definition set_runners (f : gmap nat runJob_pc → gmap nat runJob_pc)
    (s : state) : state :=
  mkState (CallbackBufferSize s) (handlers s) (jobs s) (callbackChan s)
          (heap s) (next s) (f (runners s)) (watchers s) (now s).
Definition set_watchers (f : gmap nat watch_pc → gmap nat watch_pc)
    (s : state) : state :=
  mkState (CallbackBufferSize s) (handlers s) (jobs s) (callbackChan s)
          (heap s) (next s) (runners s) (f (watchers s)) (now s).
Definition set_now (t : Z) (s : state) : state :=
  mkState (CallbackBufferSize s) (handlers s) (jobs s) (callbackChan s)
          (heap s) (next s) (runners s) (watchers s) t.

(** [NewExecutor]: empty tables, an empty callback channel of the configured
    capacity, no job goroutine. *)
Definition NewExecutor (size : nat) (t0 : Z) : state :=
  mkState size ∅ ∅ [] ∅ 0%nat ∅ ∅ t0.

(** ** Method bodies: a state monad with panics

    A method either returns a value and the state it leaves, or panics in the
    state it reached. *)

Inductive result (A : Type) : Type :=
  | Ret (a : A) (s : state)
  | Panic (s : state).
Arguments Ret {A} a s.
Arguments Panic {A} s.

Definition M (A : Type) : Type := state → result A.

Global Instance M_ret : MRet M := λ A a s, Ret a s.
Global Instance M_bind : MBind M := λ A B k m s,
  match m s with
  | Ret a s' => k a s'
  | Panic s' => Panic s'
  end.

Definition get {A} (f : state → A) : M A := λ s, Ret (f s) s.
Definition modify (f : state → state) : M unit := λ s, Ret tt (f s).
Definition panic {A} : M A := λ s, Panic s.

(** Dereference of a [*Job].  Every pointer the code holds comes from
    [newJob], so the miss is not reachable. *)
Definition load (job : ptr) : M Job.t := λ s,
  match heap s !! job with
  | Some o => Ret o s
  | None => Panic s
  end.

Definition store (job : ptr) (o : Job.t) : M unit :=
  modify (set_heap <[job := o]>).

(** ** [job.go] *)

(** [func (j *Job) Stop()]: [j.cancel()].  Calling the nil func panics. *)
Definition Stop (job : ptr) : M unit :=
  o ← load job;
  match Job.ctx o with
  | NoContext => panic
  | Live _ | Cancelled => store job (Job.set_ctx Cancelled o)
  end.

(** ** [executor.go] *)

(** [func (e *Executor) GetJobHandler(name string) JobHandler] *)
Definition GetJobHandler (name : string) : M JobHandler :=
  v ← get (λ s, handlers s !! name);
  match v with
  | None => mret NilHandler
  | Some h => mret h
  end.

(** [func (e *Executor) AddJobHandler(name string, h JobHandler)] *)
Definition AddJobHandler (name : string) (h : JobHandler) : M unit :=
  modify (set_handlers <[name := h]>).

(** [func (e *Executor) RemoveJobHandler(name string)] *)
Definition RemoveJobHandler (name : string) : M unit :=
  modify (set_handlers (delete name)).

(** [func (e *Executor) getJob(id int) *Job] *)
Definition getJob (id : Z) : M (option ptr) :=
  get (λ s, jobs s !! id).

(** [func (e *Executor) addJob(job *Job)] *)
Definition addJob (job : ptr) : M unit :=
  o ← load job;
  modify (set_jobs <[Job.ID o := job]>).

(** [func (e *Executor) stopJob(job *Job)] *)
Definition stopJob (job : ptr) : M unit :=
  Stop job;;
  o ← load job;
  modify (set_jobs (delete (Job.ID o))).

(** [go e.watch(job)] and [go e.runJob(job)] *)
Definition go_watch (job : ptr) : M unit :=
  modify (set_watchers <[job := AtRecvDone]>).
Definition go_runJob (job : ptr) : M unit :=
  modify (set_runners <[job := AtGetJob]>).

(** [&Job{...}] *)
Definition alloc (o : Job.t) : M ptr := λ s,
  Ret (next s) (set_next (S (next s)) (set_heap <[next s := o]> s)).

(** [func (e *Executor) newJob(params RunParam)], returning a [*Job] or an
    error. *)
Definition newJob (params : RunParam.t) : M (string + ptr) :=
  handler ← GetJobHandler (RunParam.ExecutorHandler params);
  match handler with
  | NilHandler => mret (inl "job handler not found")
  | Func _ =>
      let param :=
        JobParam.mk (RunParam.ExecutorParams params)
                    (RunParam.BroadcastIndex params)
                    (RunParam.BroadcastTotal params) in
      job ← alloc
        {| Job.ID := RunParam.JobID params;
           Job.LogID := RunParam.LogID params;
           Job.LogDateTime := 0;
           Job.Name := RunParam.ExecutorHandler params;
           Job.Handle := handler;
           Job.Param := param;
           Job.Timeout := RunParam.ExecutorTimeout params;
           Job.StartTime := 0;
           Job.EndTime := 0;
           Job.LogDir := EmptyString;
           Job.ctx := NoContext;
           Job.done := [] |};
      go_watch job;;
      mret (inr job)
  end.

(** The first half of [TriggerJob], up to the end of the [switch]: [Some msg]
    is [return errors.New(msg)], [None] falls out of the switch. *)
Definition admission (params : RunParam.t) : M error :=
  job ← getJob (RunParam.JobID params);
  dup ← match job with
        | Some j => o ← load j; mret (Job.LogID o =? RunParam.LogID params)%Z
        | None => mret false
        end;
  if (dup : bool) then mret (Some "duplicate log id")
  else if (RunParam.ExecutorBlockStrategy params =? DiscardLater)%string then
    match job with
    | Some _ => mret (Some "a job of same id is already running")
    | None => mret None
    end
  else if (RunParam.ExecutorBlockStrategy params =? CoverEarly)%string then
    match job with
    | Some j => stopJob j;; mret None
    | None => mret None
    end
  else mret None.

(** [func (e *Executor) TriggerJob(params RunParam) error] *)
Definition TriggerJob (params : RunParam.t) : M error :=
  rejected ← admission params;
  match rejected with
  | Some msg => mret (Some msg)
  | None =>
      r ← newJob params;
      match r with
      | inl msg => mret (Some msg)
      | inr job => go_runJob job;; mret None
      end
  end.

(** ** [response.go] *)

(** [Content interface{}]: the record is parametric in the type of the value
    the interface holds; [None] is the nil interface. *)
Module Response.
Record t (C : Type) : Type := mk
  { Code : Z;
    Msg : string;
    Content : option C }.
Arguments mk {C} _ _ _.
Arguments Code {C} _.
Arguments Msg {C} _.
Arguments Content {C} _.
End Response.

Definition NewSuccResponse {C : Type} : Response.t C :=
  Response.mk successCode EmptyString None.

Definition NewErrorResponse {C : Type} (msg : string) : Response.t C :=
  Response.mk failureCode msg None.

(** ** The HTTP endpoints of [executor.go]

    [parseParam] either fills the parameter or fails with the decoder's
    error. *)
Inductive decoded (A : Type) : Type :=
  | Body (a : A)
  | Malformed (err : string).
Arguments Body {A} a.
Arguments Malformed {A} err.

(** What an endpoint writes is [res.String()] of the Response it returns
    here. *)
Abbreviation reply := (Response.t LogResult.t) (only parsing).

(** [func (e *Executor) beat(w, r)] *)
Definition beat : M reply :=
  mret NewSuccResponse.

(** [func (e *Executor) idleBeat(w, r)] *)
Definition idleBeat (body : decoded IdleBeatParam.t) : M reply :=
  match body with
  | Malformed err => mret (NewErrorResponse err)
  | Body param =>
      job ← getJob (IdleBeatParam.JobID param);
      match job with
      | Some _ => mret (NewErrorResponse "job is running")
      | None => mret NewSuccResponse
      end
  end.

(** [func (e *Executor) trigger(w, r)] *)
Definition trigger (body : decoded RunParam.t) : M reply :=
  match body with
  | Malformed err => mret (NewErrorResponse err)
  | Body params =>
      err ← TriggerJob params;
      match err with
      | Some msg => mret (NewErrorResponse msg)
      | None => mret NewSuccResponse
      end
  end.

(** [func (e *Executor) kill(w, r)] *)
Definition kill (body : decoded KillParam.t) : M reply :=
  match body with
  | Malformed err => mret (NewErrorResponse err)
  | Body param =>
      job ← getJob (KillParam.JobID param);
      match job with
      | Some j => stopJob j
      | None => mret tt
      end;;
      mret NewSuccResponse
  end.

(** [func (e *Executor) log(w, r)] *)
Definition log (body : decoded LogParam.t) : M reply :=
  match body with
  | Malformed err => mret (NewErrorResponse err)
  | Body _ =>
      let content := LogResult.mk 1 2 "N/A" true in
      mret (Response.mk (Response.Code (@NewSuccResponse LogResult.t))
                        (Response.Msg (@NewSuccResponse LogResult.t))
                        (Some content))
  end.

(** net/http runs an endpoint in a goroutine of its own and recovers its
    panic: the connection is dropped and nothing is replied. *)
Definition serve (h : M reply) (s : state) : option reply * state :=
  match h s with
  | Ret res s' => (Some res, s')
  | Panic s' => (None, s')
  end.

(** ** The goroutines of a job, one operation at a time *)

(** [time.Second], in milliseconds. *)
Definition Second : Z := 1000.

(** [context.WithTimeout] and [context.WithCancel] on [j.ctx], which a nil
    [j.ctx] first turns into [context.Background()]. *)
Definition withDeadline (parent : context) (d : option Z) : context :=
  match parent with
  | NoContext => Live d
  | Live None => Live d
  | Live (Some old) =>
      match d with
      | None => Live (Some old)
      | Some new => Live (Some (Z.min old new))
      end
  | Cancelled => Cancelled
  end.

(** The CallbackParam that [watch] builds at time [t] for the outcome
    [err]. *)
Definition callbackOf (o : Job.t) (err : error) (t : Z) : CallbackParam.t :=
  match err with
  | Some msg => CallbackParam.mk (Job.LogID o) t failureCode msg
  | None => CallbackParam.mk (Job.LogID o) t successCode "OK"
  end.

(** What the rest of the program can see of a step. *)
Inductive event : Type :=
  | Polled (job : ptr) (old : option ptr)     (* runJob: e.getJob(job.ID) *)
  | Woke (job : ptr)                          (* runJob: Sleep is over *)
  | Inserted (job : ptr) (old : option ptr)   (* runJob: e.addJob(job) *)
  | Started (job : ptr)                       (* Run: the handler is called *)
  | Handled (job : ptr) (err : error)         (* Run: the handler returned *)
  | SentDone (job : ptr) (err : error)
  | RecvDone (job : ptr) (err : error)
  | Deleted (job : ptr) (old : option ptr)    (* watch: e.jobs.Delete *)
  | Enqueued (job : ptr) (cb : CallbackParam.t)
  | Replied (res : option reply)
  | Reported (batch : list CallbackParam.t)
  | Expired (job : ptr)
  | Silent.

(** One step of [go e.runJob(job)]; [None] when the goroutine cannot move
    (asleep, inside the handler, returned, or never started). *)
Definition runJob_step (job : ptr) (s : state) : option (event * state) :=
  match runners s !! job, heap s !! job with
  | Some pc, Some o =>
      let goto pc' := set_runners <[job := pc']> in
      match pc with
      | AtGetJob =>
          match getJob (Job.ID o) s with
          | Ret None s' => Some (Polled job None, goto AtAddJob s')
          | Ret (Some old) s' =>
              Some (Polled job (Some old), goto (AtSleep (now s + Second)) s')
          | Panic _ => None
          end
      | AtSleep wake =>
          if (wake <=? now s)%Z then Some (Woke job, goto AtGetJob s) else None
      | AtAddJob =>
          match addJob job s with
          | Ret _ s' => Some (Inserted job (jobs s !! Job.ID o), goto AtRun s')
          | Panic _ => None
          end
      | AtRun =>
          (* Run: no Job made by newJob has a LogDir, so no log file is
             opened *)
          let d := if (0 <? Job.Timeout o)%Z
                   then Some (now s + Job.Timeout o * Second)%Z else None in
          let o' := Job.set_StartTime (now s)
                      (Job.set_ctx (withDeadline (Job.ctx o) d) o) in
          Some (Started job, goto InHandle (set_heap <[job := o']> s))
      | InHandle => None
      | AtSendDone err =>
          if (length (Job.done o) <? 1)%nat
          then Some (SentDone job err,
                     goto RunReturned
                       (set_heap <[job := Job.set_done (Job.done o ++ [err])%list o]> s))
          else None
      | RunReturned => None
      end
  | _, _ => None
  end.

(** The handler of [job] returns [err]. *)
Definition handler_returns (job : ptr) (err : error) (s : state)
    : option (event * state) :=
  match runners s !! job with
  | Some InHandle =>
      Some (Handled job err, set_runners <[job := AtSendDone err]> s)
  | _ => None
  end.

(** One step of [go e.watch(job)]; [None] when it is blocked on a channel or
    has returned. *)
Definition watch_step (job : ptr) (s : state) : option (event * state) :=
  match watchers s !! job, heap s !! job with
  | Some pc, Some o =>
      let goto pc' := set_watchers <[job := pc']> in
      match pc with
      | AtRecvDone =>
          match Job.done o with
          | err :: rest =>
              let o' := Job.set_EndTime (now s) (Job.set_done rest o) in
              Some (RecvDone job err,
                    goto (AtDelete err) (set_heap <[job := o']> s))
          | [] => None
          end
      | AtDelete err =>
          Some (Deleted job (jobs s !! Job.ID o),
                goto (AtSendCallback (callbackOf o err (now s)))
                  (set_jobs (delete (Job.ID o)) s))
      | AtSendCallback cb =>
          if (length (callbackChan s) <? CallbackBufferSize s)%nat
          then Some (Enqueued job cb,
                     goto WatchReturned (set_callbackChan (λ q, (q ++ [cb])%list) s))
          else None
      | WatchReturned => None
      end
  | _, _ => None
  end.

(** [func (e *Executor) notifyResult() error]: the batch handed to
    [e.callback]. *)
Definition notifyResult (s : state) : event * state :=
  match callbackChan s with
  | [] => (Silent, s)
  | batch => (Reported batch, set_callbackChan (λ _, []) s)
  end.

(** The timer of a context made by [context.WithTimeout] fires. *)
Definition expire (job : ptr) (s : state) : option (event * state) :=
  match heap s !! job with
  | Some o =>
      match Job.ctx o with
      | Live (Some d) =>
          if (d <=? now s)%Z
          then Some (Expired job, set_heap <[job := Job.set_ctx Cancelled o]> s)
          else None
      | _ => None
      end
  | None => None
  end.

(** What can happen next: a request is served, a goroutine of a Job does its
    next operation, a handler returns, a timer fires, time passes, or the
    embedding program registers or removes a handler. *)
Inductive action : Type :=
  | Http_beat
  | Http_idleBeat (body : decoded IdleBeatParam.t)
  | Http_run (body : decoded RunParam.t)
  | Http_kill (body : decoded KillParam.t)
  | Http_log (body : decoded LogParam.t)
  | Go_runJob (job : ptr)
  | Handle_returns (job : ptr) (err : error)
  | Go_watch (job : ptr)
  | Timer_notifier
  | Timer_context (job : ptr)
  | Tick (d : Z)
  | Call_AddJobHandler (name : string) (h : JobHandler)
  | Call_RemoveJobHandler (name : string).

Definition served (h : M reply) (s : state) : option (event * state) :=
  let (res, s') := serve h s in Some (Replied res, s').

Definition called (m : M unit) (s : state) : option (event * state) :=
  match m s with
  | Ret _ s' => Some (Silent, s')
  | Panic _ => None
  end.

Definition step (a : action) (s : state) : option (event * state) :=
  match a with
  | Http_beat => served beat s
  | Http_idleBeat body => served (idleBeat body) s
  | Http_run body => served (trigger body) s
  | Http_kill body => served (kill body) s
  | Http_log body => served (log body) s
  | Go_runJob job => runJob_step job s
  | Handle_returns job err => handler_returns job err s
  | Go_watch job => watch_step job s
  | Timer_notifier => Some (notifyResult s)
  | Timer_context job => expire job s
  | Tick d => if (0 <=? d)%Z then Some (Silent, set_now (now s + d) s) else None
  | Call_AddJobHandler name h => called (AddJobHandler name h) s
  | Call_RemoveJobHandler name => called (RemoveJobHandler name) s
  end.

(** A schedule runs from [s]: the events it shows, oldest first, and the
    state it ends in. *)
Fixpoint exec (sched : list action) (s : state) : option (list event * state) :=
  match sched with
  | [] => Some ([], s)
  | a :: sched' =>
      match step a s with
      | Some (ev, s') =>
          match exec sched' s' with
          | Some (evs, s'') => Some (ev :: evs, s'')
          | None => None
          end
      | None => None
      end
  end.

(** The states an executor made by [NewExecutor] can be in. *)
Definition reachable (s : state) : Prop :=
  ∃ size t0 sched evs, exec sched (NewExecutor size t0) = Some (evs, s).

(** ** encoding/json, as far as [Response] needs it

    A Go string is a sequence of bytes: a [string] of 8-bit characters. *)

Definition byte (c : ascii) : Z := Z.of_N (N_of_ascii c).
Definition chr (b : Z) : ascii := ascii_of_N (Z.to_N b).

Definition dquote : ascii := chr 34.
Definition backslash : ascii := chr 92.

(** *** unicode/utf8 *)

Definition RuneError : Z := 0xFFFD.

(** [utf8.DecodeRuneInString]: the first rune of [s] and its width in
    bytes; [(RuneError, 1)] for a byte that starts no encoding. *)
Definition DecodeRune (s : string) : Z * nat :=
  match s with
  | EmptyString => (RuneError, 0%nat)
  | String c0 r0 =>
      let b0 := byte c0 in
      if b0 <? 0x80 then (b0, 1%nat)
      else if (b0 <? 0xC2) || (0xF4 <? b0) then (RuneError, 1%nat)
      else
        match r0 with
        | EmptyString => (RuneError, 1%nat)
        | String c1 r1 =>
            let b1 := byte c1 in
            let lo := if b0 =? 0xE0 then 0xA0
                      else if b0 =? 0xF0 then 0x90 else 0x80 in
            let hi := if b0 =? 0xED then 0x9F
                      else if b0 =? 0xF4 then 0x8F else 0xBF in
            if (b1 <? lo) || (hi <? b1) then (RuneError, 1%nat)
            else if b0 <? 0xE0 then
              (Z.lor (Z.shiftl (Z.land b0 0x1F) 6) (Z.land b1 0x3F), 2%nat)
            else
              match r1 with
              | EmptyString => (RuneError, 1%nat)
              | String c2 r2 =>
                  let b2 := byte c2 in
                  if (b2 <? 0x80) || (0xBF <? b2) then (RuneError, 1%nat)
                  else if b0 <? 0xF0 then
                    (Z.lor (Z.lor (Z.shiftl (Z.land b0 0x0F) 12)
                                  (Z.shiftl (Z.land b1 0x3F) 6))
                           (Z.land b2 0x3F), 3%nat)
                  else
                    match r2 with
                    | EmptyString => (RuneError, 1%nat)
                    | String c3 _ =>
                        let b3 := byte c3 in
                        if (b3 <? 0x80) || (0xBF <? b3) then (RuneError, 1%nat)
                        else
                          (Z.lor (Z.lor (Z.lor (Z.shiftl (Z.land b0 0x07) 18)
                                               (Z.shiftl (Z.land b1 0x3F) 12))
                                        (Z.shiftl (Z.land b2 0x3F) 6))
                                 (Z.land b3 0x3F), 4%nat)
                    end
              end
        end
  end.

(** [utf8.AppendRune]: the encoding of [r]; that of [RuneError] for a
    surrogate or a value that is no rune. *)
Definition EncodeRune (r : Z) : string :=
  if (0 <=? r) && (r <=? 0x7F) then String (chr r) EmptyString
  else if (0 <=? r) && (r <=? 0x7FF) then
    String (chr (Z.lor 0xC0 (Z.shiftr r 6)))
      (String (chr (Z.lor 0x80 (Z.land r 0x3F))) EmptyString)
  else if (r <? 0) || (0x10FFFF <? r) || ((0xD800 <=? r) && (r <=? 0xDFFF)) then
    String (chr 0xEF) (String (chr 0xBF) (String (chr 0xBD) EmptyString))
  else if r <=? 0xFFFF then
    String (chr (Z.lor 0xE0 (Z.shiftr r 12)))
      (String (chr (Z.lor 0x80 (Z.land (Z.shiftr r 6) 0x3F)))
         (String (chr (Z.lor 0x80 (Z.land r 0x3F))) EmptyString))
  else
    String (chr (Z.lor 0xF0 (Z.shiftr r 18)))
      (String (chr (Z.lor 0x80 (Z.land (Z.shiftr r 12) 0x3F)))
         (String (chr (Z.lor 0x80 (Z.land (Z.shiftr r 6) 0x3F)))
            (String (chr (Z.lor 0x80 (Z.land r 0x3F))) EmptyString))).

(** [utf8.ValidString] *)
Fixpoint ValidString (s : string) : bool :=
  match s with
  | EmptyString => true
  | String _ r =>
      let (c, size) := DecodeRune s in
      if (c =? RuneError) && (size =? 1)%nat then false
      else
        match size, r with
        | 2%nat, String _ r1 => ValidString r1
        | 3%nat, String _ (String _ r2) => ValidString r2
        | 4%nat, String _ (String _ (String _ r3)) => ValidString r3
        | _, _ => ValidString r
        end
  end.

(** *** The encoder *)

Definition hex (d : Z) : ascii :=
  if d <? 10 then chr (48 + d) else chr (87 + d).

(** [htmlSafeSet]: the ASCII bytes that a string keeps as they are. *)
Definition htmlSafe (b : Z) : bool :=
  (0x20 <=? b) && (b <? 0x80)
  && negb ((b =? 34) || (b =? 38) || (b =? 60) || (b =? 62) || (b =? 92)).

(** What [appendString] writes for an ASCII byte. *)
Definition escapeByte (c : ascii) : string :=
  let b := byte c in
  if htmlSafe b then String c EmptyString
  else if (b =? 92) || (b =? 34) then String backslash (String c EmptyString)
  else if b =? 8 then String backslash "b"
  else if b =? 12 then String backslash "f"
  else if b =? 10 then String backslash "n"
  else if b =? 13 then String backslash "r"
  else if b =? 9 then String backslash "t"
  else String backslash
         (String "u" (String "0" (String "0"
            (String (hex (Z.shiftr b 4))
               (String (hex (Z.land b 0xF)) EmptyString))))).

(** The loop of [appendString] (with [escapeHTML]), between the quotes. *)
Fixpoint appendStringBody (s : string) : string :=
  match s with
  | EmptyString => EmptyString
  | String c0 r =>
      if byte c0 <? 0x80 then escapeByte c0 ++ appendStringBody r
      else
        let (c, size) := DecodeRune s in
        if (c =? RuneError) && (size =? 1)%nat then
          String backslash "ufffd" ++ appendStringBody r
        else if (c =? 0x2028) || (c =? 0x2029) then
          match r with
          | String _ (String _ r2) =>
              String backslash "u202"
              ++ String (hex (Z.land c 0xF)) EmptyString
              ++ appendStringBody r2
          | _ => EmptyString
          end
        else
          match size, r with
          | 2%nat, String c1 r1 =>
              String c0 (String c1 (appendStringBody r1))
          | 3%nat, String c1 (String c2 r2) =>
              String c0 (String c1 (String c2 (appendStringBody r2)))
          | 4%nat, String c1 (String c2 (String c3 r3)) =>
              String c0 (String c1 (String c2 (String c3 (appendStringBody r3))))
          | _, _ => String c0 (appendStringBody r)
          end
  end.

Definition appendString (s : string) : string :=
  String dquote (appendStringBody s ++ String dquote EmptyString).

(** [strconv.AppendInt(b, v, 10)] *)
Definition AppendInt (v : Z) : string :=
  NilZero.string_of_int (Z.to_int v).

(** The encoder of the dynamic type [C] of a [Content]; [None] is an error
    of [json.Marshal]. *)
Class Marshaler (C : Type) : Type := MarshalJSON : C → option string.

Definition key (name : string) : string :=
  String dquote (name ++ String dquote ":").

(** A [*LogResult] is encoded as the struct it points to. *)
Global Instance LogResult_Marshaler : Marshaler LogResult.t := λ r,
  Some ("{" ++ key "fromLineNum" ++ AppendInt (LogResult.FromLineNum r)
        ++ "," ++ key "toLineNum" ++ AppendInt (LogResult.ToLineNum r)
        ++ "," ++ key "logContent" ++ appendString (LogResult.LogContent r)
        ++ "," ++ key "isEnd"
        ++ (if LogResult.IsEnd r then "true" else "false") ++ "}").

(** A channel, for one, has no encoding. *)
Inductive chan : Type := MkChan.
Global Instance chan_Marshaler : Marshaler chan := λ _, None.

(** [json.Marshal(res)] for a [Response]: [content] is left out when the
    interface is nil ([omitempty]). *)
Definition Marshal {C} `{Marshaler C} (res : Response.t C) : option string :=
  content ← match Response.Content res with
            | None => Some EmptyString
            | Some c => v ← MarshalJSON c; Some ("," ++ key "content" ++ v)
            end;
  Some ("{" ++ key "code" ++ AppendInt (Response.Code res)
        ++ "," ++ key "msg" ++ appendString (Response.Msg res)
        ++ content ++ "}").

(** [func (res Response) String() string] *)
Definition Response_String {C} `{Marshaler C} (res : Response.t C) : string :=
  match Marshal res with
  | Some b => b
  | None => EmptyString
  end.

(** *** The decoder *)

(** A JSON value.  A number keeps its literal: what it becomes depends on
    the Go type it is stored in. *)
Inductive json : Type :=
  | JNull
  | JBool (b : bool)
  | JNumber (lit : string)
  | JString (s : string)
  | JArray (elems : list json)
  | JObject (members : list (string * json)).

Definition isSpace (c : ascii) : bool :=
  let b := byte c in (b =? 32) || (b =? 9) || (b =? 13) || (b =? 10).

Fixpoint skipSpace (s : string) : string :=
  match s with
  | String c r => if isSpace c then skipSpace r else s
  | EmptyString => s
  end.

Definition isDigit (c : ascii) : bool :=
  let b := byte c in (48 <=? b) && (b <=? 57).

Fixpoint digits (s : string) : string * string :=
  match s with
  | String c r =>
      if isDigit c then let (d, r') := digits r in (String c d, r')
      else (EmptyString, s)
  | EmptyString => (EmptyString, s)
  end.

(** The literal of a number at the head of [s], and what follows it. *)
Definition scanNumber (s : string) : option (string * string) :=
  let (sign, s1) :=
    match s with
    | String c r => if (byte c =? 45) then ("-", r) else (EmptyString, s)
    | EmptyString => (EmptyString, s)
    end in
  int ← match s1 with
        | String c r =>
            if byte c =? 48 then Some ("0", r)
            else if isDigit c then let (d, r') := digits r in Some (String c d, r')
            else None
        | EmptyString => None
        end;
  frac ← match int.2 with
         | String c r =>
             if byte c =? 46 then
               match digits r with
               | (EmptyString, _) => None
               | (d, r') => Some (String c d, r')
               end
             else Some (EmptyString, int.2)
         | EmptyString => Some (EmptyString, int.2)
         end;
  exp ← match frac.2 with
        | String c r =>
            if (byte c =? 101) || (byte c =? 69) then
              let (sg, r1) :=
                match r with
                | String c' r' =>
                    if (byte c' =? 43) || (byte c' =? 45)
                    then (String c' EmptyString, r') else (EmptyString, r)
                | EmptyString => (EmptyString, r)
                end in
              match digits r1 with
              | (EmptyString, _) => None
              | (d, r') => Some (String c (sg ++ d), r')
              end
            else Some (EmptyString, frac.2)
        | EmptyString => Some (EmptyString, frac.2)
        end;
  Some (sign ++ int.1 ++ frac.1 ++ exp.1, exp.2).

Definition hexValue (c : ascii) : option Z :=
  let b := byte c in
  if (48 <=? b) && (b <=? 57) then Some (b - 48)
  else if (97 <=? b) && (b <=? 102) then Some (b - 87)
  else if (65 <=? b) && (b <=? 70) then Some (b - 55)
  else None.

(** [getu4], on the four characters after a backslash and [u]. *)
Definition getu4 (h1 h2 h3 h4 : ascii) : option Z :=
  d1 ← hexValue h1; d2 ← hexValue h2; d3 ← hexValue h3; d4 ← hexValue h4;
  Some (d1 * 4096 + d2 * 256 + d3 * 16 + d4).

(** [utf16.IsSurrogate] and [utf16.DecodeRune] *)
Definition IsSurrogate (r : Z) : bool := (0xD800 <=? r) && (r <? 0xE000).

Definition DecodeSurrogates (r1 r2 : Z) : Z :=
  if (0xD800 <=? r1) && (r1 <? 0xDC00) && (0xDC00 <=? r2) && (r2 <? 0xE000)
  then Z.lor (Z.shiftl (r1 - 0xD800) 10) (r2 - 0xDC00) + 0x10000
  else RuneError.

Definition prepend (p : string) (r : option (string * string))
    : option (string * string) :=
  match r with
  | Some (t, rest) => Some (p ++ t, rest)
  | None => None
  end.

(** A string literal, after its opening quote: the scanner's check and
    [unquote] in one pass.  It gives the bytes of the string and what follows
    the closing quote. *)
Fixpoint unquote (s : string) : option (string * string) :=
  match s with
  | EmptyString => None
  | String c r =>
      let b := byte c in
      if b =? 34 then Some (EmptyString, r)
      else if b =? 92 then
        match r with
        | String e r1 =>
            let x := byte e in
            if (x =? 34) || (x =? 92) || (x =? 47) then
              prepend (String e EmptyString) (unquote r1)
            else if x =? 98 then prepend (String (chr 8) EmptyString) (unquote r1)
            else if x =? 102 then prepend (String (chr 12) EmptyString) (unquote r1)
            else if x =? 110 then prepend (String (chr 10) EmptyString) (unquote r1)
            else if x =? 114 then prepend (String (chr 13) EmptyString) (unquote r1)
            else if x =? 116 then prepend (String (chr 9) EmptyString) (unquote r1)
            else if x =? 117 then
              match r1 with
              | String h1 (String h2 (String h3 (String h4 r2))) =>
                  match getu4 h1 h2 h3 h4 with
                  | Some rr =>
                      if IsSurrogate rr then
                        match r2 with
                        | String e1 (String e2 (String g1 (String g2
                            (String g3 (String g4 r3))))) =>
                            let rr1 :=
                              if (byte e1 =? 92) && (byte e2 =? 117)
                              then getu4 g1 g2 g3 g4 else None in
                            match rr1 with
                            | Some rr1 =>
                                let dec := DecodeSurrogates rr rr1 in
                                if dec =? RuneError
                                then prepend (EncodeRune RuneError) (unquote r2)
                                else prepend (EncodeRune dec) (unquote r3)
                            | None =>
                                prepend (EncodeRune RuneError) (unquote r2)
                            end
                        | _ => prepend (EncodeRune RuneError) (unquote r2)
                        end
                      else prepend (EncodeRune rr) (unquote r2)
                  | None => None
                  end
              | _ => None
              end
            else None
        | EmptyString => None
        end
      else if b <? 32 then None
      else if b <? 0x80 then prepend (String c EmptyString) (unquote r)
      else
        let (rr, size) := DecodeRune s in
        match size, r with
        | 2%nat, String _ r1 => prepend (EncodeRune rr) (unquote r1)
        | 3%nat, String _ (String _ r2) => prepend (EncodeRune rr) (unquote r2)
        | 4%nat, String _ (String _ (String _ r3)) =>
            prepend (EncodeRune rr) (unquote r3)
        | _, _ => prepend (EncodeRune rr) (unquote r)
        end
  end.

Definition literal (word : string) (v : json) (s : string)
    : option (json * string) :=
  if String.prefix word s
  then Some (v, String.substring (String.length word)
                  (String.length s - String.length word) s)
  else None.

(** A value at the head of [s], after white space, and what follows it.
    [fuel] bounds the number of values, members and elements read. *)
Fixpoint parseValue (fuel : nat) (s : string) : option (json * string) :=
  match fuel with
  | O => None
  | S fuel =>
      match skipSpace s with
      | EmptyString => None
      | String c r =>
          let b := byte c in
          if b =? 123 then
            match skipSpace r with
            | String c' r' =>
                if byte c' =? 125 then Some (JObject [], r')
                else parseMembers fuel (String c' r') []
            | EmptyString => None
            end
          else if b =? 91 then
            match skipSpace r with
            | String c' r' =>
                if byte c' =? 93 then Some (JArray [], r')
                else parseElements fuel (String c' r') []
            | EmptyString => None
            end
          else if b =? 34 then
            match unquote r with
            | Some (t, r') => Some (JString t, r')
            | None => None
            end
          else if b =? 116 then literal "true" (JBool true) (String c r)
          else if b =? 102 then literal "false" (JBool false) (String c r)
          else if b =? 110 then literal "null" JNull (String c r)
          else
            match scanNumber (String c r) with
            | Some (lit, r') => Some (JNumber lit, r')
            | None => None
            end
      end
  end
with parseMembers (fuel : nat) (s : string) (acc : list (string * json))
    : option (json * string) :=
  match fuel with
  | O => None
  | S fuel =>
      match skipSpace s with
      | String c r =>
          if byte c =? 34 then
            match unquote r with
            | Some (k, r1) =>
                match skipSpace r1 with
                | String c1 r2 =>
                    if byte c1 =? 58 then
                      match parseValue fuel r2 with
                      | Some (v, r3) =>
                          match skipSpace r3 with
                          | String c3 r4 =>
                              if byte c3 =? 44 then
                                parseMembers fuel r4 (acc ++ [(k, v)])
                              else if byte c3 =? 125 then
                                Some (JObject (acc ++ [(k, v)]), r4)
                              else None
                          | EmptyString => None
                          end
                      | None => None
                      end
                    else None
                | EmptyString => None
                end
            | None => None
            end
          else None
      | EmptyString => None
      end
  end
with parseElements (fuel : nat) (s : string) (acc : list json)
    : option (json * string) :=
  match fuel with
  | O => None
  | S fuel =>
      match parseValue fuel s with
      | Some (v, r1) =>
          match skipSpace r1 with
          | String c r2 =>
              if byte c =? 44 then parseElements fuel r2 (acc ++ [v])
              else if byte c =? 93 then Some (JArray (acc ++ [v]), r2)
              else None
          | EmptyString => None
          end
      | None => None
      end
  end.

(** The one JSON value that [text] is, if it is one. *)
Definition parse (text : string) : option json :=
  match parseValue (S (String.length text)) text with
  | Some (v, rest) =>
      match skipSpace rest with
      | EmptyString => Some v
      | String _ _ => None
      end
  | None => None
  end.

(** [strconv.ParseInt(lit, 10, 64)] on the literal of a number. *)
Definition ParseInt (lit : string) : option Z :=
  match NilZero.int_of_string lit with
  | Some d =>
      let v := Z.of_int d in
      if (- 2 ^ 63 <=? v) && (v <? 2 ^ 63) then Some v else None
  | None => None
  end.

(** The field of [Response] that a key names: by its exact name, or else
    up to the case of its letters ([ſ] counts as [s], the Kelvin sign as
    [k]). *)
Inductive field : Type := FCode | FMsg | FContent.

Fixpoint fold (s : string) : string :=
  match s with
  | EmptyString => EmptyString
  | String c r =>
      let b := byte c in
      if (65 <=? b) && (b <=? 90) then String (chr (b + 32)) (fold r)
      else
        match r with
        | String c1 r1 =>
            if (b =? 0xC5) && (byte c1 =? 0xBF) then String "s" (fold r1)
            else
              match r1 with
              | String c2 r2 =>
                  if (b =? 0xE2) && (byte c1 =? 0x84) && (byte c2 =? 0xAA)
                  then String "k" (fold r2)
                  else String c (fold r)
              | EmptyString => String c (fold r)
              end
        | EmptyString => String c (fold r)
        end
  end.

Definition fieldOf (k : string) : option field :=
  let k' := fold k in
  if (k' =? "code")%string then Some FCode
  else if (k' =? "msg")%string then Some FMsg
  else if (k' =? "content")%string then Some FContent
  else None.

(** A member of the object is stored in the Response.  A null leaves an
    [int] or a [string] as it is and makes the interface nil. *)
Definition setField (res : Response.t json) (m : string * json)
    : option (Response.t json) :=
  match fieldOf m.1 with
  | Some FCode =>
      match m.2 with
      | JNull => Some res
      | JNumber lit =>
          match ParseInt lit with
          | Some v => Some (Response.mk v (Response.Msg res) (Response.Content res))
          | None => None
          end
      | _ => None
      end
  | Some FMsg =>
      match m.2 with
      | JNull => Some res
      | JString t => Some (Response.mk (Response.Code res) t (Response.Content res))
      | _ => None
      end
  | Some FContent =>
      match m.2 with
      | JNull => Some (Response.mk (Response.Code res) (Response.Msg res) None)
      | v => Some (Response.mk (Response.Code res) (Response.Msg res) (Some v))
      end
  | None => Some res
  end.

Fixpoint setFields (res : Response.t json) (ms : list (string * json))
    : option (Response.t json) :=
  match ms with
  | [] => Some res
  | m :: ms' =>
      match setField res m with
      | Some res' => setFields res' ms'
      | None => None
      end
  end.

(** [json.Unmarshal(text, &res)] for [var res Response]: the Response it
    leaves when it returns no error.  A [content] that is not null is the
    generic value that the decoder builds for the JSON value; the value stands
    for it. *)
Definition Unmarshal (text : string) : option (Response.t json) :=
  match parse text with
  | Some (JObject ms) => setFields (Response.mk 0 EmptyString None) ms
  | Some JNull => Some (Response.mk 0 EmptyString None)
  | _ => None
  end.

(** ** [executor.go]: the loop of [Stop] *)

(** [e.jobs.Range(func(k, v) bool { e.stopJob(v); return true })] in [Stop]:
    [stopJob] on the Jobs of the table, in the order [order] in which Range
    visits them. *)
Fixpoint Stop_Range (order : list ptr) : M unit :=
  match order with
  | [] => mret tt
  | job :: rest => stopJob job;; Stop_Range rest
  end.

(** ** [util.go] *)

(** A [time.Duration] is an int64 count of nanoseconds. *)
Module time.
Definition Nanosecond : Z := 1.
Definition Microsecond : Z := 1000 * Nanosecond.
Definition Millisecond : Z := 1000 * Microsecond.
Definition Second : Z := 1000 * Millisecond.

(** [func (d Duration) Truncate(m Duration) Duration]: [d - d%m], where
    Go's [%] takes the sign of the dividend. *)
Definition Truncate (d m : Z) : Z :=
  if m <=? 0 then d else d - Z.rem d m.
End time.

(** [func TruncateDuration(d time.Duration) time.Duration] *)
Definition TruncateDuration (d : Z) : Z :=
  if time.Second <=? d then d
  else if time.Millisecond <=? d then time.Truncate d time.Millisecond
  else time.Truncate d time.Microsecond.

(** [float64(n)] of an int64: the nearest number with a significand of 53
    bits, ties to even.  The result is a whole number. *)
Definition float64 (n : Z) : Z :=
  let a := Z.abs n in
  let bits := Z.log2 a + 1 in
  if bits <=? 53 then n
  else
    let sh := bits - 53 in
    let q := Z.shiftr a sh in
    let r := Z.land a (Z.ones sh) in
    let half := Z.shiftl 1 (sh - 1) in
    let q' := if (half <? r) || ((r =? half) && Z.odd q) then q + 1 else q in
    Z.sgn n * Z.shiftl q' sh.

(** The hundredths that the verb [%.02f] prints for the float64 [m / 2^k]
    ([0 ≤ m], [0 < k]): strconv rounds the exact decimal expansion of the
    number to two fraction digits, ties to even. *)
Definition hundredths (m k : Z) : Z :=
  let scaled := m * 100 in
  let q := Z.shiftr scaled k in
  let r := Z.land scaled (Z.ones k) in
  let half := Z.shiftl 1 (k - 1) in
  if (half <? r) || ((r =? half) && Z.odd q) then q + 1 else q.

(** [c] hundredths in the layout of [%.02f]. *)
Definition fixed2 (c : Z) : string :=
  AppendInt (c / 100) ++ "." ++ AppendInt (c / 10 mod 10) ++ AppendInt (c mod 10).

(** [func ReadableSize(size int64) string].  A division of a float64 by 1024
    is exact, so [s/1024/1024/1024] is [s / 2^30]. *)
Definition ReadableSize (size : Z) : string :=
  let s := float64 size in
  if 1024 * 1024 * 1024 <=? size then fixed2 (hundredths s 30) ++ "gb"
  else if 1024 * 1024 <=? size then fixed2 (hundredths s 20) ++ "mb"
  else if 1024 <=? size then fixed2 (hundredths s 10) ++ "kb"
  else AppendInt size ++ "b".

(** ** [options.go] *)

(** A [Logger] value: one of the two loggers of [logger.go], or a logger of
    the embedding program. *)
Inductive Logger : Type :=
  | DefaultLogger
  | DummyLogger
  | UserLogger (n : nat).

Module syscall.
Definition SIGINT : Z := 2.
Definition SIGQUIT : Z := 3.
Definition SIGTERM : Z := 15.
End syscall.

Module Options.
Record t : Type := mk
  { AccessToken : string;
    AppName : string;
    CallbackBufferSize : Z;
    CallbackInterval : string;
    ClientTimeout : Z;
    Host : string;
    Logger : Logger;
    RegisterInterval : string;
    SizeLimit : Z;
    Port : Z;
    IdleTimeout : Z;
    ReadTimeout : Z;
    WriteTimeout : Z;
    WaitTimeout : Z;
    interruptSignals : list Z }.
End Options.

(** [type Option], a func on a pointer to Options: what the func does to the Options it is
    given. *)
Definition Option : Type := Options.t → Options.t.

Definition defaultCallbackBufferSize : Z := 1024.
Definition defaultCallbackInterval : string := "1s".
Definition defaultClientTimeout : Z := time.Second * 3.
Definition defaultRegisterInterval : string := "10s".
Definition defaultSizeLimit : Z := 10240.
Definition defaultPort : Z := 9999.
Definition defaultIdleTimeout : Z := time.Second * 60.
Definition defaultReadTimeout : Z := time.Second * 15.
Definition defaultWrteTimeout : Z := time.Second * 15.
Definition defaultWaitTimeout : Z := time.Second * 15.
Definition defaultInterruptSignals : list Z :=
  [syscall.SIGINT; syscall.SIGQUIT; syscall.SIGTERM].

(** [func NewOptions(opts ...Option) Options] *)
Definition NewOptions (opts : list Option) : Options.t :=
  let options :=
    {| Options.AccessToken := EmptyString;
       Options.AppName := EmptyString;
       Options.CallbackBufferSize := defaultCallbackBufferSize;
       Options.CallbackInterval := defaultCallbackInterval;
       Options.ClientTimeout := defaultClientTimeout;
       Options.Host := EmptyString;
       Options.Logger := DefaultLogger;
       Options.RegisterInterval := defaultRegisterInterval;
       Options.SizeLimit := defaultSizeLimit;
       Options.Port := defaultPort;
       Options.IdleTimeout := defaultIdleTimeout;
       Options.ReadTimeout := defaultReadTimeout;
       Options.WriteTimeout := defaultWrteTimeout;
       Options.WaitTimeout := defaultWaitTimeout;
       Options.interruptSignals := defaultInterruptSignals |} in
  fold_left (λ options opt, opt options) opts options.

Definition WithAccessToken (token : string) : Option := λ o,
  Options.mk token (Options.AppName o) (Options.CallbackBufferSize o)
    (Options.CallbackInterval o) (Options.ClientTimeout o) (Options.Host o)
    (Options.Logger o) (Options.RegisterInterval o) (Options.SizeLimit o)
    (Options.Port o) (Options.IdleTimeout o) (Options.ReadTimeout o)
    (Options.WriteTimeout o) (Options.WaitTimeout o)
    (Options.interruptSignals o).

Definition WithAppName (appName : string) : Option := λ o,
  Options.mk (Options.AccessToken o) appName (Options.CallbackBufferSize o)
    (Options.CallbackInterval o) (Options.ClientTimeout o) (Options.Host o)
    (Options.Logger o) (Options.RegisterInterval o) (Options.SizeLimit o)
    (Options.Port o) (Options.IdleTimeout o) (Options.ReadTimeout o)
    (Options.WriteTimeout o) (Options.WaitTimeout o)
    (Options.interruptSignals o).

Definition WithCallbackBufferSize (size : Z) : Option := λ o,
  Options.mk (Options.AccessToken o) (Options.AppName o) size
    (Options.CallbackInterval o) (Options.ClientTimeout o) (Options.Host o)
    (Options.Logger o) (Options.RegisterInterval o) (Options.SizeLimit o)
    (Options.Port o) (Options.IdleTimeout o) (Options.ReadTimeout o)
    (Options.WriteTimeout o) (Options.WaitTimeout o)
    (Options.interruptSignals o).

Definition WithCallbackInterval (interval : string) : Option := λ o,
  Options.mk (Options.AccessToken o) (Options.AppName o)
    (Options.CallbackBufferSize o) interval (Options.ClientTimeout o)
    (Options.Host o) (Options.Logger o) (Options.RegisterInterval o)
    (Options.SizeLimit o) (Options.Port o) (Options.IdleTimeout o)
    (Options.ReadTimeout o) (Options.WriteTimeout o) (Options.WaitTimeout o)
    (Options.interruptSignals o).

Definition WithClientTimeout (timeout : Z) : Option := λ o,
  Options.mk (Options.AccessToken o) (Options.AppName o)
    (Options.CallbackBufferSize o) (Options.CallbackInterval o) timeout
    (Options.Host o) (Options.Logger o) (Options.RegisterInterval o)
    (Options.SizeLimit o) (Options.Port o) (Options.IdleTimeout o)
    (Options.ReadTimeout o) (Options.WriteTimeout o) (Options.WaitTimeout o)
    (Options.interruptSignals o).

(** [WithHost]: a host that does not start with "http" gets the scheme
    "http://". *)
Definition WithHost (host : string) : Option := λ o,
  let host := if String.prefix "http" host then host
              else ("http://" ++ host)%string in
  Options.mk (Options.AccessToken o) (Options.AppName o)
    (Options.CallbackBufferSize o) (Options.CallbackInterval o)
    (Options.ClientTimeout o) host (Options.Logger o)
    (Options.RegisterInterval o) (Options.SizeLimit o) (Options.Port o)
    (Options.IdleTimeout o) (Options.ReadTimeout o) (Options.WriteTimeout o)
    (Options.WaitTimeout o) (Options.interruptSignals o).

Definition WithLogger (logger : Logger) : Option := λ o,
  Options.mk (Options.AccessToken o) (Options.AppName o)
    (Options.CallbackBufferSize o) (Options.CallbackInterval o)
    (Options.ClientTimeout o) (Options.Host o) logger
    (Options.RegisterInterval o) (Options.SizeLimit o) (Options.Port o)
    (Options.IdleTimeout o) (Options.ReadTimeout o) (Options.WriteTimeout o)
    (Options.WaitTimeout o) (Options.interruptSignals o).

Definition WithRegisterInterval (interval : string) : Option := λ o,
  Options.mk (Options.AccessToken o) (Options.AppName o)
    (Options.CallbackBufferSize o) (Options.CallbackInterval o)
    (Options.ClientTimeout o) (Options.Host o) (Options.Logger o) interval
    (Options.SizeLimit o) (Options.Port o) (Options.IdleTimeout o)
    (Options.ReadTimeout o) (Options.WriteTimeout o) (Options.WaitTimeout o)
    (Options.interruptSignals o).

Definition WithSizeLimit (sizeLimit : Z) : Option := λ o,
  Options.mk (Options.AccessToken o) (Options.AppName o)
    (Options.CallbackBufferSize o) (Options.CallbackInterval o)
    (Options.ClientTimeout o) (Options.Host o) (Options.Logger o)
    (Options.RegisterInterval o) sizeLimit (Options.Port o)
    (Options.IdleTimeout o) (Options.ReadTimeout o) (Options.WriteTimeout o)
    (Options.WaitTimeout o) (Options.interruptSignals o).

Definition WithPort (port : Z) : Option := λ o,
  Options.mk (Options.AccessToken o) (Options.AppName o)
    (Options.CallbackBufferSize o) (Options.CallbackInterval o)
    (Options.ClientTimeout o) (Options.Host o) (Options.Logger o)
    (Options.RegisterInterval o) (Options.SizeLimit o) port
    (Options.IdleTimeout o) (Options.ReadTimeout o) (Options.WriteTimeout o)
    (Options.WaitTimeout o) (Options.interruptSignals o).

Definition WithIdleTimeout (timeout : Z) : Option := λ o,
  Options.mk (Options.AccessToken o) (Options.AppName o)
    (Options.CallbackBufferSize o) (Options.CallbackInterval o)
    (Options.ClientTimeout o) (Options.Host o) (Options.Logger o)
    (Options.RegisterInterval o) (Options.SizeLimit o) (Options.Port o)
    timeout (Options.ReadTimeout o) (Options.WriteTimeout o)
    (Options.WaitTimeout o) (Options.interruptSignals o).

Definition WithReadTimeout (timeout : Z) : Option := λ o,
  Options.mk (Options.AccessToken o) (Options.AppName o)
    (Options.CallbackBufferSize o) (Options.CallbackInterval o)
    (Options.ClientTimeout o) (Options.Host o) (Options.Logger o)
    (Options.RegisterInterval o) (Options.SizeLimit o) (Options.Port o)
    (Options.IdleTimeout o) timeout (Options.WriteTimeout o)
    (Options.WaitTimeout o) (Options.interruptSignals o).

Definition WithWriteTimeout (timeout : Z) : Option := λ o,
  Options.mk (Options.AccessToken o) (Options.AppName o)
    (Options.CallbackBufferSize o) (Options.CallbackInterval o)
    (Options.ClientTimeout o) (Options.Host o) (Options.Logger o)
    (Options.RegisterInterval o) (Options.SizeLimit o) (Options.Port o)
    (Options.IdleTimeout o) (Options.ReadTimeout o) timeout
    (Options.WaitTimeout o) (Options.interruptSignals o).

Definition WithWaitTimeout (timeout : Z) : Option := λ o,
  Options.mk (Options.AccessToken o) (Options.AppName o)
    (Options.CallbackBufferSize o) (Options.CallbackInterval o)
    (Options.ClientTimeout o) (Options.Host o) (Options.Logger o)
    (Options.RegisterInterval o) (Options.SizeLimit o) (Options.Port o)
    (Options.IdleTimeout o) (Options.ReadTimeout o) (Options.WriteTimeout o)
    timeout (Options.interruptSignals o).

Definition WithInterruptSignals (signals : list Z) : Option := λ o,
  Options.mk (Options.AccessToken o) (Options.AppName o)
    (Options.CallbackBufferSize o) (Options.CallbackInterval o)
    (Options.ClientTimeout o) (Options.Host o) (Options.Logger o)
    (Options.RegisterInterval o) (Options.SizeLimit o) (Options.Port o)
    (Options.IdleTimeout o) (Options.ReadTimeout o) (Options.WriteTimeout o)
    (Options.WaitTimeout o) signals.

(** * Properties *)

(** ** Reading a method body *)

Ltac unfold_M :=
  unfold TriggerJob, admission, newJob, stopJob, Stop, addJob, getJob,
    GetJobHandler, AddJobHandler, RemoveJobHandler, go_watch, go_runJob,
    alloc, store, load, get, modify, panic, mbind, M_bind, mret, M_ret
    in *;
  cbv beta in *.

(** The handler that [name] is registered for is a function. *)
Definition registered (s : state) (name : string) : Prop :=
  ∃ f, handlers s !! name = Some (Func f).

(** The Job in the table under [id]. *)
Definition incumbent (s : state) (id : Z) : option (nat * Job.t) :=
  match jobs s !! id with
  | Some j =>
      match heap s !! j with
      | Some o => Some (j, o)
      | None => None
      end
  | None => None
  end.

(** The Job that [newJob] makes for [params] and the handler [h]. *)
Definition jobOf (params : RunParam.t) (h : JobHandler) : Job.t :=
  {| Job.ID := RunParam.JobID params;
     Job.LogID := RunParam.LogID params;
     Job.LogDateTime := 0;
     Job.Name := RunParam.ExecutorHandler params;
     Job.Handle := h;
     Job.Param := JobParam.mk (RunParam.ExecutorParams params)
                    (RunParam.BroadcastIndex params)
                    (RunParam.BroadcastTotal params);
     Job.Timeout := RunParam.ExecutorTimeout params;
     Job.StartTime := 0;
     Job.EndTime := 0;
     Job.LogDir := EmptyString;
     Job.ctx := NoContext;
     Job.done := [] |}.

(** The state after [newJob] has made a Job and both its goroutines are
    started: the Job is on the heap, its [watch] waits for [done], its
    [runJob] is about to poll the table.  The table itself is as it was. *)
Definition scheduled (params : RunParam.t) (h : JobHandler) (s : state) : state :=
  set_runners <[next s := AtGetJob]>
    (set_watchers <[next s := AtRecvDone]>
       (set_next (S (next s)) (set_heap <[next s := jobOf params h]> s))).

Lemma incumbent_Some s id j o :
  incumbent s id = Some (j, o) ↔ jobs s !! id = Some j ∧ heap s !! j = Some o.
Proof.
  unfold incumbent. split.
  - destruct (jobs s !! id) as [j'|]; [|done].
    destruct (heap s !! j') as [o'|] eqn:E; [|done].
    intros [= <- <-]. by rewrite E.
  - by intros [-> ->].
Qed.

Lemma newJob_missing params s :
  ¬ registered s (RunParam.ExecutorHandler params) →
  newJob params s = Ret (inl "job handler not found") s.
Proof.
  intros Hno. unfold_M.
  destruct (handlers s !! RunParam.ExecutorHandler params) as [[|f]|] eqn:E;
    try done.
  destruct Hno. unfold registered. eauto.
Qed.

Lemma newJob_found params s f :
  handlers s !! RunParam.ExecutorHandler params = Some (Func f) →
  newJob params s
  = Ret (inr (next s))
      (set_watchers <[next s := AtRecvDone]>
         (set_next (S (next s))
            (set_heap <[next s := jobOf params (Func f)]> s))).
Proof. intros E. unfold_M. by rewrite E. Qed.

Lemma TriggerJob_rejected params s msg s1 :
  admission params s = Ret (Some msg) s1 →
  TriggerJob params s = Ret (Some msg) s1.
Proof. intros E. unfold TriggerJob, mbind, M_bind. by rewrite E. Qed.

Lemma TriggerJob_panics params s s1 :
  admission params s = Panic s1 →
  TriggerJob params s = Panic s1.
Proof. intros E. unfold TriggerJob, mbind, M_bind. by rewrite E. Qed.

Lemma TriggerJob_missing params s s1 :
  admission params s = Ret None s1 →
  ¬ registered s1 (RunParam.ExecutorHandler params) →
  TriggerJob params s = Ret (Some "job handler not found") s1.
Proof.
  intros E Hno. unfold TriggerJob, mbind, M_bind. rewrite E.
  by rewrite (newJob_missing _ _ Hno).
Qed.

Lemma TriggerJob_found params s s1 f :
  admission params s = Ret None s1 →
  handlers s1 !! RunParam.ExecutorHandler params = Some (Func f) →
  TriggerJob params s = Ret None (scheduled params (Func f) s1).
Proof.
  intros E Hf. unfold TriggerJob, mbind, M_bind. rewrite E.
  by rewrite (newJob_found _ _ _ Hf).
Qed.

(** What [admission] does to an incumbent whose log id differs, under
    COVER_EARLY: the incumbent is stopped when it has a context. *)
Definition stopped (j : ptr) (o : Job.t) (s : state) : state :=
  set_jobs (delete (Job.ID o)) (set_heap <[j := Job.set_ctx Cancelled o]> s).

Lemma stopJob_started s j o :
  heap s !! j = Some o → Job.ctx o ≠ NoContext →
  stopJob j s = Ret tt (stopped j o s).
Proof.
  intros Hh Hc. unfold_M. rewrite Hh.
  destruct (Job.ctx o) eqn:Ec; try done; simpl;
    rewrite lookup_insert_eq; done.
Qed.

Lemma stopJob_unstarted s j o :
  heap s !! j = Some o → Job.ctx o = NoContext →
  stopJob j s = Panic s.
Proof. intros Hh Hc. unfold_M. by rewrite Hh, Hc. Qed.

Lemma admission_duplicate params s j o :
  incumbent s (RunParam.JobID params) = Some (j, o) →
  Job.LogID o = RunParam.LogID params →
  admission params s = Ret (Some "duplicate log id") s.
Proof.
  intros [Hj Ho]%incumbent_Some Hl. unfold_M. rewrite Hj, Ho, Hl.
  by rewrite Z.eqb_refl.
Qed.

Lemma admission_discard params s j o :
  incumbent s (RunParam.JobID params) = Some (j, o) →
  Job.LogID o ≠ RunParam.LogID params →
  RunParam.ExecutorBlockStrategy params = DiscardLater →
  admission params s = Ret (Some "a job of same id is already running") s.
Proof.
  intros [Hj Ho]%incumbent_Some Hl Hs. unfold_M. rewrite Hj, Ho, Hs.
  by apply Z.eqb_neq in Hl as ->.
Qed.

Lemma admission_cover params s j o :
  incumbent s (RunParam.JobID params) = Some (j, o) →
  Job.LogID o ≠ RunParam.LogID params →
  RunParam.ExecutorBlockStrategy params = CoverEarly →
  admission params s = match stopJob j s with
                   | Ret _ s' => Ret None s'
                   | Panic s' => Panic s'
                   end.
Proof.
  intros [Hj Ho]%incumbent_Some Hl Hs.
  unfold admission, getJob, load, get, mbind, M_bind, mret, M_ret.
  rewrite Hj, Ho, Hs. apply Z.eqb_neq in Hl as ->. simpl.
  by destruct (stopJob j s).
Qed.

Lemma admission_free params s :
  jobs s !! RunParam.JobID params = None →
  admission params s = Ret None s.
Proof.
  intros Hj. unfold_M. rewrite Hj.
  by repeat case_match.
Qed.

Lemma admission_serial params s j o :
  incumbent s (RunParam.JobID params) = Some (j, o) →
  Job.LogID o ≠ RunParam.LogID params →
  RunParam.ExecutorBlockStrategy params ≠ DiscardLater →
  RunParam.ExecutorBlockStrategy params ≠ CoverEarly →
  admission params s = Ret None s.
Proof.
  intros [Hj Ho]%incumbent_Some Hl Hd Hc. unfold_M. rewrite Hj, Ho.
  apply Z.eqb_neq in Hl as ->.
  apply String.eqb_neq in Hd as ->. by apply String.eqb_neq in Hc as ->.
Qed.

(** [admission] touches nothing but the incumbent: it leaves the state as it
    found it, or it has stopped an incumbent that had a context. *)
Lemma admission_frame params s r s1 :
  admission params s = Ret r s1 →
  s1 = s ∨
  ∃ j o, incumbent s (RunParam.JobID params) = Some (j, o)
         ∧ Job.ctx o ≠ NoContext ∧ r = None ∧ s1 = stopped j o s.
Proof.
  unfold admission, getJob, load, get, mbind, M_bind, mret, M_ret. cbv beta.
  destruct (jobs s !! RunParam.JobID params) as [j|] eqn:Hj.
  - destruct (heap s !! j) as [o|] eqn:Ho; [|done].
    destruct (Job.LogID o =? RunParam.LogID params)%Z; [left; congruence|].
    destruct (RunParam.ExecutorBlockStrategy params =? DiscardLater)%string;
      [left; congruence|].
    destruct (RunParam.ExecutorBlockStrategy params =? CoverEarly)%string;
      [|left; congruence].
    destruct (Job.ctx o) eqn:Hc.
    + by rewrite (stopJob_unstarted s j o).
    + rewrite (stopJob_started s j o) by (done || congruence).
      intros [= <- <-]. right. exists j, o.
      split; [by apply incumbent_Some|]. split; [congruence|done].
    + rewrite (stopJob_started s j o) by (done || congruence).
      intros [= <- <-]. right. exists j, o.
      split; [by apply incumbent_Some|]. split; [congruence|done].
  - repeat case_match; left; congruence.
Qed.

(** ** Example states *)

(** The state a schedule leads to. *)
Definition after (sched : list action) (s : state) : state :=
  match exec sched s with
  | Some (_, s') => s'
  | None => s
  end.

Definition demo_run (id : Z) (h strategy : string) (logId : Z) : RunParam.t :=
  RunParam.mk id h EmptyString strategy 0 logId 0 EmptyString EmptyString 0 0 0.

(** Job 1 is triggered with log id 1 and its [runJob] has put it in the
    table, but [Run] has not made its context yet. *)
Definition sched_inserted : list action :=
  [ Call_AddJobHandler "demoJobHandler" (Func 0);
    Http_run (Body (demo_run 1 "demoJobHandler" SerialExecution 1));
    Go_runJob 0%nat;
    Go_runJob 0%nat ].

Definition s_inserted : state := after sched_inserted (NewExecutor 1024 0).

(** The same, one step later: the handler of job 1 is running. *)
Definition sched_running : list action :=
  (sched_inserted ++ [ Go_runJob 0%nat ])%list.

Definition s_running : state := after sched_running (NewExecutor 1024 0).

Lemma s_inserted_reachable : reachable s_inserted.
Proof.
  exists 1024%nat, 0, sched_inserted.
  destruct (exec sched_inserted (NewExecutor 1024 0)) as [[evs s]|] eqn:E.
  - exists evs. unfold s_inserted, after. by rewrite E.
  - by vm_compute in E.
Qed.

Lemma s_running_reachable : reachable s_running.
Proof.
  exists 1024%nat, 0, sched_running.
  destruct (exec sched_running (NewExecutor 1024 0)) as [[evs s]|] eqn:E.
  - exists evs. unfold s_running, after. by rewrite E.
  - by vm_compute in E.
Qed.

(** ** The trigger decision *)

(** C2: a trigger whose log id is the incumbent's is rejected with
    "duplicate log id", whatever its block strategy, and nothing changes:
    not the job table, not the incumbent, and no Job or goroutine is made. *)
Theorem TriggerJob_duplicate_log_id params s j o :
  incumbent s (RunParam.JobID params) = Some (j, o) →
  Job.LogID o = RunParam.LogID params →
  TriggerJob params s = Ret (Some "duplicate log id") s.
Proof.
  intros Hi Hl. apply TriggerJob_rejected. by eapply admission_duplicate.
Qed.

Lemma TriggerJob_duplicate_log_id_witness :
  TriggerJob (demo_run 1 "demoJobHandler" CoverEarly 1) s_running
  = Ret (Some "duplicate log id") s_running.
Proof.
  apply (TriggerJob_duplicate_log_id _ s_running 0%nat
           (Job.set_ctx (Live None) (jobOf (demo_run 1 "demoJobHandler" SerialExecution 1) (Func 0)))).
  - vm_compute. reflexivity.
  - reflexivity.
Defined.

(** C3: under DISCARD_LATER a trigger for a job id that has an incumbent
    (with another log id) is rejected with "a job of same id is already
    running"; the state is left as it was, so no Job is made or scheduled,
    the incumbent stays in the table and its context is not cancelled. *)
Theorem TriggerJob_discard_later params s j o :
  RunParam.ExecutorBlockStrategy params = DiscardLater →
  incumbent s (RunParam.JobID params) = Some (j, o) →
  Job.LogID o ≠ RunParam.LogID params →
  TriggerJob params s = Ret (Some "a job of same id is already running") s.
Proof.
  intros Hs Hi Hl. apply TriggerJob_rejected. by eapply admission_discard.
Qed.

Lemma TriggerJob_discard_later_witness :
  TriggerJob (demo_run 1 "demoJobHandler" DiscardLater 2) s_running
  = Ret (Some "a job of same id is already running") s_running.
Proof.
  apply (TriggerJob_discard_later _ s_running 0%nat
           (Job.set_ctx (Live None) (jobOf (demo_run 1 "demoJobHandler" SerialExecution 1) (Func 0)))).
  - reflexivity.
  - vm_compute. reflexivity.
  - vm_compute. discriminate.
Defined.

(** C5: once a trigger is past the duplicate and block-strategy checks
    ([admission] falls out of the switch, leaving [s1]): with no handler
    function registered under its name, [TriggerJob] returns "job handler
    not found" in [s1] itself, so no Job, no goroutine and no table entry is
    made; with one, it returns nil at once, the new Job is on the heap with
    no context and an empty [done], its [runJob] has not polled yet, its
    [watch] waits, and the table is still the one of [s1]. *)
Theorem TriggerJob_after_admission params s s1 :
  admission params s = Ret None s1 →
  (¬ registered s (RunParam.ExecutorHandler params) →
     TriggerJob params s = Ret (Some "job handler not found") s1
     ∧ next s1 = next s ∧ runners s1 = runners s ∧ watchers s1 = watchers s
     ∧ dom (heap s1) = dom (heap s)
     ∧ ∀ id j, jobs s1 !! id = Some j → jobs s !! id = Some j)
  ∧ (∀ f, handlers s !! RunParam.ExecutorHandler params = Some (Func f) →
     ∃ s2, TriggerJob params s = Ret None s2
       ∧ heap s2 = <[next s1 := jobOf params (Func f)]> (heap s1)
       ∧ runners s2 = <[next s1 := AtGetJob]> (runners s1)
       ∧ watchers s2 = <[next s1 := AtRecvDone]> (watchers s1)
       ∧ jobs s2 = jobs s1
       ∧ callbackChan s2 = callbackChan s1).
Proof.
  intros Ha.
  assert (Hh : handlers s1 = handlers s).
  { destruct (admission_frame _ _ _ _ Ha) as [->|(j & o & _ & _ & _ & ->)]; done. }
  split.
  - intros Hno. split.
    { apply TriggerJob_missing; [done|]. unfold registered in *. by rewrite Hh. }
    destruct (admission_frame _ _ _ _ Ha) as [->|(j & o & Hi & _ & _ & ->)].
    { done. }
    apply incumbent_Some in Hi as [Hj Ho]. simpl.
    repeat split; try done.
    + rewrite dom_insert_L. apply elem_of_dom_2 in Ho. set_solver.
    + intros id k Hk. apply lookup_delete_Some in Hk. tauto.
  - intros f Hf. exists (scheduled params (Func f) s1). split.
    { apply TriggerJob_found; [done|]. by rewrite Hh. }
    done.
Qed.

Lemma TriggerJob_after_admission_witness :
  TriggerJob (demo_run 2 "unexistingHandler" SerialExecution 2) s_running
  = Ret (Some "job handler not found") s_running.
Proof.
  refine (proj1 (proj1 (TriggerJob_after_admission
            (demo_run 2 "unexistingHandler" SerialExecution 2)
            s_running s_running _) _)).
  - vm_compute. reflexivity.
  - intros [f Hf]. vm_compute in Hf. discriminate.
Defined.

(** With an incumbent that has a context, COVER_EARLY stops it and goes on
    to [newJob]. *)
Lemma TriggerJob_cover_early_started params s j o f :
  RunParam.ExecutorBlockStrategy params = CoverEarly →
  incumbent s (RunParam.JobID params) = Some (j, o) →
  Job.LogID o ≠ RunParam.LogID params →
  Job.ctx o ≠ NoContext →
  handlers s !! RunParam.ExecutorHandler params = Some (Func f) →
  TriggerJob params s = Ret None (scheduled params (Func f) (stopped j o s)).
Proof.
  intros Hs Hi Hl Hc Hf. apply TriggerJob_found; [|done].
  rewrite (admission_cover _ _ _ _ Hi Hl Hs).
  apply incumbent_Some in Hi as [_ Ho].
  by rewrite (stopJob_started _ _ _ Ho Hc).
Qed.

Lemma TriggerJob_cover_early_missing_started params s j o :
  RunParam.ExecutorBlockStrategy params = CoverEarly →
  incumbent s (RunParam.JobID params) = Some (j, o) →
  Job.LogID o ≠ RunParam.LogID params →
  Job.ctx o ≠ NoContext →
  ¬ registered s (RunParam.ExecutorHandler params) →
  TriggerJob params s = Ret (Some "job handler not found") (stopped j o s).
Proof.
  intros Hs Hi Hl Hc Hno. apply TriggerJob_missing; [|done].
  rewrite (admission_cover _ _ _ _ Hi Hl Hs).
  apply incumbent_Some in Hi as [_ Ho].
  by rewrite (stopJob_started _ _ _ Ho Hc).
Qed.

Lemma TriggerJob_cover_early_unstarted params s j o :
  RunParam.ExecutorBlockStrategy params = CoverEarly →
  incumbent s (RunParam.JobID params) = Some (j, o) →
  Job.LogID o ≠ RunParam.LogID params →
  Job.ctx o = NoContext →
  TriggerJob params s = Panic s.
Proof.
  intros Hs Hi Hl Hc. apply TriggerJob_panics.
  rewrite (admission_cover _ _ _ _ Hi Hl Hs).
  apply incumbent_Some in Hi as [_ Ho].
  by rewrite (stopJob_unstarted _ _ _ Ho Hc).
Qed.

(** ** The kill endpoint *)

Lemma kill_absent s param :
  jobs s !! KillParam.JobID param = None →
  kill (Body param) s = Ret NewSuccResponse s.
Proof. intros Hj. unfold kill. unfold_M. by rewrite Hj. Qed.

Lemma kill_started s param j o :
  incumbent s (KillParam.JobID param) = Some (j, o) →
  Job.ctx o ≠ NoContext →
  kill (Body param) s = Ret NewSuccResponse (stopped j o s).
Proof.
  intros [Hj Ho]%incumbent_Some Hc.
  unfold kill, getJob, get, mbind, M_bind, mret, M_ret. rewrite Hj.
  by rewrite (stopJob_started _ _ _ Ho Hc).
Qed.

Lemma kill_unstarted s param j o :
  incumbent s (KillParam.JobID param) = Some (j, o) →
  Job.ctx o = NoContext →
  kill (Body param) s = Panic s.
Proof.
  intros [Hj Ho]%incumbent_Some Hc.
  unfold kill, getJob, get, mbind, M_bind, mret, M_ret. rewrite Hj.
  by rewrite (stopJob_unstarted _ _ _ Ho Hc).
Qed.

(** Whatever the table holds, a decoded kill request is never answered with
    a failure. *)
Lemma kill_never_fails s param res s' :
  kill (Body param) s = Ret res s' → res = NewSuccResponse.
Proof.
  unfold kill, getJob, get, mbind, M_bind, mret, M_ret.
  destruct (jobs s !! KillParam.JobID param) as [j|]; [|congruence].
  destruct (stopJob j s); congruence.
Qed.

(** C4: the state [s_inserted] is reached by the executor when the runJob
    goroutine of job 1 (log id 1) has just put the Job in the table and [Run]
    has not yet assigned [j.cancel].  A COVER_EARLY trigger for job 1 with log
    id 2 and a registered handler then finds the incumbent, calls [stopJob],
    and panics in [job.Stop()]: no success is returned, the incumbent stays
    in the table and no new Job is made. *)
Theorem TriggerJob_cover_early_panics :
  reachable s_inserted
  ∧ (∃ o, incumbent s_inserted 1 = Some (0%nat, o) ∧ Job.LogID o = 1
          ∧ Job.ctx o = NoContext)
  ∧ registered s_inserted "demoJobHandler"
  ∧ TriggerJob (demo_run 1 "demoJobHandler" CoverEarly 2) s_inserted
    = Panic s_inserted.
Proof.
  split; [apply s_inserted_reachable|]. split; [|split].
  - eexists. vm_compute. done.
  - exists 0%nat. vm_compute. done.
  - eapply TriggerJob_cover_early_unstarted; [done| |..].
    + vm_compute. reflexivity.
    + vm_compute. discriminate.
    + reflexivity.
Qed.

(** C10: in the same state, the COVER_EARLY trigger that names no registered
    handler panics too, in [stopJob], before the handler is looked up: it
    returns no "job handler not found" and the incumbent is still in the
    table. *)
Theorem TriggerJob_cover_early_missing_panics :
  reachable s_inserted
  ∧ (∃ o, incumbent s_inserted 1 = Some (0%nat, o) ∧ Job.LogID o = 1
          ∧ Job.ctx o = NoContext)
  ∧ ¬ registered s_inserted "unexistingHandler"
  ∧ TriggerJob (demo_run 1 "unexistingHandler" CoverEarly 2) s_inserted
    = Panic s_inserted.
Proof.
  split; [apply s_inserted_reachable|]. split; [|split].
  - eexists. vm_compute. done.
  - intros [f Hf]. vm_compute in Hf. discriminate.
  - eapply TriggerJob_cover_early_unstarted; [done| |..].
    + vm_compute. reflexivity.
    + vm_compute. discriminate.
    + reflexivity.
Qed.

(** C7: in the same state, [kill] for job 1 panics in [job.Stop()]: the
    server drops the connection, no Response is written, and the Job is
    still in the table. *)
Theorem kill_panics :
  reachable s_inserted
  ∧ jobs s_inserted !! 1 = Some 0%nat
  ∧ serve (kill (Body (KillParam.mk 1))) s_inserted = (None, s_inserted).
Proof.
  split; [apply s_inserted_reachable|]. split.
  - vm_compute. reflexivity.
  - unfold serve. erewrite kill_unstarted; [done| |].
    + vm_compute. reflexivity.
    + reflexivity.
Qed.

(** ** Schedules *)

Lemma exec_app sched1 sched2 s :
  exec (sched1 ++ sched2) s
  = match exec sched1 s with
    | Some (evs1, s1) =>
        match exec sched2 s1 with
        | Some (evs2, s2) => Some ((evs1 ++ evs2)%list, s2)
        | None => None
        end
    | None => None
    end.
Proof.
  revert s. induction sched1 as [|a sched1 IH]; intros s; simpl.
  - by destruct (exec sched2 s) as [[??]|].
  - destruct (step a s) as [[ev s']|]; [|done]. rewrite IH.
    destruct (exec sched1 s') as [[evs1 s1]|]; [|done].
    by destruct (exec sched2 s1) as [[evs2 s2]|].
Qed.


(** A property of the events so far and the state, kept by every step, holds
    along every run. *)
Lemma exec_invariant (P : list event → state → Prop) :
  (∀ evs s a ev s', P evs s → step a s = Some (ev, s') → P (evs ++ [ev])%list s') →
  ∀ sched pre s0 evs s,
    P pre s0 → exec sched s0 = Some (evs, s) → P (pre ++ evs)%list s.
Proof.
  intros Hstep. induction sched as [|a sched IH]; intros pre s0 evs s HP H.
  - injection H as <- <-. by rewrite app_nil_r.
  - simpl in H. destruct (step a s0) as [[ev s']|] eqn:Hs; [|done].
    destruct (exec sched s') as [[evs' s'']|] eqn:He; [|done].
    injection H as <- <-.
    replace (pre ++ ev :: evs')%list with ((pre ++ [ev]) ++ evs')%list
      by (by rewrite <- app_assoc).
    eapply IH; [|done]. by eapply Hstep.
Qed.

(** ** What a run says about one job *)

(** The outcomes of the handler of [k], the callbacks its watcher has put in
    the queue, and whether its runJob has seen the table free, has put the
    Job in the table, or its watcher has deleted the entry. *)
Definition outcomes (k : ptr) (evs : list event) : list error :=
  omap (λ ev, match ev with
              | Handled j err => if decide (j = k) then Some err else None
              | _ => None
              end) evs.

Definition callbacks (k : ptr) (evs : list event) : list CallbackParam.t :=
  omap (λ ev, match ev with
              | Enqueued j cb => if decide (j = k) then Some cb else None
              | _ => None
              end) evs.

Definition saw_free (k : ptr) (evs : list event) : Prop :=
  Polled k None ∈ evs.

Definition inserted (k : ptr) (evs : list event) : Prop :=
  ∃ old, Inserted k old ∈ evs.

Definition deleted (k : ptr) (evs : list event) : Prop :=
  ∃ old, Deleted k old ∈ evs.

(** The event says nothing of the above about [k]. *)
Definition silent_for (k : ptr) (ev : event) : Prop :=
  match ev with
  | Polled j None | Inserted j _ | Handled j _ | Deleted j _ | Enqueued j _ =>
      j ≠ k
  | _ => True
  end.

Lemma outcomes_snoc k evs ev :
  outcomes k (evs ++ [ev]) = (outcomes k evs ++ outcomes k [ev])%list.
Proof. apply omap_app. Qed.

Lemma callbacks_snoc k evs ev :
  callbacks k (evs ++ [ev]) = (callbacks k evs ++ callbacks k [ev])%list.
Proof. apply omap_app. Qed.

Lemma outcomes_silent k evs ev :
  silent_for k ev → outcomes k (evs ++ [ev]) = outcomes k evs.
Proof.
  intros H. rewrite outcomes_snoc.
  destruct ev; simpl in *; try by rewrite app_nil_r.
  rewrite decide_False by done. by rewrite app_nil_r.
Qed.

Lemma callbacks_silent k evs ev :
  silent_for k ev → callbacks k (evs ++ [ev]) = callbacks k evs.
Proof.
  intros H. rewrite callbacks_snoc.
  destruct ev; simpl in *; try by rewrite app_nil_r.
  rewrite decide_False by done. by rewrite app_nil_r.
Qed.

Lemma saw_free_snoc k evs ev :
  saw_free k (evs ++ [ev]) ↔ saw_free k evs ∨ ev = Polled k None.
Proof.
  unfold saw_free. rewrite elem_of_app, list_elem_of_singleton. naive_solver.
Qed.

Lemma inserted_snoc k evs ev :
  inserted k (evs ++ [ev]) ↔ inserted k evs ∨ ∃ old, ev = Inserted k old.
Proof.
  unfold inserted. setoid_rewrite elem_of_app.
  setoid_rewrite list_elem_of_singleton. naive_solver.
Qed.

Lemma deleted_snoc k evs ev :
  deleted k (evs ++ [ev]) ↔ deleted k evs ∨ ∃ old, ev = Deleted k old.
Proof.
  unfold deleted. setoid_rewrite elem_of_app.
  setoid_rewrite list_elem_of_singleton. naive_solver.
Qed.

Lemma inserted_silent k evs ev :
  silent_for k ev → inserted k (evs ++ [ev]) ↔ inserted k evs.
Proof.
  intros H. rewrite inserted_snoc. split; [|tauto].
  intros [?|[old ->]]; [done|]. by simpl in H.
Qed.

Lemma saw_free_mono k evs ev : saw_free k evs → saw_free k (evs ++ [ev]).
Proof. rewrite saw_free_snoc. tauto. Qed.

Lemma inserted_mono k evs ev : inserted k evs → inserted k (evs ++ [ev]).
Proof. rewrite inserted_snoc. tauto. Qed.

Lemma deleted_mono k evs ev : deleted k evs → deleted k (evs ++ [ev]).
Proof. rewrite deleted_snoc. tauto. Qed.

(** The callback [cb] reports the outcome [err] of the Job [o]. *)
Definition reports (cb : CallbackParam.t) (o : Job.t) (err : error) : Prop :=
  CallbackParam.LogID cb = Job.LogID o
  ∧ match err with
    | None => CallbackParam.HandleCode cb = 200
              ∧ CallbackParam.HandleMsg cb = "OK"
    | Some msg => CallbackParam.HandleCode cb = 500
                  ∧ CallbackParam.HandleMsg cb = msg
    end.

Lemma callbackOf_reports o err t : reports (callbackOf o err t) o err.
Proof. by destruct err. Qed.

(** [runJob] has put the Job in the table. *)
Definition past_addJob (pc : runJob_pc) : Prop :=
  match pc with
  | AtGetJob | AtSleep _ | AtAddJob => False
  | AtRun | InHandle | AtSendDone _ | RunReturned => True
  end.

(** Nothing has come out of the handler yet. *)
Definition quiet (k : ptr) (evs : list event) (o : Job.t) (w : watch_pc) : Prop :=
  outcomes k evs = [] ∧ callbacks k evs = [] ∧ Job.done o = [] ∧ w = AtRecvDone.

(** Where the two goroutines of the Job [k] stand, against what the run has
    shown of them. *)
Definition life (k : ptr) (evs : list event) (o : Job.t)
    (r : runJob_pc) (w : watch_pc) : Prop :=
  match r with
  | AtGetJob | AtSleep _ => ¬ inserted k evs ∧ quiet k evs o w
  | AtAddJob => saw_free k evs ∧ ¬ inserted k evs ∧ quiet k evs o w
  | AtRun | InHandle => saw_free k evs ∧ inserted k evs ∧ quiet k evs o w
  | AtSendDone err =>
      saw_free k evs ∧ inserted k evs ∧ outcomes k evs = [err]
      ∧ callbacks k evs = [] ∧ Job.done o = [] ∧ w = AtRecvDone
  | RunReturned =>
      saw_free k evs ∧ inserted k evs ∧
      ∃ err, outcomes k evs = [err] ∧
        match w with
        | AtRecvDone => Job.done o = [err] ∧ callbacks k evs = []
        | AtDelete e => e = err ∧ Job.done o = [] ∧ callbacks k evs = []
        | AtSendCallback cb =>
            Job.done o = [] ∧ callbacks k evs = [] ∧ deleted k evs
            ∧ reports cb o err
        | WatchReturned =>
            Job.done o = [] ∧ deleted k evs
            ∧ ∃ cb, callbacks k evs = [cb] ∧ reports cb o err
        end
  end.

(** The Job [k]: not allocated yet, with no goroutine and no event; or
    allocated, with both its goroutines. *)
Definition job_inv (evs : list event) (s : state) (k : ptr) : Prop :=
  match heap s !! k with
  | None =>
      (next s ≤ k)%nat ∧ runners s !! k = None ∧ watchers s !! k = None
      ∧ ¬ inserted k evs ∧ outcomes k evs = [] ∧ callbacks k evs = []
  | Some o =>
      (k < next s)%nat
      ∧ ∃ r w, runners s !! k = Some r ∧ watchers s !! k = Some w
               ∧ life k evs o r w
  end.

(** Every table entry is a Job with that id whose runJob has put it there. *)
Definition table_inv (s : state) : Prop :=
  ∀ id k, jobs s !! id = Some k →
    ∃ o r, heap s !! k = Some o ∧ Job.ID o = id
           ∧ runners s !! k = Some r ∧ past_addJob r.

Definition Inv (evs : list event) (s : state) : Prop :=
  (∀ k, job_inv evs s k) ∧ table_inv s.

Lemma Inv_init size t0 : Inv [] (NewExecutor size t0).
Proof.
  split.
  - intros k. unfold job_inv. simpl. rewrite lookup_empty.
    repeat split; try done; try lia. by intros [old H%elem_of_nil].
  - intros id k H. simpl in H. by rewrite lookup_empty in H.
Qed.

(** ** The invariant is kept *)

(** Two runs show the same of [k], up to what can only be gained. *)
Definition same_view (k : ptr) (evs evs' : list event) : Prop :=
  outcomes k evs' = outcomes k evs
  ∧ callbacks k evs' = callbacks k evs
  ∧ (inserted k evs' ↔ inserted k evs)
  ∧ (saw_free k evs → saw_free k evs')
  ∧ (deleted k evs → deleted k evs').

Lemma same_view_refl k evs : same_view k evs evs.
Proof. by repeat split. Qed.

Lemma same_view_silent k evs ev :
  silent_for k ev → same_view k evs (evs ++ [ev]).
Proof.
  intros H. repeat split.
  - by apply outcomes_silent.
  - by apply callbacks_silent.
  - by apply inserted_silent.
  - by apply inserted_silent.
  - apply saw_free_mono.
  - apply deleted_mono.
Qed.

Lemma reports_same cb o o' err :
  Job.LogID o' = Job.LogID o → reports cb o err → reports cb o' err.
Proof. unfold reports. by intros ->. Qed.

Lemma life_view k evs evs' o o' r w :
  same_view k evs evs' →
  Job.LogID o' = Job.LogID o → Job.done o' = Job.done o →
  life k evs o r w → life k evs' o' r w.
Proof.
  intros (Ho & Hc & Hi & Hf & Hd) Hl Hdone.
  unfold life, quiet. destruct r; rewrite ?Ho, ?Hc, ?Hdone; try tauto.
  intros (? & ? & err & ? & Hw). do 2 (split; [tauto|]). exists err.
  split; [done|].
  destruct w; rewrite ?Ho, ?Hc, ?Hdone; try tauto.
  - destruct Hw as (? & ? & ? & ?). eauto 6 using reports_same.
  - destruct Hw as (? & ? & cb & ? & ?). eauto 8 using reports_same.
Qed.

(** A step that changes the Job [k] only, and the table at most by entries
    of [k]. *)
Lemma Inv_update k evs evs' s s' :
  Inv evs s →
  next s' = next s →
  (∀ k', k' ≠ k →
     same_view k' evs evs' ∧ heap s' !! k' = heap s !! k'
     ∧ runners s' !! k' = runners s !! k'
     ∧ watchers s' !! k' = watchers s !! k') →
  job_inv evs' s' k →
  (∀ id j, jobs s' !! id = Some j →
     (j ≠ k ∧ jobs s !! id = Some j)
     ∨ (j = k ∧ ∃ o r, heap s' !! k = Some o ∧ Job.ID o = id
                       ∧ runners s' !! k = Some r ∧ past_addJob r)) →
  Inv evs' s'.
Proof.
  intros [Hjobs Htab] Hn Hframe Hk Ht. split.
  - intros k'. destruct (decide (k' = k)) as [->|Hne]; [done|].
    destruct (Hframe k' Hne) as (Hv & Hh & Hr & Hw).
    specialize (Hjobs k'). unfold job_inv in *. rewrite Hh, Hr, Hw, Hn.
    destruct (heap s !! k') as [o|].
    + destruct Hjobs as (? & r & w & ? & ? & ?). split; [done|].
      exists r, w. do 2 (split; [done|]).
      by eapply life_view; [exact Hv|..].
    + destruct Hv as (Ho & Hc & Hi & _). rewrite Ho, Hc, Hi. done.
  - intros id j Hj. destruct (Ht id j Hj) as [[Hne Hold]|[-> H]]; [|done].
    destruct (Htab id j Hold) as (o & r & ? & ? & ? & ?).
    destruct (Hframe j Hne) as (_ & Hh & Hr & _).
    exists o, r. by rewrite Hh, Hr.
Qed.

Lemma Inv_event evs s ev :
  Inv evs s → (∀ k, silent_for k ev) → Inv (evs ++ [ev]) s.
Proof.
  intros [Hjobs Htab] Hs. split; [|done].
  intros k. specialize (Hjobs k). unfold job_inv in *.
  pose proof (same_view_silent k evs ev (Hs k)) as Hv.
  destruct (heap s !! k) as [o|].
  - destruct Hjobs as (? & r & w & ? & ? & ?). split; [done|].
    exists r, w. do 2 (split; [done|]).
    by eapply life_view; [exact Hv|..].
  - destruct Hv as (Ho & Hc & Hi & _). by rewrite Ho, Hc, Hi.
Qed.

(** A change of the Job [j] that keeps its id, its log id and its [done],
    together with any deletion from the table. *)
Lemma Inv_touch evs s j o o' (f : gmap Z nat → gmap Z nat) :
  Inv evs s →
  heap s !! j = Some o →
  Job.ID o' = Job.ID o → Job.LogID o' = Job.LogID o →
  Job.done o' = Job.done o →
  (∀ id k, f (jobs s) !! id = Some k → jobs s !! id = Some k) →
  Inv evs (set_jobs f (set_heap <[j := o']> s)).
Proof.
  intros HI Hh Hid Hl Hd Hf.
  assert (Hj := proj1 HI j). unfold job_inv in Hj. rewrite Hh in Hj.
  destruct Hj as (Hlt & r & w & Hr & Hw & Hlife).
  apply (Inv_update j evs evs s); [done|done|..].
  - intros k' Hne. split; [apply same_view_refl|]. simpl.
    by rewrite lookup_insert_ne.
  - unfold job_inv. simpl. rewrite lookup_insert_eq. split; [done|].
    exists r, w. do 2 (split; [done|]).
    by eapply life_view; [apply same_view_refl|..].
  - intros id k Hk. simpl in Hk. apply Hf in Hk.
    destruct (decide (k = j)) as [->|Hne]; [right|by left].
    split; [done|].
    destruct (proj2 HI id j Hk) as (o1 & r1 & Ho1 & ? & Hr1 & ?).
    simpl. rewrite lookup_insert_eq. exists o', r1.
    assert (o1 = o) as -> by congruence. repeat split; congruence.
Qed.

Lemma Inv_stopped evs s j o :
  Inv evs s → heap s !! j = Some o → Inv evs (stopped j o s).
Proof.
  intros HI Hh. unfold stopped.
  apply (Inv_touch evs s j o); try done.
  intros id k Hk. apply lookup_delete_Some in Hk. tauto.
Qed.

Lemma Inv_scheduled evs s params h :
  Inv evs s → Inv evs (scheduled params h s).
Proof.
  intros [Hjobs Htab]. split.
  - intros k. specialize (Hjobs k) as Hk. unfold job_inv in *. simpl.
    destruct (decide (k = next s)) as [->|Hne].
    + rewrite !lookup_insert_eq. specialize (Hjobs (next s)).
      unfold job_inv in Hjobs.
      destruct (heap s !! next s) as [o|]; [lia|].
      destruct Hjobs as (_ & _ & _ & Hi & Ho & Hc).
      split; [lia|]. exists AtGetJob, AtRecvDone. by repeat split.
    + rewrite !lookup_insert_ne by done.
      destruct (heap s !! k) as [o|]; [|].
      * destruct Hk as (? & Hk). split; [lia|done].
      * destruct Hk as (? & Hk). split; [lia|done].
  - intros id k Hk. simpl in Hk.
    destruct (Htab id k Hk) as (o & r & Ho & ? & Hr & ?).
    assert (k ≠ next s).
    { intros ->. specialize (Hjobs (next s)). unfold job_inv in Hjobs.
      rewrite Ho in Hjobs. lia. }
    exists o, r. simpl. by rewrite !lookup_insert_ne.
Qed.

Lemma Inv_other evs s s' :
  Inv evs s →
  heap s' = heap s → next s' = next s → runners s' = runners s →
  watchers s' = watchers s → jobs s' = jobs s →
  Inv evs s'.
Proof.
  intros [Hjobs Htab] Hh Hn Hr Hw Hj. split.
  - intros k. specialize (Hjobs k). unfold job_inv in *.
    by rewrite Hh, Hn, Hr, Hw.
  - unfold table_inv. by rewrite Hj, Hh, Hr.
Qed.

Lemma stopJob_panic s j s1 : stopJob j s = Panic s1 → s1 = s.
Proof.
  destruct (heap s !! j) as [o|] eqn:Ho.
  - destruct (Job.ctx o) eqn:Hc.
    + rewrite (stopJob_unstarted _ _ _ Ho Hc). congruence.
    + by rewrite (stopJob_started _ _ o Ho) by congruence.
    + by rewrite (stopJob_started _ _ o Ho) by congruence.
  - unfold stopJob, Stop, load, mbind, M_bind. rewrite Ho. congruence.
Qed.

Lemma admission_panic params s s1 : admission params s = Panic s1 → s1 = s.
Proof.
  unfold admission, getJob, load, get, mbind, M_bind, mret, M_ret. cbv beta.
  destruct (jobs s !! RunParam.JobID params) as [j|] eqn:Hj.
  - destruct (heap s !! j) as [o|] eqn:Ho; [|congruence].
    destruct (Job.LogID o =? RunParam.LogID params)%Z; [done|].
    destruct (RunParam.ExecutorBlockStrategy params =? DiscardLater)%string;
      [done|].
    destruct (RunParam.ExecutorBlockStrategy params =? CoverEarly)%string;
      [|done].
    destruct (stopJob j s) eqn:E; [done|].
    intros [= <-]. by apply stopJob_panic in E.
  - by repeat case_match.
Qed.

(** All that [TriggerJob] can do to the state. *)
Lemma TriggerJob_cases params s :
  match TriggerJob params s with
  | Ret _ s2 =>
      ∃ s1, (s1 = s ∨ ∃ j o, heap s !! j = Some o ∧ Job.ctx o ≠ NoContext ∧ s1 = stopped j o s)
            ∧ (s2 = s1 ∨ ∃ h, s2 = scheduled params h s1)
  | Panic s2 => s2 = s
  end.
Proof.
  unfold TriggerJob, mbind, M_bind.
  destruct (admission params s) as [[msg|] s1|s1] eqn:Ha.
  - exists s1. split; [|by left].
    destruct (admission_frame _ _ _ _ Ha) as [->|(j & o & Hi & ? & _ & ->)];
      [by left|right].
    apply incumbent_Some in Hi as [_ Ho]. eauto.
  - assert (s1 = s ∨ ∃ j o, heap s !! j = Some o ∧ Job.ctx o ≠ NoContext ∧ s1 = stopped j o s) as H1.
    { destruct (admission_frame _ _ _ _ Ha) as [->|(j & o & Hi & ? & _ & ->)];
        [by left|right].
      apply incumbent_Some in Hi as [_ Ho]. eauto. }
    destruct (handlers s1 !! RunParam.ExecutorHandler params) as [[|f]|] eqn:Hh.
    + rewrite (newJob_missing params s1);
        [exists s1; split; [done|by left]|].
      intros [f Hf]. congruence.
    + rewrite (newJob_found _ _ _ Hh). exists s1. split; [done|right].
      by exists (Func f).
    + rewrite (newJob_missing params s1);
        [exists s1; split; [done|by left]|].
      intros [f Hf]. congruence.
  - by apply (admission_panic params).
Qed.

Lemma kill_cases body s :
  match kill body s with
  | Ret _ s1 => s1 = s ∨ ∃ j o, heap s !! j = Some o ∧ Job.ctx o ≠ NoContext ∧ s1 = stopped j o s
  | Panic s1 => s1 = s
  end.
Proof.
  destruct body as [param|err]; [|by left].
  unfold kill, getJob, get, mbind, M_bind, mret, M_ret.
  destruct (jobs s !! KillParam.JobID param) as [j|]; [|by left].
  destruct (heap s !! j) as [o|] eqn:Ho.
  - destruct (Job.ctx o) eqn:Hc.
    + by rewrite (stopJob_unstarted _ _ _ Ho Hc).
    + rewrite (stopJob_started _ _ o Ho) by congruence. right.
      exists j, o. by rewrite Hc.
    + rewrite (stopJob_started _ _ o Ho) by congruence. right.
      exists j, o. by rewrite Hc.
  - unfold stopJob, Stop, load, mbind, M_bind. by rewrite Ho.
Qed.

(** What an endpoint can do to the state: it stops at most one Job and
    schedules at most one. *)
Definition http_effect (s s' : state) : Prop :=
  ∃ s1, (s1 = s ∨ ∃ j o, heap s !! j = Some o ∧ Job.ctx o ≠ NoContext ∧ s1 = stopped j o s)
        ∧ (s' = s1 ∨ ∃ params h, s' = scheduled params h s1).

Definition is_http (a : action) : Prop :=
  match a with
  | Http_beat | Http_idleBeat _ | Http_run _ | Http_kill _ | Http_log _ => True
  | _ => False
  end.

Global Instance is_http_dec a : Decision (is_http a).
Proof. destruct a; simpl; apply _. Defined.

Lemma http_effect_refl s : http_effect s s.
Proof. exists s. split; by left. Qed.

Lemma step_http a s ev s' :
  is_http a → step a s = Some (ev, s') →
  (∃ res, ev = Replied res) ∧ http_effect s s'.
Proof.
  intros Ha Hs. destruct a; try done; simpl in Hs; unfold served, serve in Hs.
  - (* beat *)
    injection Hs as <- <-. split; [eauto|apply http_effect_refl].
  - (* idleBeat *)
    destruct body as [param|err]; simpl in Hs;
      unfold getJob, get, mbind, M_bind, mret, M_ret in Hs;
      [destruct (jobs s !! _)|]; injection Hs as <- <-;
      (split; [eauto|apply http_effect_refl]).
  - (* run *)
    destruct body as [params|err]; simpl in Hs;
      [|injection Hs as <- <-; split; [eauto|apply http_effect_refl]].
    unfold mbind, M_bind, mret, M_ret in Hs.
    pose proof (TriggerJob_cases params s) as Hc.
    destruct (TriggerJob params s) as [[msg|] s2|s2]; injection Hs as <- <-;
      (split; [eauto|]); [| |subst; apply http_effect_refl];
      destruct Hc as (s1 & H1 & H2); exists s1; (split; [done|]);
      (destruct H2 as [->|[h ->]]; [by left|right; eauto]).
  - (* kill *)
    pose proof (kill_cases body s) as Hc.
    destruct (kill body s) as [r s2|s2]; injection Hs as <- <-;
      (split; [eauto|]); [|subst; apply http_effect_refl].
    exists s2. split; [done|by left].
  - (* log *)
    destruct body; simpl in Hs; injection Hs as <- <-;
      (split; [eauto|apply http_effect_refl]).
Qed.

Lemma Inv_http evs s s' :
  Inv evs s → http_effect s s' → Inv evs s'.
Proof.
  intros HI (s1 & H1 & H2).
  assert (Inv evs s1).
  { destruct H1 as [->|(j & o & Ho & _ & ->)]; [done|]. by apply Inv_stopped. }
  destruct H2 as [->|(params & h' & ->)]; [done|]. by apply Inv_scheduled.
Qed.

Lemma Inv_step evs s a ev s' :
  Inv evs s → step a s = Some (ev, s') → Inv (evs ++ [ev]) s'.
Proof.
  intros HI Hs.
  destruct (decide (is_http a)) as [Ha|Ha].
  { destruct (step_http _ _ _ _ Ha Hs) as [[res ->] He].
    apply Inv_event; [|done]. by eapply Inv_http. }
  destruct a; simpl in Ha; try tauto; clear Ha;
    simpl in Hs; unfold served, called in Hs.
  - (* runJob *)
    unfold runJob_step in Hs.
    destruct (runners s !! job) as [r|] eqn:Hr; [|done].
    destruct (heap s !! job) as [o|] eqn:Ho; [|done].
    pose proof (proj1 HI job) as Hj. unfold job_inv in Hj.
    rewrite Ho, Hr in Hj. destruct Hj as (Hlt & r0 & w & [= <-] & Hw & Hl).
    destruct r; simpl in Hl.
    + (* AtGetJob *)
      unfold getJob, get in Hs.
      destruct (jobs s !! Job.ID o) as [old|] eqn:Hold; injection Hs as <- <-.
      * apply (Inv_update job evs _ s); [done|done|..].
        -- intros k' Hne. split; [by apply same_view_silent|].
           simpl. by rewrite lookup_insert_ne.
        -- unfold job_inv. simpl. rewrite Ho, lookup_insert_eq, Hw.
           split; [done|]. exists (AtSleep (now s + Second)), w.
           do 2 (split; [done|]). simpl.
           eapply (life_view job evs _ o o AtGetJob w);
             [by apply same_view_silent|done|done|done].
        -- intros id j Hj. simpl in Hj.
           destruct (proj2 HI id j Hj) as (o1 & r1 & ? & ? & Hr1 & Hp).
           left. split; [|done]. intros ->.
           rewrite Hr in Hr1. by injection Hr1 as <-.
      * apply (Inv_update job evs _ s); [done|done|..].
        -- intros k' Hne. split; [by apply same_view_silent; simpl|].
           simpl. by rewrite lookup_insert_ne.
        -- unfold job_inv. simpl. rewrite Ho, lookup_insert_eq, Hw.
           split; [done|]. exists AtAddJob, w.
           do 2 (split; [done|]). simpl.
           destruct Hl as (Hni & Hq & Hc & Hd & ->).
           unfold quiet. rewrite inserted_snoc, outcomes_snoc, callbacks_snoc, saw_free_snoc.
           simpl. rewrite Hq, Hc. naive_solver.
        -- intros id j Hj. simpl in Hj.
           destruct (proj2 HI id j Hj) as (o1 & r1 & ? & ? & Hr1 & Hp).
           left. split; [|done]. intros ->.
           rewrite Hr in Hr1. by injection Hr1 as <-.
    + (* AtSleep *)
      destruct (wake <=? now s)%Z; [|done]. injection Hs as <- <-.
      apply (Inv_update job evs _ s); [done|done|..].
      * intros k' Hne. split; [by apply same_view_silent|].
        simpl. by rewrite lookup_insert_ne.
      * unfold job_inv. simpl. rewrite Ho, lookup_insert_eq, Hw.
        split; [done|]. exists AtGetJob, w. do 2 (split; [done|]).
        eapply (life_view job evs _ o o (AtSleep wake) w);
          [by apply same_view_silent|done|done|done].
      * intros id j Hj. simpl in Hj.
        destruct (proj2 HI id j Hj) as (o1 & r1 & ? & ? & Hr1 & Hp).
        left. split; [|done]. intros ->.
        rewrite Hr in Hr1. by injection Hr1 as <-.
    + (* AtAddJob *)
      unfold addJob, load, modify, mbind, M_bind in Hs. rewrite Ho in Hs.
      injection Hs as <- <-.
      apply (Inv_update job evs _ s); [done|done|..].
      * intros k' Hne. split; [by apply same_view_silent; simpl|].
        simpl. by rewrite lookup_insert_ne.
      * unfold job_inv. simpl. rewrite Ho, lookup_insert_eq, Hw.
        split; [done|]. exists AtRun, w. do 2 (split; [done|]). simpl.
        destruct Hl as (Hf & Hni & Hq & Hc & Hd & ->).
        unfold quiet. rewrite inserted_snoc, outcomes_snoc, callbacks_snoc, saw_free_snoc.
        simpl. rewrite Hq, Hc. naive_solver.
      * intros id j Hj. simpl in Hj.
        destruct (decide (id = Job.ID o)) as [->|Hne].
        -- rewrite lookup_insert_eq in Hj. injection Hj as <-. right.
           split; [done|]. exists o, AtRun. simpl.
           by rewrite Ho, lookup_insert_eq.
        -- rewrite lookup_insert_ne in Hj by done.
           destruct (proj2 HI id j Hj) as (o1 & r1 & ? & ? & Hr1 & Hp).
           left. split; [|done]. intros ->.
           rewrite Hr in Hr1. by injection Hr1 as <-.
    + (* AtRun *)
      injection Hs as <- <-.
      apply (Inv_update job evs _ s); [done|done|..].
      * intros k' Hne. split; [by apply same_view_silent|].
        simpl. by rewrite !lookup_insert_ne.
      * unfold job_inv. simpl. rewrite !lookup_insert_eq, Hw.
        split; [done|]. exists InHandle, w. do 2 (split; [done|]).
        eapply (life_view job evs _ o _ AtRun w);
          [by apply same_view_silent|done|done|done].
      * intros id j Hj. simpl in Hj.
        destruct (proj2 HI id j Hj) as (o1 & r1 & Ho1 & ? & Hr1 & Hp).
        destruct (decide (j = job)) as [->|Hne]; [right|by left].
        split; [done|]. simpl. rewrite !lookup_insert_eq.
        eexists _, InHandle. repeat split; try done. simpl. congruence.
    + done.
    + (* AtSendDone *)
      destruct Hl as (Hf & Hi & Hout & Hc & Hd & ->).
      rewrite Hd in Hs. simpl in Hs. injection Hs as <- <-.
      apply (Inv_update job evs _ s); [done|done|..].
      * intros k' Hne. split; [by apply same_view_silent|].
        simpl. by rewrite !lookup_insert_ne.
      * unfold job_inv. simpl. rewrite !lookup_insert_eq, Hw.
        split; [done|]. exists RunReturned, AtRecvDone.
        do 2 (split; [done|]). simpl.
        split; [by apply saw_free_mono|]. split; [by apply inserted_mono|].
        exists err. rewrite outcomes_snoc, callbacks_snoc. simpl.
        rewrite Hout, Hc. done.
      * intros id j Hj. simpl in Hj.
        destruct (proj2 HI id j Hj) as (o1 & r1 & Ho1 & ? & Hr1 & Hp).
        destruct (decide (j = job)) as [->|Hne]; [right|by left].
        split; [done|]. simpl. rewrite !lookup_insert_eq.
        eexists _, RunReturned. repeat split; try done. simpl. congruence.
    + done.
  - (* the handler returns *)
    unfold handler_returns in Hs.
    destruct (runners s !! job) as [r|] eqn:Hr; [|done].
    destruct r; try done. injection Hs as <- <-.
    pose proof (proj1 HI job) as Hj. unfold job_inv in Hj.
    destruct (heap s !! job) as [o|] eqn:Ho;
      [|destruct Hj as (_ & ? & _); congruence].
    rewrite Hr in Hj. destruct Hj as (Hlt & r0 & w & [= <-] & Hw & Hl).
    apply (Inv_update job evs _ s); [done|done|..].
    + intros k' Hne. split; [by apply same_view_silent; simpl|].
      simpl. by rewrite !lookup_insert_ne.
    + unfold job_inv. simpl. rewrite Ho, lookup_insert_eq, Hw.
      split; [done|]. exists (AtSendDone err), w. do 2 (split; [done|]).
      simpl in *. destruct Hl as (Hf & Hi & Hq & Hc & Hd & ->).
      rewrite inserted_snoc, outcomes_snoc, callbacks_snoc, saw_free_snoc.
      simpl. rewrite decide_True by done. rewrite Hq, Hc. naive_solver.
    + intros id j Hj. simpl in Hj.
      destruct (proj2 HI id j Hj) as (o1 & r1 & Ho1 & ? & Hr1 & Hp).
      destruct (decide (j = job)) as [->|Hne]; [right|by left].
      split; [done|]. simpl. rewrite !lookup_insert_eq.
      eexists _, (AtSendDone err). repeat split; try done.
  - (* watch *)
    unfold watch_step in Hs.
    destruct (watchers s !! job) as [w|] eqn:Hw; [|done].
    destruct (heap s !! job) as [o|] eqn:Ho; [|done].
    pose proof (proj1 HI job) as Hj. unfold job_inv in Hj.
    rewrite Ho, Hw in Hj. destruct Hj as (Hlt & r & w0 & Hr & [= <-] & Hl).
    assert (Htab : ∀ s1 id j,
      heap s1 !! job = Some (Job.set_EndTime (now s) (Job.set_done [] o))
        ∨ heap s1 !! job = Some o →
      runners s1 = runners s →
      (jobs s1 !! id = Some j → jobs s !! id = Some j) →
      jobs s1 !! id = Some j →
      (j ≠ job ∧ jobs s !! id = Some j)
      ∨ (j = job ∧ ∃ o r, heap s1 !! job = Some o ∧ Job.ID o = id
                          ∧ runners s1 !! job = Some r ∧ past_addJob r)).
    { intros s1 id j Hh1 Hr1 Hsub Hj. apply Hsub in Hj.
      destruct (decide (j = job)) as [->|Hne]; [right|by left].
      split; [done|].
      destruct (proj2 HI id job Hj) as (o1 & r1 & Ho1 & ? & Hr1' & Hp).
      assert (o1 = o) as -> by congruence.
      destruct Hh1 as [->| ->]; eexists _, r1; rewrite Hr1; done. }
    destruct w.
    + (* AtRecvDone *)
      destruct (Job.done o) as [|err rest] eqn:Hd; [done|].
      injection Hs as <- <-.
      destruct r; simpl in Hl; unfold quiet in Hl;
        try (rewrite Hd in Hl; naive_solver).
      destruct Hl as (Hf & Hi & err' & Hout & Hd' & Hc).
      rewrite Hd in Hd'. injection Hd' as -> ->.
      apply (Inv_update job evs _ s); [done|done|..].
      * intros k' Hne. split; [by apply same_view_silent|].
        simpl. by rewrite !lookup_insert_ne.
      * unfold job_inv. simpl. rewrite !lookup_insert_eq, Hr.
        split; [done|]. exists RunReturned, (AtDelete err').
        do 2 (split; [done|]). simpl.
        split; [by apply saw_free_mono|]. split; [by apply inserted_mono|].
        exists err'. rewrite outcomes_snoc, callbacks_snoc. simpl.
        rewrite Hout, Hc. done.
      * intros id j. apply Htab; simpl; try done.
        left. by rewrite lookup_insert_eq.
    + (* AtDelete *)
      injection Hs as <- <-.
      destruct r; simpl in Hl; unfold quiet in Hl; try naive_solver.
      destruct Hl as (Hf & Hi & err' & Hout & -> & Hd & Hc).
      apply (Inv_update job evs _ s); [done|done|..].
      * intros k' Hne. split; [by apply same_view_silent; simpl|].
        simpl. by rewrite !lookup_insert_ne.
      * unfold job_inv. simpl. rewrite Ho, !lookup_insert_eq, Hr.
        split; [done|].
        exists RunReturned, (AtSendCallback (callbackOf o err' (now s))).
        do 2 (split; [done|]). simpl.
        split; [by apply saw_free_mono|]. split; [by apply inserted_mono|].
        exists err'. rewrite outcomes_snoc, callbacks_snoc, deleted_snoc. simpl.
        rewrite Hout, Hc. do 3 (split; [done|]).
        split; [right; eauto|apply callbackOf_reports].
      * intros id j. apply Htab; simpl; try done; [by right|].
        intros H. apply lookup_delete_Some in H. tauto.
    + (* AtSendCallback *)
      destruct (length (callbackChan s) <? CallbackBufferSize s)%nat; [|done].
      injection Hs as <- <-.
      destruct r; simpl in Hl; unfold quiet in Hl; try naive_solver.
      destruct Hl as (Hf & Hi & err' & Hout & Hd & Hc & Hdel & Hrep).
      apply (Inv_update job evs _ s); [done|done|..].
      * intros k' Hne. split; [by apply same_view_silent; simpl|].
        simpl. by rewrite !lookup_insert_ne.
      * unfold job_inv. simpl. rewrite Ho, !lookup_insert_eq, Hr.
        split; [done|]. exists RunReturned, WatchReturned.
        do 2 (split; [done|]). simpl.
        split; [by apply saw_free_mono|]. split; [by apply inserted_mono|].
        exists err'. rewrite outcomes_snoc, callbacks_snoc. simpl.
        rewrite decide_True by done. rewrite Hout, Hc.
        do 2 (split; [done|]). split; [by apply deleted_mono|]. by exists cb.
      * intros id j. apply Htab; simpl; try done. by right.
    + done.
  - (* notifier *)
    unfold notifyResult in Hs.
    destruct (callbackChan s); injection Hs as <- <-.
    + by apply Inv_event.
    + apply Inv_event; [|done]. by eapply Inv_other.
  - (* a context expires *)
    unfold expire in Hs.
    destruct (heap s !! job) as [o|] eqn:Ho; [|done].
    destruct (Job.ctx o) as [|[d|]|]; try done.
    destruct (d <=? now s)%Z; [|done]. injection Hs as <- <-.
    apply Inv_event; [|done].
    apply (Inv_other evs (set_jobs id (set_heap <[job := Job.set_ctx Cancelled o]> s)));
      try done.
    by apply (Inv_touch evs s job o).
  - (* time passes *)
    destruct (0 <=? d)%Z; [|done]. injection Hs as <- <-.
    apply Inv_event; [|done]. by eapply Inv_other.
  - (* AddJobHandler *)
    injection Hs as <- <-. apply Inv_event; [|done]. by eapply Inv_other.
  - (* RemoveJobHandler *)
    injection Hs as <- <-. apply Inv_event; [|done]. by eapply Inv_other.
Qed.

Lemma Inv_exec sched pre s0 evs s :
  Inv pre s0 → exec sched s0 = Some (evs, s) → Inv (pre ++ evs) s.
Proof. apply (exec_invariant Inv). intros. by eapply Inv_step. Qed.

Lemma Inv_reachable size t0 sched evs s :
  exec sched (NewExecutor size t0) = Some (evs, s) → Inv evs s.
Proof. intros H. by apply (Inv_exec sched [] _ _ _ (Inv_init size t0)). Qed.

(** ** Which step shows which event *)

Ltac invert_step Hs :=
  match type of Hs with
  | step ?a _ = _ =>
      destruct a; simpl in Hs;
      unfold served, called, serve, runJob_step, handler_returns, watch_step,
        notifyResult, expire, getJob, addJob, load, get, modify,
        AddJobHandler, RemoveJobHandler, mbind, M_bind, mret, M_ret in Hs;
      cbv beta in Hs; simpl in Hs;
      repeat (case_match; simplify_eq; try done); simplify_eq
  end.




Lemma step_Enqueued a s job cb s' :
  step a s = Some (Enqueued job cb, s') →
  watchers s !! job = Some (AtSendCallback cb)
  ∧ callbackChan s' = (callbackChan s ++ [cb])%list.
Proof. intros Hs. invert_step Hs. Qed.

Lemma step_Deleted a s job old s' :
  step a s = Some (Deleted job old, s') →
  ∃ o err, heap s !! job = Some o ∧ watchers s !! job = Some (AtDelete err)
           ∧ old = jobs s !! Job.ID o ∧ jobs s' = delete (Job.ID o) (jobs s).
Proof. intros Hs. invert_step Hs. eauto 10. Qed.

(** ** What a step can do to a Job and to the table *)



(** ** A Job enters the table once *)





(** ** The serial wait of [runJob] *)


(** The events a schedule shows. *)
Definition shown (sched : list action) (s : state) : list event :=
  match exec sched s with
  | Some (evs, _) => evs
  | None => []
  end.

Lemma exec_after_shown sched s :
  exec sched s ≠ None → exec sched s = Some (shown sched s, after sched s).
Proof. unfold shown, after. by destruct (exec sched s) as [[??]|]. Qed.


(** ** The stale watcher *)

(** Job 1 (log id 1) is running when [kill] stops it and deletes its entry;
    job 1 is triggered again (log id 2) and the new Job is put in the table
    and starts; then the handler of the first Job returns and its watcher
    has received the outcome. *)
Definition sched_stale : list action :=
  (sched_running ++
   [ Http_kill (Body (KillParam.mk 1));
     Http_run (Body (demo_run 1 "demoJobHandler" SerialExecution 2));
     Go_runJob 1%nat; Go_runJob 1%nat; Go_runJob 1%nat;
     Handle_returns 0%nat (Some "context canceled");
     Go_runJob 0%nat;
     Go_watch 0%nat ])%list.

Definition s_stale : state := after sched_stale (NewExecutor 1024 0).

(** The same with the first Job replaced by a COVER_EARLY trigger. *)
Definition sched_stale_cover : list action :=
  (sched_running ++
   [ Http_run (Body (demo_run 1 "demoJobHandler" CoverEarly 2));
     Go_runJob 1%nat; Go_runJob 1%nat; Go_runJob 1%nat;
     Handle_returns 0%nat (Some "context canceled");
     Go_runJob 0%nat;
     Go_watch 0%nat ])%list.

(** C8: when the watcher of a Job [old] whose handler has returned comes to
    its [e.jobs.Delete(job.ID)] and the entry of that id is another Job
    [new], whose handler is running, the entry is deleted all the same: the
    table no longer has the id, and [new] goes on running, out of the
    table. *)
Theorem stale_watch_evicts_successor s old new o err :
  watchers s !! old = Some (AtDelete err) →
  heap s !! old = Some o →
  jobs s !! Job.ID o = Some new →
  new ≠ old →
  runners s !! new = Some InHandle →
  ∃ s', watch_step old s = Some (Deleted old (Some new), s')
        ∧ jobs s' = delete (Job.ID o) (jobs s)
        ∧ jobs s' !! Job.ID o = None
        ∧ runners s' !! new = Some InHandle
        ∧ heap s' !! new = heap s !! new.
Proof.
  intros Hw Ho Hj Hne Hr. unfold watch_step. rewrite Hw, Ho, Hj.
  eexists. split; [done|]. simpl. by rewrite lookup_delete_eq.
Qed.

Lemma stale_watch_evicts_successor_witness :
  reachable s_stale
  ∧ jobs s_stale !! 1 = Some 1%nat
  ∧ ∃ s', watch_step 0%nat s_stale = Some (Deleted 0%nat (Some 1%nat), s')
          ∧ jobs s' !! 1 = None
          ∧ runners s' !! 1%nat = Some InHandle.
Proof.
  split; [|split].
  - exists 1024%nat, 0, sched_stale, (shown sched_stale (NewExecutor 1024 0)).
    apply exec_after_shown. by vm_compute.
  - vm_compute. reflexivity.
  - destruct (stale_watch_evicts_successor s_stale 0%nat 1%nat
      (Job.set_EndTime 0 (Job.set_ctx Cancelled
         (jobOf (demo_run 1 "demoJobHandler" SerialExecution 1) (Func 0))))
      (Some "context canceled"))
      as (s' & H1 & _ & H2 & H3 & _).
    + vm_compute. reflexivity.
    + vm_compute. reflexivity.
    + vm_compute. reflexivity.
    + discriminate.
    + vm_compute. reflexivity.
    + exists s'. split; [exact H1|]. split; [exact H2|exact H3].
Defined.

Example stale_watch_after_cover_early :
  let s := after sched_stale_cover (NewExecutor 1024 0) in
  jobs s !! 1 = Some 1%nat
  ∧ runners s !! 1%nat = Some InHandle
  ∧ option_map fst (watch_step 0%nat s) = Some (Deleted 0%nat (Some 1%nat))
  ∧ option_map (λ r, jobs (snd r) !! 1) (watch_step 0%nat s) = Some None.
Proof. vm_compute. done. Qed.

(** ** The completion watcher *)







(** Job 1 runs to its end: the handler returns nil and the watcher reports
    it. *)
Definition sched_reported : list action :=
  (sched_running ++
   [ Handle_returns 0%nat None;
     Go_runJob 0%nat;
     Go_watch 0%nat; Go_watch 0%nat; Go_watch 0%nat ])%list.


Example reported_ok :
  let s := after sched_reported (NewExecutor 1024 0) in
  callbackChan s = [CallbackParam.mk 1 0 200 "OK"] ∧ jobs s !! 1 = None.
Proof. vm_compute. done. Qed.

(** ** From [addJob] to [Run]: a Job in the table without a context *)

(** [Run] has not made the context of the Job yet. *)
Definition before_Run (pc : runJob_pc) : Prop :=
  match pc with
  | AtGetJob | AtSleep _ | AtAddJob | AtRun => True
  | InHandle | AtSendDone _ | RunReturned => False
  end.

(** A Job has no context exactly as long as its runJob has not reached the
    handler. *)
Definition ctx_inv (s : state) : Prop :=
  ∀ k o r, heap s !! k = Some o → runners s !! k = Some r →
    Job.ctx o = NoContext ↔ before_Run r.

Lemma withDeadline_context c d : withDeadline c d ≠ NoContext.
Proof. by destruct c as [|[?|]|], d. Qed.

Lemma ctx_inv_http evs s s' :
  Inv evs s → ctx_inv s → http_effect s s' → ctx_inv s'.
Proof.
  intros HI Hq (s1 & H1 & H2).
  assert (HI1 : Inv evs s1).
  { destruct H1 as [->|(j & o & Ho & _ & ->)]; [done|]. by apply Inv_stopped. }
  assert (Hq1 : ctx_inv s1).
  { destruct H1 as [->|(j & o & Ho & Hc & ->)]; [done|].
    intros k o' r Hk Hr. simpl in Hk, Hr.
    destruct (decide (k = j)) as [->|Hne].
    - rewrite lookup_insert_eq in Hk. injection Hk as <-. simpl.
      split; [done|]. intros Hb. by apply (Hq j o r Ho Hr) in Hb.
    - rewrite lookup_insert_ne in Hk by done. by apply (Hq k o' r). }
  destruct H2 as [->|(params & h & ->)]; [done|].
  intros k o r Hk Hr. simpl in Hk, Hr.
  destruct (decide (k = next s1)) as [->|Hne].
  - rewrite lookup_insert_eq in Hk. rewrite lookup_insert_eq in Hr.
    by simplify_eq.
  - rewrite lookup_insert_ne in Hk by done.
    rewrite lookup_insert_ne in Hr by done. by apply (Hq1 k o r).
Qed.

Lemma ctx_inv_step evs s a ev s' :
  Inv evs s → ctx_inv s → step a s = Some (ev, s') → ctx_inv s'.
Proof.
  intros HI Hq Hs.
  destruct (decide (is_http a)) as [Ha|Ha].
  { destruct (step_http _ _ _ _ Ha Hs) as [_ He]. by eapply ctx_inv_http. }
  destruct a; simpl in Ha; try tauto; clear Ha; simpl in Hs;
    unfold called, runJob_step, handler_returns, watch_step,
      notifyResult, expire, getJob, addJob, load, get, modify,
      AddJobHandler, RemoveJobHandler, mbind, M_bind, mret, M_ret in Hs;
    cbv beta in Hs; simpl in Hs;
    repeat (case_match; simplify_eq; try done); simplify_eq;
    intros k ok rk Hk Hr; simpl in Hk, Hr;
    try (by apply (Hq k ok rk)).
  all: try (destruct (decide (k = job)) as [->|Hne];
    [| rewrite ?lookup_insert_ne in Hk by done;
       rewrite ?lookup_insert_ne in Hr by done; by apply (Hq k ok rk)]).
  all: rewrite ?lookup_insert_eq in Hk.
  all: rewrite ?lookup_insert_eq in Hr.
  all: simplify_eq; simpl.
  all: try match goal with
       | Hh : heap ?s0 !! ?j = Some ?o, Hp : runners ?s0 !! ?j = Some ?r |- _ =>
           pose proof (Hq j o r Hh Hp) as Hjob; simpl in Hjob
       end.
  all: try tauto.
  all: try (split; [intros Hn; by apply withDeadline_context in Hn|done]).
  split; [done|]. intros Hb. apply Hjob in Hb. congruence.
Qed.

Lemma ctx_inv_reachable size t0 sched evs s :
  exec sched (NewExecutor size t0) = Some (evs, s) → ctx_inv s.
Proof.
  intros H.
  enough (Inv evs s ∧ ctx_inv s) by tauto.
  apply (exec_invariant (λ evs s, Inv evs s ∧ ctx_inv s) ) with (sched := sched)
    (pre := []) (s0 := NewExecutor size t0); [| |done].
  - intros evs0 s0 a ev s' [HI Hq] Hs. split; [by eapply Inv_step|].
    by eapply ctx_inv_step.
  - split; [apply Inv_init|]. intros k o r Hk. simpl in Hk.
    by rewrite lookup_empty in Hk.
Qed.

(** In a state that the executor can be in, the Job in the table under [id]
    makes [stopJob] panic exactly when its runJob stands between [addJob] and
    [Run]: otherwise [kill] and a COVER_EARLY trigger stop it, delete its
    entry and go on. *)
Lemma incumbent_context s id j o :
  reachable s → incumbent s id = Some (j, o) →
  (Job.ctx o = NoContext ↔ runners s !! j = Some AtRun).
Proof.
  intros (size & t0 & sched & evs & Hexec) [Hj Ho]%incumbent_Some.
  pose proof (ctx_inv_reachable _ _ _ _ _ Hexec) as Hq.
  pose proof (Inv_reachable _ _ _ _ _ Hexec) as [_ Htab].
  destruct (Htab id j Hj) as (o' & r & Ho' & _ & Hr & Hp).
  assert (o' = o) as -> by congruence.
  rewrite (Hq j o r Ho Hr), Hr.
  destruct r; simpl in *; split; try done; by intros [=].
Qed.

Lemma kill_running s param j o :
  reachable s → incumbent s (KillParam.JobID param) = Some (j, o) →
  runners s !! j ≠ Some AtRun →
  kill (Body param) s = Ret NewSuccResponse (stopped j o s).
Proof.
  intros Hs Hi Hr. apply kill_started; [done|].
  by rewrite (incumbent_context _ _ _ _ Hs Hi).
Qed.

Lemma TriggerJob_cover_early_running params s j o f :
  reachable s →
  RunParam.ExecutorBlockStrategy params = CoverEarly →
  incumbent s (RunParam.JobID params) = Some (j, o) →
  Job.LogID o ≠ RunParam.LogID params →
  runners s !! j ≠ Some AtRun →
  handlers s !! RunParam.ExecutorHandler params = Some (Func f) →
  TriggerJob params s = Ret None (scheduled params (Func f) (stopped j o s)).
Proof.
  intros Hs Hst Hi Hl Hr Hf. eapply TriggerJob_cover_early_started; try done.
  by rewrite (incumbent_context _ _ _ _ Hs Hi).
Qed.

Lemma TriggerJob_cover_early_missing_running params s j o :
  reachable s →
  RunParam.ExecutorBlockStrategy params = CoverEarly →
  incumbent s (RunParam.JobID params) = Some (j, o) →
  Job.LogID o ≠ RunParam.LogID params →
  runners s !! j ≠ Some AtRun →
  ¬ registered s (RunParam.ExecutorHandler params) →
  TriggerJob params s = Ret (Some "job handler not found") (stopped j o s).
Proof.
  intros Hs Hst Hi Hl Hr Hno.
  eapply TriggerJob_cover_early_missing_started; try done.
  by rewrite (incumbent_context _ _ _ _ Hs Hi).
Qed.

(** ** Bytes and bits *)

Lemma byte_range c : 0 ≤ byte c < 256.
Proof.
  unfold byte. pose proof (N_ascii_bounded c). lia.
Qed.

Lemma chr_byte c : chr (byte c) = c.
Proof. unfold chr, byte. rewrite N2Z.id. apply ascii_N_embedding. Qed.

Lemma byte_chr b : 0 ≤ b < 256 → byte (chr b) = b.
Proof.
  intros Hb. unfold chr, byte. rewrite N_ascii_embedding by lia. lia.
Qed.

Lemma lor_disjoint hi k lo :
  0 ≤ k → 0 ≤ hi → hi mod 2 ^ k = 0 → 0 ≤ lo < 2 ^ k →
  Z.lor hi lo = hi + lo.
Proof.
  intros Hk Hhi Hmod Hlo.
  assert (Hland : Z.land hi lo = 0).
  { apply Z.bits_inj'. intros n Hn. rewrite Z.land_spec, Z.bits_0.
    destruct (Z.lt_ge_cases n k) as [Hlt|Hge].
    - assert (Z.testbit hi n = false) as ->; [|done].
      rewrite <- (Z.mod_pow2_bits_low hi k n) by lia.
      rewrite Hmod. apply Z.bits_0.
    - assert (Z.testbit lo n = false) as ->; [|apply andb_false_r].
      rewrite <- (Z.mod_small lo (2 ^ k)) by lia.
      apply Z.mod_pow2_bits_high. lia. }
  rewrite <- Z.lxor_lor by done. symmetry. by apply Z.add_nocarry_lxor.
Qed.

Lemma lor_plus hi p lo k :
  p = 2 ^ k → 0 ≤ k → 0 ≤ hi → hi mod p = 0 → 0 ≤ lo < p →
  Z.lor hi lo = hi + lo.
Proof. intros ->. apply lor_disjoint. Qed.

Lemma land_low x k m p :
  m = 2 ^ k - 1 → p = 2 ^ k → 0 ≤ k → Z.land x m = x mod p.
Proof.
  intros -> -> Hk. rewrite <- Z.land_ones by done. f_equal.
  rewrite Z.ones_equiv. lia.
Qed.

Lemma shiftl_mul x k p : p = 2 ^ k → 0 ≤ k → Z.shiftl x k = x * p.
Proof. intros -> Hk. by apply Z.shiftl_mul_pow2. Qed.

Lemma shiftr_div x k p : p = 2 ^ k → 0 ≤ k → Z.shiftr x k = x / p.
Proof. intros -> Hk. by apply Z.shiftr_div_pow2. Qed.

Ltac bits_to_arith :=
  repeat match goal with
  | |- context [Z.land ?x 0x3F] => rewrite (land_low x 6 0x3F 64) by done
  | |- context [Z.land ?x 0x1F] => rewrite (land_low x 5 0x1F 32) by done
  | |- context [Z.land ?x 0x0F] => rewrite (land_low x 4 0x0F 16) by done
  | |- context [Z.land ?x 0x07] => rewrite (land_low x 3 0x07 8) by done
  | |- context [Z.shiftl ?x 6] => rewrite (shiftl_mul x 6 64) by done
  | |- context [Z.shiftl ?x 12] => rewrite (shiftl_mul x 12 4096) by done
  | |- context [Z.shiftl ?x 18] => rewrite (shiftl_mul x 18 262144) by done
  | |- context [Z.shiftr ?x 4] => rewrite (shiftr_div x 4 16) by done
  | |- context [Z.shiftr ?x 6] => rewrite (shiftr_div x 6 64) by done
  | |- context [Z.shiftr ?x 12] => rewrite (shiftr_div x 12 4096) by done
  | |- context [Z.shiftr ?x 18] => rewrite (shiftr_div x 18 262144) by done
  end.

Ltac bool_to_prop :=
  repeat match goal with
  | H : _ || _ = true |- _ => apply orb_true_iff in H
  | H : _ || _ = false |- _ => apply orb_false_iff in H; destruct H
  | H : _ && _ = true |- _ => apply andb_true_iff in H; destruct H
  | H : _ && _ = false |- _ => apply andb_false_iff in H
  | H : negb _ = true |- _ => apply negb_true_iff in H
  | H : negb _ = false |- _ => apply negb_false_iff in H
  | H : (_ <? _) = true |- _ => apply Z.ltb_lt in H
  | H : (_ <? _) = false |- _ => apply Z.ltb_ge in H
  | H : (_ <=? _) = true |- _ => apply Z.leb_le in H
  | H : (_ <=? _) = false |- _ => apply Z.leb_gt in H
  | H : (_ =? _) = true |- _ => apply Z.eqb_eq in H
  | H : (_ =? _) = false |- _ => apply Z.eqb_neq in H
  end.

Ltac arith := Z.div_mod_to_equations; lia.

Lemma EncodeRune_2 h l :
  2 ≤ h < 32 → 0 ≤ l < 64 →
  EncodeRune (h * 64 + l)
  = String (chr (192 + h)) (String (chr (128 + l)) EmptyString).
Proof.
  intros Hh Hl. unfold EncodeRune.
  destruct ((0 <=? h * 64 + l) && (h * 64 + l <=? 0x7F)) eqn:E1;
    [bool_to_prop; lia|].
  destruct ((0 <=? h * 64 + l) && (h * 64 + l <=? 0x7FF)) eqn:E2;
    [|bool_to_prop; lia].
  bits_to_arith.
  rewrite (lor_plus 0xC0 64 _ 6), (lor_plus 0x80 64 _ 6) by (done || arith).
  repeat (apply (f_equal2 String); [f_equal; arith|]). done.
Qed.

Lemma EncodeRune_3 h m l :
  0 ≤ h < 16 → 0 ≤ m < 64 → 0 ≤ l < 64 →
  0x800 ≤ h * 4096 + m * 64 + l →
  ¬ (0xD800 ≤ h * 4096 + m * 64 + l ≤ 0xDFFF) →
  EncodeRune (h * 4096 + m * 64 + l)
  = String (chr (224 + h))
      (String (chr (128 + m)) (String (chr (128 + l)) EmptyString)).
Proof.
  intros Hh Hm Hl Hlo Hsur. unfold EncodeRune.
  set (r := h * 4096 + m * 64 + l) in *.
  destruct ((0 <=? r) && (r <=? 0x7F)) eqn:E1; [bool_to_prop; lia|].
  destruct ((0 <=? r) && (r <=? 0x7FF)) eqn:E2; [bool_to_prop; lia|].
  destruct ((r <? 0) || (0x10FFFF <? r) || ((0xD800 <=? r) && (r <=? 0xDFFF)))
    eqn:E3; [bool_to_prop; subst r; lia|].
  destruct (r <=? 0xFFFF) eqn:E4; [|bool_to_prop; subst r; lia].
  bits_to_arith.
  rewrite (lor_plus 0xE0 16 _ 4), !(lor_plus 0x80 64 _ 6)
    by (done || subst r; arith).
  subst r. repeat (apply (f_equal2 String); [f_equal; arith|]). done.
Qed.

Lemma EncodeRune_4 h a m l :
  0 ≤ h < 8 → 0 ≤ a < 64 → 0 ≤ m < 64 → 0 ≤ l < 64 →
  0x10000 ≤ h * 262144 + a * 4096 + m * 64 + l ≤ 0x10FFFF →
  EncodeRune (h * 262144 + a * 4096 + m * 64 + l)
  = String (chr (240 + h))
      (String (chr (128 + a))
         (String (chr (128 + m)) (String (chr (128 + l)) EmptyString))).
Proof.
  intros Hh Ha Hm Hl Hr. unfold EncodeRune.
  set (r := h * 262144 + a * 4096 + m * 64 + l) in *.
  destruct ((0 <=? r) && (r <=? 0x7F)) eqn:E1; [bool_to_prop; lia|].
  destruct ((0 <=? r) && (r <=? 0x7FF)) eqn:E2; [bool_to_prop; lia|].
  destruct ((r <? 0) || (0x10FFFF <? r) || ((0xD800 <=? r) && (r <=? 0xDFFF)))
    eqn:E3; [bool_to_prop; subst r; lia|].
  destruct (r <=? 0xFFFF) eqn:E4; [bool_to_prop; subst r; lia|].
  bits_to_arith.
  rewrite (lor_plus 0xF0 8 _ 3), !(lor_plus 0x80 64 _ 6)
    by (done || subst r; arith).
  subst r. repeat (apply (f_equal2 String); [f_equal; arith|]). done.
Qed.

(** ** UTF-8: encoding what was decoded *)

(** What [DecodeRune] finds at a byte that is not ASCII: no encoding, or an
    encoding on two, three or four bytes, which [EncodeRune] gives back and
    which does not depend on what follows. *)
Inductive decoded_at (c0 : ascii) (r : string) : Z * nat → Prop :=
  | decoded_error : decoded_at c0 r (RuneError, 1%nat)
  | decoded_2 c1 r1 c :
      r = String c1 r1 →
      EncodeRune c = String c0 (String c1 EmptyString) →
      c < 0x800 →
      (∀ X, DecodeRune (String c0 (String c1 X)) = (c, 2%nat)) →
      decoded_at c0 r (c, 2%nat)
  | decoded_3 c1 c2 r2 c :
      r = String c1 (String c2 r2) →
      EncodeRune c = String c0 (String c1 (String c2 EmptyString)) →
      (∀ X, DecodeRune (String c0 (String c1 (String c2 X))) = (c, 3%nat)) →
      decoded_at c0 r (c, 3%nat)
  | decoded_4 c1 c2 c3 r3 c :
      r = String c1 (String c2 (String c3 r3)) →
      EncodeRune c = String c0 (String c1 (String c2 (String c3 EmptyString))) →
      0x10000 ≤ c →
      (∀ X, DecodeRune (String c0 (String c1 (String c2 (String c3 X))))
            = (c, 4%nat)) →
      decoded_at c0 r (c, 4%nat).

Lemma decode_2 b0 b1 :
  0 ≤ b0 → 0 ≤ b1 →
  Z.lor (Z.shiftl (Z.land b0 0x1F) 6) (Z.land b1 0x3F)
  = b0 mod 32 * 64 + b1 mod 64.
Proof.
  intros. bits_to_arith. rewrite (lor_plus _ 64 _ 6) by (done || arith). done.
Qed.

Lemma decode_3 b0 b1 b2 :
  0 ≤ b0 → 0 ≤ b1 → 0 ≤ b2 →
  Z.lor (Z.lor (Z.shiftl (Z.land b0 0x0F) 12) (Z.shiftl (Z.land b1 0x3F) 6))
        (Z.land b2 0x3F)
  = b0 mod 16 * 4096 + b1 mod 64 * 64 + b2 mod 64.
Proof.
  intros. bits_to_arith.
  rewrite (lor_plus (_ * 4096) 4096 _ 12) by (done || arith).
  rewrite (lor_plus _ 64 (b2 mod 64) 6) by (done || arith). done.
Qed.

Lemma decode_4 b0 b1 b2 b3 :
  0 ≤ b0 → 0 ≤ b1 → 0 ≤ b2 → 0 ≤ b3 →
  Z.lor (Z.lor (Z.lor (Z.shiftl (Z.land b0 0x07) 18)
                      (Z.shiftl (Z.land b1 0x3F) 12))
               (Z.shiftl (Z.land b2 0x3F) 6))
        (Z.land b3 0x3F)
  = b0 mod 8 * 262144 + b1 mod 64 * 4096 + b2 mod 64 * 64 + b3 mod 64.
Proof.
  intros. bits_to_arith.
  rewrite (lor_plus (_ * 262144) 262144 _ 18) by (done || arith).
  rewrite (lor_plus _ 4096 (b2 mod 64 * 64) 12) by (done || arith).
  rewrite (lor_plus _ 64 (b3 mod 64) 6) by (done || arith). done.
Qed.

Lemma chr_eq b c : b = byte c → chr b = c.
Proof. intros ->. apply chr_byte. Qed.

Lemma DecodeRune_cases c0 r :
  0x80 ≤ byte c0 → decoded_at c0 r (DecodeRune (String c0 r)).
Proof.
  intros H0. pose proof (byte_range c0) as R0.
  unfold DecodeRune. cbv zeta.
  destruct (byte c0 <? 0x80) eqn:E0; [bool_to_prop; lia|].
  destruct ((byte c0 <? 0xC2) || (0xF4 <? byte c0)) eqn:E1; [constructor|].
  destruct r as [|c1 r1]; [constructor|].
  pose proof (byte_range c1) as R1.
  destruct ((byte c1 <? (if byte c0 =? 224 then 160
                         else if byte c0 =? 240 then 144 else 128))
            || ((if byte c0 =? 237 then 159
                 else if byte c0 =? 244 then 143 else 191) <? byte c1)) eqn:E2;
    [constructor|].
  assert (L1 : (if byte c0 =? 224 then 160
                else if byte c0 =? 240 then 144 else 128) ≤ byte c1
               ≤ (if byte c0 =? 237 then 159
                  else if byte c0 =? 244 then 143 else 191)).
  { bool_to_prop. lia. }
  clear E2. bool_to_prop.
  destruct (byte c0 <? 0xE0) eqn:E3; bool_to_prop.
  { (* two bytes *)
    assert (Hr : 128 ≤ byte c1 ≤ 191) by (repeat case_match; lia).
    rewrite decode_2 by lia.
    eapply decoded_2; [done| |arith|].
    - rewrite EncodeRune_2 by arith.
      repeat (apply (f_equal2 String); [apply chr_eq; arith|]). done.
    - intros X. unfold DecodeRune. cbv zeta.
      rewrite (proj2 (Z.ltb_ge _ _)) by lia.
      replace ((byte c0 <? 194) || (244 <? byte c0)) with false
        by (symmetry; apply orb_false_iff; split;
            [apply Z.ltb_ge|apply Z.ltb_ge]; lia).
      replace ((byte c1 <? (if byte c0 =? 224 then 160
                            else if byte c0 =? 240 then 144 else 128))
               || ((if byte c0 =? 237 then 159
                    else if byte c0 =? 244 then 143 else 191) <? byte c1))
        with false
        by (symmetry; apply orb_false_iff; split; apply Z.ltb_ge; lia).
      rewrite (proj2 (Z.ltb_lt _ _)) by lia.
      by rewrite decode_2 by lia. }
  destruct r1 as [|c2 r2]; [constructor|].
  pose proof (byte_range c2) as R2.
  destruct ((byte c2 <? 0x80) || (0xBF <? byte c2)) eqn:E4; [constructor|].
  bool_to_prop.
  destruct (byte c0 <? 0xF0) eqn:E5; bool_to_prop.
  { (* three bytes *)
    rewrite decode_3 by lia.
    assert (Hr : byte c0 mod 16 * 4096 + byte c1 mod 64 * 64 + byte c2 mod 64
                 = (byte c0 - 224) * 4096 + (byte c1 - 128) * 64
                   + (byte c2 - 128)).
    { repeat case_match; arith. }
    eapply decoded_3; [done| |].
    - rewrite Hr. rewrite EncodeRune_3; try (repeat case_match; lia).
      repeat (apply (f_equal2 String); [apply chr_eq; lia|]). done.
    - intros X. unfold DecodeRune. cbv zeta.
      rewrite (proj2 (Z.ltb_ge _ _)) by lia.
      replace ((byte c0 <? 194) || (244 <? byte c0)) with false
        by (symmetry; apply orb_false_iff; split;
            [apply Z.ltb_ge|apply Z.ltb_ge]; lia).
      replace ((byte c1 <? (if byte c0 =? 224 then 160
                            else if byte c0 =? 240 then 144 else 128))
               || ((if byte c0 =? 237 then 159
                    else if byte c0 =? 244 then 143 else 191) <? byte c1))
        with false
        by (symmetry; apply orb_false_iff; split; apply Z.ltb_ge; lia).
      rewrite (proj2 (Z.ltb_ge (byte c0) 224)) by lia.
      replace ((byte c2 <? 128) || (191 <? byte c2)) with false
        by (symmetry; apply orb_false_iff; split; apply Z.ltb_ge; lia).
      rewrite (proj2 (Z.ltb_lt _ _)) by lia.
      by rewrite decode_3 by lia. }
  destruct r2 as [|c3 r3]; [constructor|].
  pose proof (byte_range c3) as R3.
  destruct ((byte c3 <? 0x80) || (0xBF <? byte c3)) eqn:E6; [constructor|].
  bool_to_prop.
  rewrite decode_4 by lia.
  assert (Hr : byte c0 mod 8 * 262144 + byte c1 mod 64 * 4096
               + byte c2 mod 64 * 64 + byte c3 mod 64
               = (byte c0 - 240) * 262144 + (byte c1 - 128) * 4096
                 + (byte c2 - 128) * 64 + (byte c3 - 128)).
  { repeat case_match; arith. }
  eapply decoded_4; [done| | |].
  - rewrite Hr. rewrite EncodeRune_4; try (repeat case_match; lia).
    repeat (apply (f_equal2 String); [apply chr_eq; lia|]). done.
  - rewrite Hr. repeat case_match; lia.
  - intros X. unfold DecodeRune. cbv zeta.
    rewrite (proj2 (Z.ltb_ge _ _)) by lia.
    replace ((byte c0 <? 194) || (244 <? byte c0)) with false
      by (symmetry; apply orb_false_iff; split;
          [apply Z.ltb_ge|apply Z.ltb_ge]; lia).
    replace ((byte c1 <? (if byte c0 =? 224 then 160
                          else if byte c0 =? 240 then 144 else 128))
             || ((if byte c0 =? 237 then 159
                  else if byte c0 =? 244 then 143 else 191) <? byte c1))
      with false
      by (symmetry; apply orb_false_iff; split; apply Z.ltb_ge; lia).
    rewrite (proj2 (Z.ltb_ge (byte c0) 224)) by lia.
    replace ((byte c2 <? 128) || (191 <? byte c2)) with false
      by (symmetry; apply orb_false_iff; split; apply Z.ltb_ge; lia).
    rewrite (proj2 (Z.ltb_ge (byte c0) 240)) by lia.
    replace ((byte c3 <? 128) || (191 <? byte c3)) with false
      by (symmetry; apply orb_false_iff; split; apply Z.ltb_ge; lia).
    by rewrite decode_4 by lia.
Qed.

(** ** A string read back *)

Lemma append_assoc (s1 s2 s3 : string) :
  ((s1 ++ s2) ++ s3 = s1 ++ (s2 ++ s3))%string.
Proof.
  induction s1 as [|c s1 IH]; [done|].
  change (String c ((s1 ++ s2) ++ s3) = String c (s1 ++ (s2 ++ s3)))%string.
  by rewrite IH.
Qed.

Lemma append_cons c (s t : string) :
  (String c s ++ t = String c (s ++ t))%string.
Proof. done. Qed.

Lemma append_nil (t : string) : (EmptyString ++ t = t)%string.
Proof. done. Qed.

Lemma prepend_Some p t rest :
  prepend p (Some (t, rest)) = Some ((p ++ t)%string, rest).
Proof. done. Qed.

Lemma unquote_escapeByte c t :
  byte c < 0x80 →
  unquote (escapeByte c ++ t) = prepend (String c EmptyString) (unquote t).
Proof.
  intros Hc.
  destruct c as [[|] [|] [|] [|] [|] [|] [|] [|]];
    try (vm_compute in Hc; discriminate Hc); clear Hc; reflexivity.
Qed.

Lemma appendStringBody_ascii c0 r :
  byte c0 < 0x80 →
  appendStringBody (String c0 r) = (escapeByte c0 ++ appendStringBody r)%string.
Proof.
  intros Hc. cbn [appendStringBody].
  by rewrite (proj2 (Z.ltb_lt _ _)) by done.
Qed.

Lemma ValidString_ascii c0 r :
  byte c0 < 0x80 → ValidString (String c0 r) = ValidString r.
Proof.
  intros Hc. pose proof (byte_range c0).
  cbn [ValidString]. unfold DecodeRune.
  rewrite (proj2 (Z.ltb_lt _ _)) by done.
  rewrite (proj2 (Z.eqb_neq _ _)) by (unfold RuneError; lia). done.
Qed.

Lemma unquote_dquote rest :
  unquote (String dquote rest) = Some (EmptyString, rest).
Proof. done. Qed.

(** The decoder at a byte that is not ASCII. *)
Lemma unquote_high c0 r :
  0x80 ≤ byte c0 →
  unquote (String c0 r)
  = let (rr, size) := DecodeRune (String c0 r) in
    match size, r with
    | 2%nat, String _ r1 => prepend (EncodeRune rr) (unquote r1)
    | 3%nat, String _ (String _ r2) => prepend (EncodeRune rr) (unquote r2)
    | 4%nat, String _ (String _ (String _ r3)) =>
        prepend (EncodeRune rr) (unquote r3)
    | _, _ => prepend (EncodeRune rr) (unquote r)
    end.
Proof.
  intros Hc. cbn [unquote]. cbv zeta.
  rewrite !(proj2 (Z.eqb_neq _ _)) by lia.
  by rewrite !(proj2 (Z.ltb_ge _ _)) by lia.
Qed.

(** The encoder at a byte that is not ASCII. *)
Lemma appendStringBody_high c0 r :
  0x80 ≤ byte c0 →
  appendStringBody (String c0 r)
  = let (c, size) := DecodeRune (String c0 r) in
    if (c =? RuneError) && (size =? 1)%nat then
      (String backslash "ufffd" ++ appendStringBody r)%string
    else if (c =? 0x2028) || (c =? 0x2029) then
      match r with
      | String _ (String _ r2) =>
          (String backslash "u202"
           ++ String (hex (Z.land c 0xF)) EmptyString
           ++ appendStringBody r2)%string
      | _ => EmptyString
      end
    else
      match size, r with
      | 2%nat, String c1 r1 => String c0 (String c1 (appendStringBody r1))
      | 3%nat, String c1 (String c2 r2) =>
          String c0 (String c1 (String c2 (appendStringBody r2)))
      | 4%nat, String c1 (String c2 (String c3 r3)) =>
          String c0 (String c1 (String c2 (String c3 (appendStringBody r3))))
      | _, _ => String c0 (appendStringBody r)
      end.
Proof.
  intros Hc. cbn [appendStringBody].
  by rewrite (proj2 (Z.ltb_ge _ _)) by lia.
Qed.

Lemma unquote_appendStringBody n m rest :
  (String.length m ≤ n)%nat → ValidString m = true →
  unquote (appendStringBody m ++ String dquote rest) = Some (m, rest).
Proof.
  revert m. induction n as [|n IH]; intros m Hlen Hvalid.
  { destruct m; [done|simpl in Hlen; lia]. }
  destruct m as [|c0 r]; [done|]. simpl in Hlen.
  destruct (Z.lt_ge_cases (byte c0) 0x80) as [Hc|Hc].
  - rewrite ValidString_ascii in Hvalid by done.
    rewrite appendStringBody_ascii by done.
    rewrite append_assoc, unquote_escapeByte by done.
    rewrite IH by (done || lia). done.
  - rewrite appendStringBody_high by done.
    pose proof (DecodeRune_cases c0 r Hc) as Hd.
    cbn [ValidString] in Hvalid.
    destruct (DecodeRune (String c0 r)) as [c size] eqn:Ed.
    inversion Hd as [|c1 r1 c' Hr Henc Hlt HX|c1 c2 r2 c' Hr Henc HX
                     |c1 c2 c3 r3 c' Hr Henc Hge HX]; subst.
    + done.
    + (* two bytes *)
      rewrite (proj2 (Z.eqb_neq c RuneError)) in * by (unfold RuneError; lia).
      rewrite !(proj2 (Z.eqb_neq c _)) by lia. cbn [orb andb].
      rewrite !append_cons, unquote_high, HX by done.
      simpl in Hlen. rewrite IH by (done || lia).
      by rewrite Henc.
    + (* three bytes *)
      replace ((c =? RuneError) && (3 =? 1)%nat) with false in *
        by (by rewrite andb_false_r).
      simpl in Hlen.
      destruct ((c =? 0x2028) || (c =? 0x2029)) eqn:Els.
      * assert (unquote (String backslash "u202"
                  ++ String (hex (Z.land c 0xF)) EmptyString
                  ++ appendStringBody r2 ++ String dquote rest)
                = prepend (EncodeRune c)
                    (unquote (appendStringBody r2 ++ String dquote rest)))
          as Hu.
        { apply orb_true_iff in Els as [->%Z.eqb_eq| ->%Z.eqb_eq]; reflexivity. }
        rewrite !append_assoc. rewrite Hu.
        rewrite IH by (done || lia). by rewrite Henc.
      * cbn [orb andb]. rewrite !append_cons, unquote_high, HX by done.
        rewrite IH by (done || lia). by rewrite Henc.
    + (* four bytes *)
      replace ((c =? RuneError) && (4 =? 1)%nat) with false in *
        by (by rewrite andb_false_r).
      rewrite !(proj2 (Z.eqb_neq c _)) by lia. cbn [orb andb].
      simpl in Hlen. rewrite !append_cons, unquote_high, HX by done.
      rewrite IH by (done || lia). by rewrite Henc.
Qed.

(** ** A number read back *)

Lemma append_nil_r (s : string) : (s ++ EmptyString = s)%string.
Proof.
  induction s as [|c s IH]; [done|]. rewrite append_cons. by rewrite IH.
Qed.

Lemma digits_string_of_uint d rest :
  digits (NilEmpty.string_of_uint d ++ String "," rest)
  = (NilEmpty.string_of_uint d, String "," rest).
Proof.
  induction d; cbn [NilEmpty.string_of_uint]; rewrite ?append_nil, ?append_cons;
    [done|..]; cbn [digits]; rewrite IHd; done.
Qed.

(** The decimal digits of a positive number start with a digit that is not
    zero. *)
Lemma to_uint_head p :
  ∃ c d, NilEmpty.string_of_uint (Pos.to_uint p)
         = String c (NilEmpty.string_of_uint d)
         ∧ 49 ≤ byte c ≤ 57.
Proof.
  assert (Hn : Pos.to_uint p = Decimal.nzhead (Pos.to_uint p)).
  { assert (Hu : Decimal.unorm (Pos.to_uint p) = Pos.to_uint p).
    { rewrite <- DecimalPos.Unsigned.to_of, DecimalPos.Unsigned.of_to. done. }
    unfold Decimal.unorm in Hu.
    destruct (Decimal.nzhead (Pos.to_uint p)) eqn:E; try done.
    by destruct (DecimalPos.Unsigned.to_uint_nonzero p). }
  pose proof (DecimalFacts.nzhead_nonzero (Pos.to_uint p)) as Hz.
  pose proof (DecimalPos.Unsigned.to_uint_nonnil p) as Hnil.
  rewrite <- Hn in Hz.
  destruct (Pos.to_uint p) as [|d|d|d|d|d|d|d|d|d|d]; [done|by destruct (Hz d)|..];
    eexists _, d; (split; [reflexivity|by vm_compute]).
Qed.

Lemma AppendInt_cases v :
  AppendInt v = "0"
  ∨ (∃ c d, AppendInt v = String c (NilEmpty.string_of_uint d)
            ∧ 49 ≤ byte c ≤ 57)
  ∨ (∃ c d, AppendInt v = String "-" (String c (NilEmpty.string_of_uint d))
            ∧ 49 ≤ byte c ≤ 57).
Proof.
  unfold AppendInt. destruct v as [|p|p]; [by left|right; left|right; right];
    destruct (to_uint_head p) as (c & d & Hs & Hc); exists c, d;
    (split; [|done]); cbn [Z.to_int NilZero.string_of_int];
    unfold NilZero.string_of_uint;
    pose proof (DecimalPos.Unsigned.to_uint_nonnil p);
    destruct (Pos.to_uint p); try done; by rewrite Hs.
Qed.

Lemma isDigit_range c : 48 ≤ byte c ≤ 57 → isDigit c = true.
Proof.
  intros H. unfold isDigit. apply andb_true_iff. split; apply Z.leb_le; lia.
Qed.

Ltac scan_comma :=
  repeat (cbn; change (byte ",") with 44; change (byte "-") with 45).

Lemma scanNumber_digits c d rest :
  49 ≤ byte c ≤ 57 →
  scanNumber (String c (NilEmpty.string_of_uint d ++ String "," rest))
  = Some (String c (NilEmpty.string_of_uint d), String "," rest).
Proof.
  intros Hc. unfold scanNumber.
  rewrite !(proj2 (Z.eqb_neq (byte c) _)) by lia.
  rewrite isDigit_range by lia. rewrite digits_string_of_uint.
  scan_comma. by rewrite append_nil, !append_nil_r.
Qed.

Lemma scanNumber_minus_digits c d rest :
  49 ≤ byte c ≤ 57 →
  scanNumber
    (String "-" (String c (NilEmpty.string_of_uint d ++ String "," rest)))
  = Some (String "-" (String c (NilEmpty.string_of_uint d)), String "," rest).
Proof.
  intros Hc. unfold scanNumber. change (byte "-" =? 45) with true.
  cbv iota beta.
  rewrite !(proj2 (Z.eqb_neq (byte c) _)) by lia.
  rewrite isDigit_range by lia. rewrite digits_string_of_uint.
  scan_comma. by rewrite !append_nil_r.
Qed.

Lemma scanNumber_AppendInt v rest :
  scanNumber (AppendInt v ++ String "," rest)
  = Some (AppendInt v, String "," rest).
Proof.
  destruct (AppendInt_cases v)
    as [->|[(c & d & -> & Hc)|(c & d & -> & Hc)]].
  - reflexivity.
  - rewrite append_cons. by apply scanNumber_digits.
  - rewrite !append_cons. by apply scanNumber_minus_digits.
Qed.

Lemma ParseInt_AppendInt v :
  - 2 ^ 63 ≤ v < 2 ^ 63 → ParseInt (AppendInt v) = Some v.
Proof.
  intros Hv. unfold ParseInt, AppendInt.
  rewrite NilZero.isi.
  - rewrite DecimalZ.of_to.
    replace ((- 2 ^ 63 <=? v) && (v <? 2 ^ 63)) with true; [done|].
    symmetry. apply andb_true_iff. split; [apply Z.leb_le|apply Z.ltb_lt]; lia.
  - destruct v as [|p|p]; try done. simpl.
    intros [= H]. by destruct (DecimalPos.Unsigned.to_uint_nonnil p).
  - destruct v as [|p|p]; try done. simpl.
    intros [= H]. by destruct (DecimalPos.Unsigned.to_uint_nonnil p).
Qed.

(** ** A Response read back *)

Lemma parseValue_object fuel r :
  parseValue (S fuel) (String "{" r)
  = match skipSpace r with
    | String c' r' =>
        if byte c' =? 125 then Some (JObject [], r')
        else parseMembers fuel (String c' r') []
    | EmptyString => None
    end.
Proof. reflexivity. Qed.

Lemma parseValue_string fuel r :
  parseValue (S fuel) (String dquote r)
  = match unquote r with
    | Some (t, r') => Some (JString t, r')
    | None => None
    end.
Proof. reflexivity. Qed.

Lemma parseValue_digit fuel c r :
  48 ≤ byte c ≤ 57 ∨ byte c = 45 →
  parseValue (S fuel) (String c r)
  = match scanNumber (String c r) with
    | Some (lit, r') => Some (JNumber lit, r')
    | None => None
    end.
Proof.
  intros Hc. cbn [parseValue skipSpace]. unfold isSpace. cbv zeta.
  rewrite !(proj2 (Z.eqb_neq (byte c) _)) by lia. cbn [orb].
  by rewrite !(proj2 (Z.eqb_neq (byte c) _)) by lia.
Qed.

Lemma parseValue_AppendInt fuel v rest :
  parseValue (S fuel) (AppendInt v ++ String "," rest)
  = Some (JNumber (AppendInt v), String "," rest).
Proof.
  pose proof (scanNumber_AppendInt v rest) as Hs.
  destruct (AppendInt_cases v)
    as [E|[(c & d & E & Hc)|(c & d & E & Hc)]]; rewrite E in *;
    rewrite !append_cons in *.
  - rewrite parseValue_digit by (vm_compute; left; split; discriminate).
    by rewrite Hs.
  - rewrite parseValue_digit by lia. by rewrite Hs.
  - rewrite parseValue_digit by (by right). by rewrite Hs.
Qed.

Lemma parseMembers_member fuel k r acc :
  parseMembers (S fuel) (String dquote (k ++ String dquote (String ":" r))) acc
  = match unquote (k ++ String dquote (String ":" r)) with
    | Some (k', r1) =>
        match skipSpace r1 with
        | String c1 r2 =>
            if byte c1 =? 58 then
              match parseValue fuel r2 with
              | Some (v, r3) =>
                  match skipSpace r3 with
                  | String c3 r4 =>
                      if byte c3 =? 44 then
                        parseMembers fuel r4 (acc ++ [(k', v)])
                      else if byte c3 =? 125 then
                        Some (JObject (acc ++ [(k', v)]), r4)
                      else None
                  | EmptyString => None
                  end
              | None => None
              end
            else None
        | EmptyString => None
        end
    | None => None
    end.
Proof. reflexivity. Qed.

(** The text of a Response without content. *)
Definition text_of (code : Z) (msg : string) : string :=
  String "{" (String dquote ("code" ++ String dquote (String ":"
    (AppendInt code ++ String "," (String dquote ("msg" ++ String dquote
       (String ":" (String dquote
          (appendStringBody msg ++ String dquote "}"))))))))).

Lemma parse_text_of code msg :
  ValidString msg = true →
  parse (text_of code msg)
  = Some (JObject [("code", JNumber (AppendInt code)); ("msg", JString msg)]).
Proof.
  intros Hvalid. unfold parse.
  assert (∃ n, String.length (text_of code msg) = S (S (S n))) as [n ->].
  { unfold text_of. cbn [String.length String.append]. eauto. }
  unfold text_of.
  rewrite parseValue_object.
  change (skipSpace (String dquote ?r)) with (String dquote r).
  change (byte dquote =? 125) with false. cbv iota.
  rewrite parseMembers_member.
  change (unquote ("code" ++ String dquote ?r)) with (Some ("code", r)).
  cbv iota beta.
  change (skipSpace (String ":" ?r)) with (String ":" r).
  change (byte ":" =? 58) with true. cbv iota beta.
  rewrite parseValue_AppendInt.
  change (skipSpace (String "," ?r)) with (String "," r).
  change (byte "," =? 44) with true. cbv iota beta.
  rewrite parseMembers_member.
  change (unquote ("msg" ++ String dquote ?r)) with (Some ("msg", r)).
  cbv iota beta.
  change (skipSpace (String ":" ?r)) with (String ":" r).
  change (byte ":" =? 58) with true. cbv iota beta.
  rewrite parseValue_string.
  rewrite (unquote_appendStringBody (String.length msg)) by done.
  reflexivity.
Qed.

Lemma Response_String_text_of {C} `{Marshaler C} (res : Response.t C) :
  Response.Content res = None →
  Response_String res = text_of (Response.Code res) (Response.Msg res).
Proof.
  intros Hc. unfold Response_String, Marshal. rewrite Hc.
  cbn [mbind option_bind]. unfold text_of, key, appendString.
  assert ((String dquote
             (appendStringBody (Response.Msg res) ++ String dquote EmptyString)
           ++ EmptyString ++ "}")%string
          = String dquote
              (appendStringBody (Response.Msg res) ++ String dquote "}")%string)
    as ->.
  { rewrite append_cons, append_assoc. reflexivity. }
  reflexivity.
Qed.

(** C9, amended: a Response whose content is nil and whose msg is valid
    UTF-8 (its code being an int) is read back from [res.String()] with the
    same code, the same msg and a nil content. *)
Theorem Response_round_trip {C} `{Marshaler C} (res : Response.t C) :
  - 2 ^ 63 ≤ Response.Code res < 2 ^ 63 →
  Response.Content res = None →
  ValidString (Response.Msg res) = true →
  Unmarshal (Response_String res)
  = Some (Response.mk (Response.Code res) (Response.Msg res) None).
Proof.
  intros Hcode Hcontent Hvalid.
  rewrite Response_String_text_of by done. unfold Unmarshal.
  rewrite parse_text_of by done.
  cbn [setFields]. unfold setField at 1.
  change (fieldOf ("code", JNumber (AppendInt (Response.Code res))).1)
    with (Some FCode).
  cbn [snd]. rewrite ParseInt_AppendInt by done.
  reflexivity.
Qed.

Lemma Response_round_trip_witness :
  Unmarshal (Response_String (NewErrorResponse "error" : Response.t LogResult.t))
  = Some (Response.mk 500 "error" None).
Proof.
  apply (Response_round_trip (NewErrorResponse "error" : Response.t LogResult.t)).
  - vm_compute. split; [discriminate|reflexivity].
  - reflexivity.
  - vm_compute. reflexivity.
Defined.

(** C9: a msg with a byte that is no UTF-8 is not read back: the encoder
    writes the replacement rune for the byte, and the decoder gives the three
    bytes of that rune.  Nor is a content: one with no encoding makes
    [String()] empty, which is no JSON, and the [*LogResult] of the log endpoint
    comes back as the generic object of the decoder. *)
Lemma Response_round_trip_fails :
  let res : Response.t chan :=
    Response.mk 200 (String (chr 255) EmptyString) None in
  Unmarshal (Response_String res)
  = Some (Response.mk 200
            (String (chr 239) (String (chr 191) (String (chr 189) EmptyString)))
            None)
  ∧ String (chr 239) (String (chr 191) (String (chr 189) EmptyString))
    ≠ Response.Msg res
  ∧ Unmarshal (Response_String (Response.mk 200 EmptyString (Some MkChan))) = None
  ∧ Unmarshal
      (Response_String (Response.mk 200 EmptyString (Some (LogResult.mk 1 2 "N/A" true))))
    = Some (Response.mk 200 EmptyString
              (Some (JObject [ ("fromLineNum", JNumber "1");
                               ("toLineNum", JNumber "2");
                               ("logContent", JString "N/A");
                               ("isEnd", JBool true) ]))).
Proof. vm_compute. repeat split; discriminate. Qed.

(** ** [util.go]: durations and sizes *)

Example ReadableSize_tests :
  ReadableSize 1 = "1b" ∧ ReadableSize 2000 = "1.95kb"
  ∧ ReadableSize 11000 = "10.74kb" ∧ ReadableSize 1200000 = "1.14mb"
  ∧ ReadableSize 1100000000 = "1.02gb" ∧ ReadableSize 1152 = "1.12kb"
  ∧ ReadableSize (-2048) = "-2048b"
  ∧ ReadableSize 1048575 = "1024.00kb"
  ∧ ReadableSize 9223372036854775807 = "8589934592.00gb".
Proof. vm_compute. repeat split. Qed.

Example TruncateDuration_tests :
  TruncateDuration (2 * time.Second) = 2 * time.Second
  ∧ TruncateDuration (500 * time.Millisecond) = 500 * time.Millisecond
  ∧ TruncateDuration (10 * time.Microsecond) = 10 * time.Microsecond
  ∧ TruncateDuration (100 * time.Nanosecond) = 0
  ∧ TruncateDuration 1234567 = 1000000
  ∧ TruncateDuration (-1500000001) = -1500000000.
Proof. vm_compute. repeat split. Qed.

Lemma rem_toward_zero d m :
  0 < m →
  d = m * Z.quot d m + Z.rem d m
  ∧ ((0 ≤ d ∧ 0 ≤ Z.rem d m ≤ d ∧ Z.rem d m < m)
     ∨ (d < 0 ∧ d ≤ Z.rem d m ≤ 0 ∧ - m < Z.rem d m)).
Proof.
  intros Hm. split; [apply Z.quot_rem'|].
  destruct (Z_lt_le_dec d 0) as [Hd|Hd].
  - right. replace d with (- - d) by lia. rewrite Z.rem_opp_l' .
    pose proof (Z.rem_bound_pos (- d) m ltac:(lia) Hm).
    pose proof (Z.rem_le (- d) m ltac:(lia) Hm). lia.
  - left. pose proof (Z.rem_bound_pos d m Hd Hm).
    pose proof (Z.rem_le d m Hd Hm). lia.
Qed.

Lemma Truncate_quot d m : 0 < m → time.Truncate d m = m * Z.quot d m.
Proof.
  intros Hm. unfold time.Truncate.
  destruct (Z.leb_spec m 0); [lia|].
  destruct (rem_toward_zero d m Hm) as [Hq _]. lia.
Qed.

(** [Truncate] rounds toward zero, by less than [m]. *)
Lemma Truncate_range d m :
  0 < m →
  (0 ≤ d → 0 ≤ time.Truncate d m ≤ d ∧ d - time.Truncate d m < m)
  ∧ (d ≤ 0 → d ≤ time.Truncate d m ≤ 0 ∧ time.Truncate d m - d < m).
Proof.
  intros Hm. unfold time.Truncate.
  destruct (Z.leb_spec m 0); [lia|].
  destruct (rem_toward_zero d m Hm) as [_ Hr]. lia.
Qed.

Lemma Truncate_mono d1 d2 m :
  0 < m → d1 ≤ d2 → time.Truncate d1 m ≤ time.Truncate d2 m.
Proof.
  intros Hm H. rewrite !Truncate_quot by done.
  apply Z.mul_le_mono_nonneg_l; [lia|]. by apply Z.quot_le_mono.
Qed.

Lemma Truncate_fix m q : 0 < m → time.Truncate (m * q) m = m * q.
Proof.
  intros Hm. rewrite Truncate_quot by done.
  rewrite (Z.mul_comm m q), Z.quot_mul by lia. lia.
Qed.

Lemma Truncate_unit d m : 0 < m → m ≤ d → m ≤ time.Truncate d m.
Proof.
  intros Hm H. pose proof (Truncate_fix m 1 Hm) as E.
  rewrite Z.mul_1_r in E. rewrite <- E at 1. by apply Truncate_mono.
Qed.

(** The three cases of [TruncateDuration]. *)
Lemma TruncateDuration_cases d :
  (time.Second ≤ d ∧ TruncateDuration d = d)
  ∨ (time.Millisecond ≤ d < time.Second
     ∧ TruncateDuration d = time.Truncate d time.Millisecond)
  ∨ (d < time.Millisecond
     ∧ TruncateDuration d = time.Truncate d time.Microsecond).
Proof.
  unfold TruncateDuration.
  destruct (Z.leb_spec time.Second d); [by left|right].
  destruct (Z.leb_spec time.Millisecond d); [by left|by right].
Qed.

(** X1: [TruncateDuration] never moves a duration away from zero nor across
    it.  A duration of a second or more is returned as it is; one from a
    millisecond up to a second becomes the whole number of milliseconds
    below it; one below a millisecond (negative ones too, whatever their
    size) becomes a whole number of microseconds less than a microsecond
    away, toward zero. *)
Theorem TruncateDuration_bounds d :
  Z.abs (TruncateDuration d) ≤ Z.abs d
  ∧ 0 ≤ d * TruncateDuration d
  ∧ (time.Second ≤ d → TruncateDuration d = d)
  ∧ (time.Millisecond ≤ d < time.Second →
       (time.Millisecond | TruncateDuration d)
       ∧ TruncateDuration d ≤ d < TruncateDuration d + time.Millisecond)
  ∧ (d < time.Millisecond →
       (time.Microsecond | TruncateDuration d)
       ∧ Z.abs (d - TruncateDuration d) < time.Microsecond).
Proof.
  assert (Hms : 0 < time.Millisecond) by done.
  assert (Hus : 0 < time.Microsecond) by done.
  assert (Hlt : time.Millisecond < time.Second) by done.
  pose proof (Truncate_range d _ Hms) as [P1 N1].
  pose proof (Truncate_range d _ Hus) as [P2 N2].
  pose proof (Truncate_quot d _ Hms) as Q1.
  pose proof (Truncate_quot d _ Hus) as Q2.
  destruct (TruncateDuration_cases d) as [[H ->]|[[H ->]|[H ->]]].
  - split; [lia|]. split; [nia|]. split; [done|]. split; intros; lia.
  - set (t := time.Truncate d time.Millisecond) in *.
    split; [lia|]. split; [nia|]. split; [lia|]. split; [|lia].
    intros _. split; [|lia]. exists (Z.quot d time.Millisecond). lia.
  - set (t := time.Truncate d time.Microsecond) in *.
    split; [lia|]. split; [nia|]. split; [lia|]. split; [lia|].
    intros _. split; [|lia]. exists (Z.quot d time.Microsecond). lia.
Qed.

(** X2: truncating twice is truncating once. *)
Theorem TruncateDuration_idempotent d :
  TruncateDuration (TruncateDuration d) = TruncateDuration d.
Proof.
  assert (Hms : 0 < time.Millisecond) by done.
  assert (Hus : 0 < time.Microsecond) by done.
  assert (Hlt : time.Millisecond < time.Second) by done.
  destruct (TruncateDuration_cases d) as [[H ->]|[[H ->]|[H ->]]].
  - destruct (TruncateDuration_cases d) as [[_ ->]|[[? _]|[? _]]]; [done|lia|lia].
  - pose proof (Truncate_unit d _ Hms (proj1 H)) as Hu.
    pose proof (Truncate_range d _ Hms) as [P _].
    rewrite (Truncate_quot d _ Hms) in *.
    set (q := Z.quot d time.Millisecond) in *.
    destruct (TruncateDuration_cases (time.Millisecond * q))
      as [[? _]|[[_ ->]|[? _]]]; [lia|by apply Truncate_fix|lia].
  - pose proof (Truncate_range d _ Hus) as [P N].
    rewrite (Truncate_quot d _ Hus) in *.
    set (q := Z.quot d time.Microsecond) in *.
    destruct (TruncateDuration_cases (time.Microsecond * q))
      as [[? _]|[[? _]|[_ ->]]]; [lia|lia|by apply Truncate_fix].
Qed.

(** X3: [TruncateDuration] keeps the order of durations, also across the
    two thresholds where its precision changes. *)
Theorem TruncateDuration_monotone d1 d2 :
  d1 ≤ d2 → TruncateDuration d1 ≤ TruncateDuration d2.
Proof.
  intros H.
  assert (Hms : 0 < time.Millisecond) by done.
  assert (Hus : 0 < time.Microsecond) by done.
  assert (Hlt : time.Millisecond < time.Second) by done.
  pose proof (Truncate_mono d1 d2 _ Hms H) as M1.
  pose proof (Truncate_mono d1 d2 _ Hus H) as M2.
  pose proof (Truncate_range d1 _ Hms) as [P1 _].
  pose proof (Truncate_range d1 _ Hus) as [P2 N2].
  pose proof (Truncate_unit d2 _ Hms) as U.
  destruct (TruncateDuration_cases d1) as [[H1 ->]|[[H1 ->]|[H1 ->]]];
    destruct (TruncateDuration_cases d2) as [[H2 ->]|[[H2 ->]|[H2 ->]]];
    lia.
Qed.

Lemma TruncateDuration_monotone_witness :
  TruncateDuration 999999 ≤ TruncateDuration 1000000.
Proof. apply TruncateDuration_monotone. lia. Defined.

Lemma float64_exact n : Z.abs n < 2 ^ 53 → float64 n = n.
Proof.
  intros H. unfold float64.
  destruct (Z.leb_spec (Z.log2 (Z.abs n) + 1) 53) as [|Hb]; [done|].
  destruct (Z.eq_dec (Z.abs n) 0) as [E|E]; [rewrite E in Hb; simpl in Hb; lia|].
  assert (Z.log2 (Z.abs n) < 53); [|lia].
  apply Z.log2_lt_pow2; lia.
Qed.

Lemma hundredths_nearest m k p :
  p = 2 ^ k → 0 < k → 0 ≤ m →
  2 * Z.abs (100 * m - hundredths m k * p) ≤ p
  ∧ (p ≤ m → 100 ≤ hundredths m k).
Proof.
  intros -> Hk Hm. unfold hundredths.
  rewrite Z.shiftr_div_pow2, Z.land_ones, Z.shiftl_1_l by lia.
  assert (Hp : 2 ^ k = 2 * 2 ^ (k - 1)).
  { rewrite <- Z.pow_succ_r by lia. f_equal. lia. }
  assert (0 < 2 ^ (k - 1)) by (apply Z.pow_pos_nonneg; lia).
  set (h := 2 ^ (k - 1)) in *. rewrite Hp.
  pose proof (Z.div_mod (m * 100) (2 * h) ltac:(lia)) as Hdm.
  pose proof (Z.mod_pos_bound (m * 100) (2 * h) ltac:(lia)) as Hb.
  set (q := (m * 100) / (2 * h)) in *. set (r := (m * 100) mod (2 * h)) in *.
  assert (Hq : 2 * h ≤ m → 100 ≤ q).
  { intros Hle. subst q. apply Z.div_le_lower_bound; lia. }
  destruct (h <? r) eqn:E1; [apply Z.ltb_lt in E1|apply Z.ltb_ge in E1]; simpl.
  - split; [nia|]. intros. specialize (Hq ltac:(lia)). lia.
  - destruct (r =? h) eqn:E2; [apply Z.eqb_eq in E2|apply Z.eqb_neq in E2]; simpl.
    + destruct (Z.odd q); (split; [nia|]); intros; specialize (Hq ltac:(lia)); lia.
    + split; [nia|]. intros. specialize (Hq ltac:(lia)). lia.
Qed.

(** X4: for a size from 1024 bytes up to 2^53, [ReadableSize] prints a
    number with two fraction digits and the unit kb below 2^20, mb below
    2^30, gb from there on; the number is at least 1.00 and is the size in
    that unit to the nearest hundredth (it is off by half a hundredth at
    most). *)
Theorem ReadableSize_accuracy size :
  1024 ≤ size < 2 ^ 53 →
  ∃ c k u,
    ReadableSize size = (fixed2 c ++ u)%string
    ∧ 100 ≤ c
    ∧ 2 * Z.abs (100 * size - c * 2 ^ k) ≤ 2 ^ k
    ∧ ((size < 2 ^ 20 ∧ k = 10 ∧ u = "kb")
       ∨ (2 ^ 20 ≤ size < 2 ^ 30 ∧ k = 20 ∧ u = "mb")
       ∨ (2 ^ 30 ≤ size ∧ k = 30 ∧ u = "gb")).
Proof.
  intros [Hlo Hhi]. unfold ReadableSize.
  rewrite float64_exact by lia.
  change (1024 * 1024 * 1024) with (2 ^ 30). change (1024 * 1024) with (2 ^ 20).
  change 1024 with (2 ^ 10) in *.
  destruct (Z.leb_spec (2 ^ 30) size) as [H3|H3];
    [|destruct (Z.leb_spec (2 ^ 20) size) as [H2|H2];
      [|destruct (Z.leb_spec (2 ^ 10) size) as [H1|H1]; [|lia]]].
  - destruct (hundredths_nearest size 30 (2 ^ 30)) as [A B]; try lia.
    exists (hundredths size 30), 30, "gb". split_and!; auto; lia.
  - destruct (hundredths_nearest size 20 (2 ^ 20)) as [A B]; try lia.
    exists (hundredths size 20), 20, "mb". split_and!; auto; lia.
  - destruct (hundredths_nearest size 10 (2 ^ 10)) as [A B]; try lia.
    exists (hundredths size 10), 10, "kb". split_and!; auto; lia.
Qed.

Lemma ReadableSize_accuracy_witness :
  ∃ c k u,
    ReadableSize 2000 = (fixed2 c ++ u)%string
    ∧ 100 ≤ c
    ∧ 2 * Z.abs (100 * 2000 - c * 2 ^ k) ≤ 2 ^ k
    ∧ ((2000 < 2 ^ 20 ∧ k = 10 ∧ u = "kb")
       ∨ (2 ^ 20 ≤ 2000 < 2 ^ 30 ∧ k = 20 ∧ u = "mb")
       ∨ (2 ^ 30 ≤ 2000 ∧ k = 30 ∧ u = "gb")).
Proof. apply ReadableSize_accuracy. lia. Defined.

(** ** [options.go] *)

Example NewOptions_tests :
  let opts2 := NewOptions
    [ WithAccessToken "abc"; WithAppName "xxl-job-executor-sample";
      WithCallbackBufferSize 100; WithCallbackInterval "5s";
      WithClientTimeout time.Second; WithHost "localhost:8080/xxl-job-admin";
      WithLogger DummyLogger; WithRegisterInterval "15s"; WithSizeLimit 20000;
      WithPort 8080; WithIdleTimeout (time.Second * 10);
      WithReadTimeout time.Second; WithWriteTimeout (time.Second * 2);
      WithWaitTimeout (time.Second * 3); WithInterruptSignals [9] ] in
  Options.Host opts2 = "http://localhost:8080/xxl-job-admin"
  ∧ Options.Port opts2 = 8080 ∧ Options.CallbackBufferSize opts2 = 100
  ∧ Options.Port (NewOptions []) = 9999
  ∧ Options.ClientTimeout (NewOptions []) = time.Second * 3.
Proof. vm_compute. repeat split. Qed.

(** X5: [NewOptions] applies its options in the order given, so a last
    [WithHost host] decides the host.  The host it leaves always starts with
    "http": a host that starts with "http" already is kept as it is (and
    only such a host is), any other gets "http://" in front.  Giving the
    result to [WithHost] again changes nothing. *)
Theorem NewOptions_WithHost opts host :
  let o' := NewOptions (opts ++ [WithHost host]) in
  o' = WithHost host (NewOptions opts)
  ∧ String.prefix "http" (Options.Host o') = true
  ∧ (Options.Host o' = host ↔ String.prefix "http" host = true)
  ∧ (String.prefix "http" host = false →
       Options.Host o' = ("http://" ++ host)%string)
  ∧ NewOptions (opts ++ [WithHost host; WithHost (Options.Host o')]) = o'.
Proof.
  assert (Hsnoc : ∀ l opt, NewOptions (l ++ [opt]) = opt (NewOptions l)).
  { intros l opt. unfold NewOptions. by rewrite fold_left_app. }
  assert (Hp : String.prefix "http" ("http://" ++ host)%string = true)
    by reflexivity.
  cbv zeta. rewrite Hsnoc.
  replace (opts ++ [WithHost host; WithHost (Options.Host (WithHost host (NewOptions opts)))])%list
    with ((opts ++ [WithHost host]) ++ [WithHost (Options.Host (WithHost host (NewOptions opts)))])%list
    by (by rewrite <- app_assoc).
  rewrite !Hsnoc. generalize (NewOptions opts). intros o.
  unfold WithHost. simpl.
  destruct (String.prefix "http" host) eqn:E; simpl; rewrite ?E, ?Hp; simpl.
  - split_and!; try done.
  - split_and!; try done. split; [|done].
    intros H. rewrite <- H in E. congruence.
Qed.

(** ** What [TriggerJob] answers and what it has done then *)

Definition trigger_errors : list string :=
  [ "duplicate log id"; "a job of same id is already running";
    "job handler not found" ].

Lemma TriggerJob_outcome params s r s2 :
  TriggerJob params s = Ret r s2 →
  ∃ s1,
    (s1 = s
     ∨ ∃ j o, incumbent s (RunParam.JobID params) = Some (j, o)
              ∧ Job.ctx o ≠ NoContext ∧ s1 = stopped j o s)
    ∧ ((r = None
        ∧ ∃ f, handlers s !! RunParam.ExecutorHandler params = Some (Func f)
               ∧ s2 = scheduled params (Func f) s1)
       ∨ (s2 = s1 ∧ ∃ msg, r = Some msg ∧ msg ∈ trigger_errors)).
Proof.
  unfold TriggerJob, mbind, M_bind.
  destruct (admission params s) as [[msg|] s1|s1] eqn:Ha; [| |done].
  - intros [= <- <-]. exists s1. split.
    { destruct (admission_frame _ _ _ _ Ha) as [->|(j & o & Hi & ? & ? & ->)];
        [by left|done]. }
    right. split; [done|]. exists msg. split; [done|].
    revert Ha. unfold admission, getJob, load, get, mbind, M_bind, mret, M_ret.
    cbv beta. unfold trigger_errors.
    repeat case_match; intros; simplify_eq; set_solver.
  - assert (Hh : handlers s1 = handlers s).
    { destruct (admission_frame _ _ _ _ Ha) as [->|(j & o & _ & _ & _ & ->)]; done. }
    destruct (handlers s1 !! RunParam.ExecutorHandler params) as [[|f]|] eqn:Hf.
    + rewrite (newJob_missing params s1) by (intros [f ?]; congruence).
      intros [= <- <-]. exists s1. split.
      { destruct (admission_frame _ _ _ _ Ha) as [->|(j & o & Hi & ? & ? & ->)];
          [by left|right; eauto]. }
      right. split; [done|]. eexists. split; [done|]. set_solver.
    + rewrite (newJob_found _ _ _ Hf). intros [= <- <-]. exists s1. split.
      { destruct (admission_frame _ _ _ _ Ha) as [->|(j & o & Hi & ? & ? & ->)];
          [by left|right; eauto]. }
      left. split; [done|]. exists f. by rewrite <- Hh.
    + rewrite (newJob_missing params s1) by (intros [f ?]; congruence).
      intros [= <- <-]. exists s1. split.
      { destruct (admission_frame _ _ _ _ Ha) as [->|(j & o & Hi & ? & ? & ->)];
          [by left|right; eauto]. }
      right. split; [done|]. eexists. split; [done|]. set_solver.
Qed.

(** What an endpoint does to the state, with the handler of a new Job. *)
Definition http_made (s s' : state) : Prop :=
  ∃ s1, (s1 = s ∨ ∃ j o, heap s !! j = Some o ∧ Job.ctx o ≠ NoContext
                         ∧ s1 = stopped j o s)
        ∧ (s' = s1 ∨ ∃ params f, s' = scheduled params (Func f) s1).

Lemma step_http_made a s ev s' :
  is_http a → step a s = Some (ev, s') → http_made s s'.
Proof.
  intros Ha Hs. destruct a; try done; simpl in Hs; unfold served, serve in Hs.
  - injection Hs as <- <-. exists s. split; by left.
  - destruct body as [param|err]; simpl in Hs;
      unfold getJob, get, mbind, M_bind, mret, M_ret in Hs;
      [destruct (jobs s !! _)|]; injection Hs as <- <-;
      exists s; split; by left.
  - destruct body as [params|err]; simpl in Hs;
      [|injection Hs as <- <-; exists s; split; by left].
    unfold mbind, M_bind, mret, M_ret in Hs.
    destruct (TriggerJob params s) as [r s2|s2] eqn:Ht.
    + destruct (TriggerJob_outcome _ _ _ _ Ht) as (s1 & H1 & H2).
      assert (s' = s2) as -> by (destruct r; by injection Hs).
      exists s1. split.
      { destruct H1 as [->|(j & o & [_ Hi]%incumbent_Some & ? & ->)];
          [by left|right; eauto]. }
      destruct H2 as [(_ & f & _ & ->)|[-> _]]; [right; eauto|by left].
    + pose proof (TriggerJob_cases params s) as Hc. rewrite Ht in Hc.
      injection Hs as <- <-. subst. exists s. split; by left.
  - pose proof (kill_cases body s) as Hc.
    destruct (kill body s) as [r s2|s2]; injection Hs as <- <-.
    + exists s2. split; [done|by left].
    + subst. exists s. split; by left.
  - destruct body; simpl in Hs; injection Hs as <- <-;
      exists s; split; by left.
Qed.

(** [TriggerJob] puts nothing in the table: that is left to [runJob]. *)
Lemma TriggerJob_table params s r s' :
  TriggerJob params s = Ret r s' →
  ∀ id j, jobs s' !! id = Some j → jobs s !! id = Some j.
Proof.
  intros Ht. destruct (TriggerJob_outcome _ _ _ _ Ht) as (s1 & H1 & H2).
  assert (Hj : ∀ id j, jobs s1 !! id = Some j → jobs s !! id = Some j).
  { destruct H1 as [->|(j & o & _ & _ & ->)]; [done|].
    intros id k Hk. simpl in Hk. apply lookup_delete_Some in Hk. tauto. }
  destruct H2 as [(_ & f & _ & ->)|[-> _]]; done.
Qed.

(** A handler is registered and nothing else has happened. *)
Definition s_ready : state :=
  after [Call_AddJobHandler "demoJobHandler" (Func 0)] (NewExecutor 1024 0).

(** X6: what the run endpoint answers, and what it has done when it
    answers.  The Response never has a content, and the endpoint never puts
    a Job in the table.  A 200 comes with an empty msg and exactly one new
    Job, made from the request and the handler function registered under
    its name, with its [runJob] about to poll and its [watch] waiting.  A
    500 carries the decoder's error, or one of the three errors of
    [TriggerJob]; then no Job is made and no goroutine is started. *)
Theorem trigger_reply body s res s' :
  trigger body s = Ret res s' →
  Response.Content res = None
  ∧ (∀ id j, jobs s' !! id = Some j → jobs s !! id = Some j)
  ∧ ((Response.Code res = 200 ∧ Response.Msg res = EmptyString
      ∧ ∃ params f,
          body = Body params
          ∧ handlers s !! RunParam.ExecutorHandler params = Some (Func f)
          ∧ next s' = S (next s)
          ∧ heap s' !! next s = Some (jobOf params (Func f))
          ∧ runners s' = <[next s := AtGetJob]> (runners s)
          ∧ watchers s' = <[next s := AtRecvDone]> (watchers s))
     ∨ (Response.Code res = 500
        ∧ next s' = next s ∧ runners s' = runners s
        ∧ watchers s' = watchers s ∧ dom (heap s') = dom (heap s)
        ∧ (body = Malformed (Response.Msg res)
           ∨ Response.Msg res ∈ trigger_errors))).
Proof.
  destruct body as [params|err]; simpl.
  2:{ intros [= <- <-]. split; [done|]. split; [done|]. right.
      split_and!; try done. by left. }
  unfold mbind, M_bind, mret, M_ret.
  destruct (TriggerJob params s) as [r s2|s2] eqn:Ht; [|done].
  destruct (TriggerJob_outcome _ _ _ _ Ht) as (s1 & H1 & H2).
  assert (Hs1 : next s1 = next s ∧ runners s1 = runners s
                ∧ watchers s1 = watchers s ∧ dom (heap s1) = dom (heap s)
                ∧ handlers s1 = handlers s
                ∧ ∀ id j, jobs s1 !! id = Some j → jobs s !! id = Some j).
  { destruct H1 as [->|(j & o & [_ Ho]%incumbent_Some & _ & ->)]; [done|].
    simpl. split_and!; try done.
    - rewrite dom_insert_L. apply elem_of_dom_2 in Ho. set_solver.
    - intros id k Hk. apply lookup_delete_Some in Hk. tauto. }
  destruct Hs1 as (Hn & Hr & Hw & Hd & Hh & Hj).
  destruct H2 as [(-> & f & Hf & ->)|(-> & msg & -> & Hm)]; intros [= <- <-].
  - split; [done|]. split; [done|]. left. split_and!; try done.
    exists params, f. simpl. rewrite Hn, Hr, Hw.
    split_and!; try done. by rewrite lookup_insert_eq.
  - split; [done|]. split; [done|]. right. split_and!; try done. by right.
Qed.

Lemma trigger_reply_witness :
  Response.Content (@NewSuccResponse LogResult.t) = None
  ∧ (∀ id j,
       jobs (scheduled (demo_run 1 "demoJobHandler" SerialExecution 1) (Func 0)
               s_ready) !! id = Some j →
       jobs s_ready !! id = Some j).
Proof.
  pose proof (trigger_reply
    (Body (demo_run 1 "demoJobHandler" SerialExecution 1)) s_ready
    NewSuccResponse
    (scheduled (demo_run 1 "demoJobHandler" SerialExecution 1) (Func 0) s_ready))
    as H.
  split; apply H; vm_compute; reflexivity.
Defined.

(** X7: serving a run request does not make any job id busy: an id that
    [idleBeat] reported idle before the request is still reported idle right
    after it, the id of the job just accepted included.  The id becomes busy
    when the [runJob] goroutine inserts the Job. *)
Theorem idleBeat_after_trigger body param s res s' :
  trigger body s = Ret res s' →
  idleBeat (Body param) s = Ret NewSuccResponse s →
  idleBeat (Body param) s' = Ret NewSuccResponse s'.
Proof.
  intros Ht.
  assert (Hj : ∀ id j, jobs s' !! id = Some j → jobs s !! id = Some j).
  { destruct body as [params|err]; simpl in Ht; [|by injection Ht as _ <-].
    unfold mbind, M_bind, mret, M_ret in Ht.
    destruct (TriggerJob params s) as [r s2|s2] eqn:E; [|done].
    assert (s' = s2) as -> by (destruct r; by injection Ht).
    by eapply TriggerJob_table. }
  unfold idleBeat, getJob, get, mbind, M_bind, mret, M_ret.
  destruct (jobs s' !! IdleBeatParam.JobID param) as [j|] eqn:E; [|done].
  by rewrite (Hj _ _ E).
Qed.

Lemma idleBeat_after_trigger_witness :
  idleBeat (Body (IdleBeatParam.mk 1))
    (scheduled (demo_run 1 "demoJobHandler" SerialExecution 1) (Func 0) s_ready)
  = Ret NewSuccResponse
      (scheduled (demo_run 1 "demoJobHandler" SerialExecution 1) (Func 0) s_ready).
Proof.
  apply (idleBeat_after_trigger
           (Body (demo_run 1 "demoJobHandler" SerialExecution 1))
           (IdleBeatParam.mk 1) s_ready NewSuccResponse).
  - vm_compute. reflexivity.
  - vm_compute. reflexivity.
Defined.

Lemma reachable_Inv s : reachable s → ∃ evs, Inv evs s.
Proof.
  intros (size & t0 & sched & evs & H). exists evs. by eapply Inv_reachable.
Qed.

(** X8: SERIAL_EXECUTION, and any block strategy that is neither
    DISCARD_LATER nor COVER_EARLY (the empty string, a misspelt name): a
    trigger for a job id that has an incumbent with another log id is
    accepted when its handler is registered; the new Job and its goroutines
    are made, and the incumbent stays in the table as it is. *)
Theorem TriggerJob_queues_behind_incumbent params s j o f :
  reachable s →
  incumbent s (RunParam.JobID params) = Some (j, o) →
  Job.LogID o ≠ RunParam.LogID params →
  RunParam.ExecutorBlockStrategy params ≠ DiscardLater →
  RunParam.ExecutorBlockStrategy params ≠ CoverEarly →
  handlers s !! RunParam.ExecutorHandler params = Some (Func f) →
  TriggerJob params s = Ret None (scheduled params (Func f) s)
  ∧ incumbent (scheduled params (Func f) s) (RunParam.JobID params)
    = Some (j, o).
Proof.
  intros [evs HI]%reachable_Inv Hi Hl Hd Hc Hf. split.
  - apply TriggerJob_found; [|done]. by eapply admission_serial.
  - apply incumbent_Some in Hi as [Hj Ho]. apply incumbent_Some. simpl.
    split; [done|]. rewrite lookup_insert_ne; [done|]. intros <-.
    pose proof (proj1 HI (next s)) as Hn. unfold job_inv in Hn.
    rewrite Ho in Hn. lia.
Qed.

Lemma TriggerJob_queues_behind_incumbent_witness :
  TriggerJob (demo_run 1 "demoJobHandler" "serial_execution" 2) s_running
  = Ret None
      (scheduled (demo_run 1 "demoJobHandler" "serial_execution" 2) (Func 0)
         s_running).
Proof.
  refine (proj1 (TriggerJob_queues_behind_incumbent
    (demo_run 1 "demoJobHandler" "serial_execution" 2) s_running 0%nat
    (Job.set_StartTime 0 (Job.set_ctx (Live None)
       (jobOf (demo_run 1 "demoJobHandler" SerialExecution 1) (Func 0))))
    0%nat s_running_reachable _ _ _ _ _)).
  - vm_compute. reflexivity.
  - vm_compute. discriminate.
  - vm_compute. discriminate.
  - vm_compute. discriminate.
  - vm_compute. reflexivity.
Defined.

(** X9: the handler registry against [TriggerJob], for a job id with no
    incumbent.  [GetJobHandler] returns what [AddJobHandler] stored last
    under the name, and nil after [RemoveJobHandler].  After
    [AddJobHandler name f] a trigger naming [name] is accepted with [f] as
    the handler of the new Job, whatever was registered before; after
    [RemoveJobHandler name], and after [AddJobHandler name nil], it fails
    with "job handler not found" and makes no Job. *)
Theorem handler_registry name h params s :
  RunParam.ExecutorHandler params = name →
  jobs s !! RunParam.JobID params = None →
  (AddJobHandler name h;; GetJobHandler name) s
    = Ret h (set_handlers <[name := h]> s)
  ∧ (RemoveJobHandler name;; GetJobHandler name) s
    = Ret NilHandler (set_handlers (delete name) s)
  ∧ (∀ f, (AddJobHandler name (Func f);; TriggerJob params) s
          = Ret None (scheduled params (Func f)
                        (set_handlers <[name := Func f]> s)))
  ∧ (AddJobHandler name NilHandler;; TriggerJob params) s
    = Ret (Some "job handler not found")
        (set_handlers <[name := NilHandler]> s)
  ∧ (RemoveJobHandler name;; TriggerJob params) s
    = Ret (Some "job handler not found") (set_handlers (delete name) s).
Proof.
  intros Hn Hj. split_and!.
  - unfold_M. simpl. rewrite lookup_insert_eq. by destruct h.
  - unfold_M. simpl. by rewrite lookup_delete_eq.
  - intros f. unfold mbind at 1, M_bind at 1, AddJobHandler, modify.
    apply TriggerJob_found.
    + by apply admission_free.
    + simpl. by rewrite Hn, lookup_insert_eq.
  - unfold mbind at 1, M_bind at 1, AddJobHandler, modify.
    apply TriggerJob_missing.
    + by apply admission_free.
    + intros [f Hf]. simpl in Hf. by rewrite Hn, lookup_insert_eq in Hf.
  - unfold mbind at 1, M_bind at 1, RemoveJobHandler, modify.
    apply TriggerJob_missing.
    + by apply admission_free.
    + intros [f Hf]. simpl in Hf. by rewrite Hn, lookup_delete_eq in Hf.
Qed.

Lemma handler_registry_witness :
  (RemoveJobHandler "demoJobHandler";;
   TriggerJob (demo_run 1 "demoJobHandler" SerialExecution 1)) s_ready
  = Ret (Some "job handler not found")
      (set_handlers (delete "demoJobHandler") s_ready).
Proof.
  refine (proj2 (proj2 (proj2 (proj2 (handler_registry "demoJobHandler"
    NilHandler (demo_run 1 "demoJobHandler" SerialExecution 1) s_ready _ _))))).
  - reflexivity.
  - vm_compute. reflexivity.
Defined.

Lemma context_cases (c : context) : c = NoContext ∨ c ≠ NoContext.
Proof. destruct c; auto. Qed.

(** X10: kill is idempotent.  In a state the executor can be in, when a
    kill request is answered, the job id of the request has no table entry
    afterwards, and the same request served again gets the same answer and
    changes nothing. *)
Theorem kill_twice body s res s1 :
  reachable s →
  kill body s = Ret res s1 →
  kill body s1 = Ret res s1
  ∧ (∀ param, body = Body param → jobs s1 !! KillParam.JobID param = None).
Proof.
  intros [evs HI]%reachable_Inv.
  destruct body as [param|err]; [|by intros [= <- <-]].
  intros Hk. pose proof (kill_never_fails _ _ _ _ Hk) as ->.
  assert (Hn : jobs s1 !! KillParam.JobID param = None).
  { destruct (jobs s !! KillParam.JobID param) as [j|] eqn:Hj.
    - destruct (proj2 HI _ _ Hj) as (o & r & Ho & Hid & _).
      assert (Hi : incumbent s (KillParam.JobID param) = Some (j, o))
        by by apply incumbent_Some.
      destruct (context_cases (Job.ctx o)) as [Hc|Hc].
      + by rewrite (kill_unstarted _ _ _ _ Hi Hc) in Hk.
      + rewrite (kill_started _ _ _ _ Hi Hc) in Hk. injection Hk as <-.
        simpl. rewrite Hid. apply lookup_delete_eq.
    - rewrite (kill_absent _ _ Hj) in Hk. by injection Hk as <-. }
  split; [by apply kill_absent|]. by intros ? [= <-].
Qed.

Lemma kill_twice_witness :
  kill (Body (KillParam.mk 1))
    (stopped 0%nat
       (Job.set_StartTime 0 (Job.set_ctx (Live None)
          (jobOf (demo_run 1 "demoJobHandler" SerialExecution 1) (Func 0))))
       s_running)
  = Ret NewSuccResponse
      (stopped 0%nat
         (Job.set_StartTime 0 (Job.set_ctx (Live None)
            (jobOf (demo_run 1 "demoJobHandler" SerialExecution 1) (Func 0))))
         s_running).
Proof.
  refine (proj1 (kill_twice (Body (KillParam.mk 1)) s_running NewSuccResponse
                   _ s_running_reachable _)).
  vm_compute. reflexivity.
Defined.

(** X11: when the executor drops a request (the endpoint panics and
    net/http recovers), the state is as before the request, and the request
    was a kill, or a run with COVER_EARLY and another log id, for a job id
    whose incumbent stands between [addJob] and [Run].  No other request is
    ever dropped. *)
Theorem dropped_request a s s' :
  reachable s → is_http a → step a s = Some (Replied None, s') →
  s' = s
  ∧ ∃ id j o,
      incumbent s id = Some (j, o) ∧ runners s !! j = Some AtRun
      ∧ ((∃ param, a = Http_kill (Body param) ∧ KillParam.JobID param = id)
         ∨ (∃ params, a = Http_run (Body params)
                      ∧ RunParam.JobID params = id
                      ∧ RunParam.ExecutorBlockStrategy params = CoverEarly
                      ∧ Job.LogID o ≠ RunParam.LogID params)).
Proof.
  intros Hreach Ha Hs. destruct (reachable_Inv _ Hreach) as [evs HI].
  destruct a; try done; simpl in Hs; unfold served, serve in Hs.
  - destruct body; simpl in Hs;
      unfold getJob, get, mbind, M_bind, mret, M_ret in Hs;
      [destruct (jobs s !! _)|]; done.
  - destruct body as [params|err]; [|done]. simpl in Hs.
    unfold mbind, M_bind, mret, M_ret in Hs.
    destruct (TriggerJob params s) as [[?|] s2|s2] eqn:Ht; try done.
    injection Hs as <-.
    pose proof (TriggerJob_cases params s) as Hc. rewrite Ht in Hc.
    split; [done|]. subst s2. revert Ht.
    unfold TriggerJob, mbind, M_bind.
    destruct (admission params s) as [[msg|] s1|s1] eqn:Had.
    + done.
    + destruct (newJob params s1) as [[?|?] ?|?] eqn:Hn; try done.
      revert Hn. unfold_M. by repeat case_match.
    + intros _. revert Had.
      unfold admission, getJob, load, get, mbind, M_bind, mret, M_ret. cbv beta.
      destruct (jobs s !! RunParam.JobID params) as [j|] eqn:Hj;
        [|by repeat case_match].
      destruct (proj2 HI _ _ Hj) as (o & r & Ho & Hid & _). rewrite Ho.
      destruct (Z.eqb_spec (Job.LogID o) (RunParam.LogID params)); [done|].
      destruct (String.eqb_spec (RunParam.ExecutorBlockStrategy params) DiscardLater); [done|].
      destruct (String.eqb_spec (RunParam.ExecutorBlockStrategy params) CoverEarly); [|done].
      intros Hp.
      assert (Hi : incumbent s (RunParam.JobID params) = Some (j, o))
        by by apply incumbent_Some.
      destruct (context_cases (Job.ctx o)) as [Hc|Hc].
      * exists (RunParam.JobID params), j, o. split; [done|].
        split; [by apply (incumbent_context s (RunParam.JobID params) j o)|].
        right. by exists params.
      * by rewrite (stopJob_started _ _ _ Ho Hc) in Hp.
  - destruct body as [param|err]; [|done].
    destruct (kill (Body param) s) as [r s2|s2] eqn:Hk; [done|].
    injection Hs as <-.
    pose proof (kill_cases (Body param) s) as Hc. rewrite Hk in Hc.
    split; [done|]. subst s2.
    destruct (jobs s !! KillParam.JobID param) as [j|] eqn:Hj;
      [|by rewrite (kill_absent _ _ Hj) in Hk].
    destruct (proj2 HI _ _ Hj) as (o & r & Ho & Hid & _).
    assert (Hi : incumbent s (KillParam.JobID param) = Some (j, o))
      by by apply incumbent_Some.
    destruct (context_cases (Job.ctx o)) as [Hc|Hc];
      [|by rewrite (kill_started _ _ _ _ Hi Hc) in Hk].
    exists (KillParam.JobID param), j, o. split; [done|].
    split; [by apply (incumbent_context s (KillParam.JobID param) j o)|].
    left. by exists param.
  - by destruct body.
Qed.

Lemma dropped_request_witness :
  after [Http_kill (Body (KillParam.mk 1))] s_inserted = s_inserted.
Proof.
  refine (proj1 (dropped_request (Http_kill (Body (KillParam.mk 1)))
                   s_inserted _ s_inserted_reachable I _)).
  vm_compute. reflexivity.
Defined.

(** ** The callback queue *)

(** The callbacks that the watchers have sent, and the callbacks that
    [notifyResult] has handed to [callback], oldest first. *)
Definition enqueued (evs : list event) : list CallbackParam.t :=
  omap (λ ev, match ev with Enqueued _ cb => Some cb | _ => None end) evs.

Definition reported (evs : list event) : list CallbackParam.t :=
  concat (omap (λ ev, match ev with Reported batch => Some batch | _ => None end)
            evs).

Lemma http_made_queue s s' :
  http_made s s' →
  callbackChan s' = callbackChan s
  ∧ CallbackBufferSize s' = CallbackBufferSize s.
Proof.
  intros (s1 & [->|(j & o & _ & _ & ->)] & [->|(params & f & ->)]); done.
Qed.

Lemma step_queue a s ev s' :
  step a s = Some (ev, s') →
  CallbackBufferSize s' = CallbackBufferSize s
  ∧ match ev with
    | Enqueued _ cb =>
        callbackChan s' = (callbackChan s ++ [cb])%list
        ∧ (length (callbackChan s) < CallbackBufferSize s)%nat
    | Reported batch =>
        batch = callbackChan s ∧ batch ≠ [] ∧ callbackChan s' = []
    | _ => callbackChan s' = callbackChan s
    end.
Proof.
  intros Hs.
  destruct (decide (is_http a)) as [Ha|Ha].
  { destruct (step_http _ _ _ _ Ha Hs) as [[res ->] _].
    destruct (http_made_queue _ _ (step_http_made _ _ _ _ Ha Hs)). done. }
  destruct a; simpl in Ha; try tauto; clear Ha; simpl in Hs;
    unfold called, runJob_step, handler_returns, watch_step,
      notifyResult, expire, getJob, addJob, load, get, modify,
      AddJobHandler, RemoveJobHandler, mbind, M_bind, mret, M_ret in Hs;
    cbv beta in Hs; simpl in Hs;
    repeat (case_match; simplify_eq; try done); simplify_eq; simpl;
    try done.
  split; [done|]. split; [done|]. by apply Nat.ltb_lt.
Qed.

Lemma enqueued_snoc evs ev :
  enqueued (evs ++ [ev])
  = (enqueued evs ++ match ev with Enqueued _ cb => [cb] | _ => [] end)%list.
Proof. unfold enqueued. rewrite omap_app. by destruct ev. Qed.

Lemma reported_snoc evs ev :
  reported (evs ++ [ev])
  = (reported evs ++ match ev with Reported batch => batch | _ => [] end)%list.
Proof.
  unfold reported. rewrite omap_app, concat_app.
  destruct ev; simpl; by rewrite ?app_nil_r.
Qed.

Definition queue_inv (size : nat) (evs : list event) (s : state) : Prop :=
  CallbackBufferSize s = size
  ∧ (length (callbackChan s) ≤ size)%nat
  ∧ enqueued evs = (reported evs ++ callbackChan s)%list.

Lemma queue_inv_step size evs s a ev s' :
  queue_inv size evs s → step a s = Some (ev, s') →
  queue_inv size (evs ++ [ev]) s'.
Proof.
  intros (Hsz & Hlen & Hq) Hs. destruct (step_queue _ _ _ _ Hs) as [Hsz' Hev].
  unfold queue_inv. rewrite enqueued_snoc, reported_snoc, Hsz', Hq.
  destruct ev; try (rewrite Hev, !app_nil_r; done).
  - destruct Hev as [-> Hlt]. rewrite length_app, app_assoc, !app_nil_r. simpl.
    split; [done|]. split; [lia|done].
  - destruct Hev as (-> & _ & ->). rewrite !app_nil_r. simpl.
    split; [done|]. split; [lia|done].
Qed.

Lemma queue_inv_reachable size t0 sched evs s :
  exec sched (NewExecutor size t0) = Some (evs, s) → queue_inv size evs s.
Proof.
  intros H.
  apply (exec_invariant (queue_inv size)) with (sched := sched) (pre := [])
    (s0 := NewExecutor size t0); [|by repeat split; simpl; try lia|done].
  intros. by eapply queue_inv_step.
Qed.

(** X12: along every run, the callbacks that the watchers have sent are,
    in the order of sending, the callbacks that [notifyResult] has handed to
    [callback] followed by those still in the channel: none is lost,
    doubled or reordered.  The channel never holds more than
    [CallbackBufferSize] callbacks. *)
Theorem callbacks_conserved size t0 sched evs s :
  exec sched (NewExecutor size t0) = Some (evs, s) →
  enqueued evs = (reported evs ++ callbackChan s)%list
  ∧ (length (callbackChan s) ≤ size)%nat.
Proof. intros H. destruct (queue_inv_reachable _ _ _ _ _ H) as (_ & ? & ?). done. Qed.

Lemma callbacks_conserved_witness :
  enqueued (shown (sched_reported ++ [Timer_notifier]) (NewExecutor 1024 0))
  = (reported (shown (sched_reported ++ [Timer_notifier]) (NewExecutor 1024 0))
     ++ callbackChan (after (sched_reported ++ [Timer_notifier]) (NewExecutor 1024 0)))%list.
Proof.
  refine (proj1 (callbacks_conserved 1024 0 (sched_reported ++ [Timer_notifier])
            _ _ _)).
  vm_compute. reflexivity.
Defined.

(** The handler of Job 1 has returned and its watcher is about to send the
    callback. *)
Definition sched_done : list action :=
  (sched_running ++
   [ Handle_returns 0%nat None;
     Go_runJob 0%nat;
     Go_watch 0%nat; Go_watch 0%nat ])%list.

Lemma callbacks_enqueued k evs :
  callbacks k evs ⊆ enqueued evs.
Proof.
  intros cb. unfold callbacks, enqueued. rewrite !list_elem_of_omap.
  intros (ev & Hin & Hev). exists ev. split; [done|].
  destruct ev; try done. by case_decide.
Qed.

(** X13: with a callback buffer of size 0 the channel is unbuffered: a
    watcher can send only to a receiver that waits, and [notifyResult]
    returns at once when [len] of the channel is 0, which it always is.  So
    no callback is ever sent or reported, and no watcher ever returns. *)
Theorem unbuffered_queue_reports_nothing t0 sched evs s :
  exec sched (NewExecutor 0 t0) = Some (evs, s) →
  enqueued evs = [] ∧ reported evs = [] ∧ callbackChan s = []
  ∧ ∀ k, watchers s !! k ≠ Some WatchReturned.
Proof.
  intros H. destruct (queue_inv_reachable _ _ _ _ _ H) as (_ & Hlen & Hq).
  assert (Hc : callbackChan s = []).
  { destruct (callbackChan s); [done|simpl in Hlen; lia]. }
  assert (He : enqueued evs = []).
  { enough (CallbackBufferSize s = 0%nat ∧ enqueued ([] ++ evs) = []) by tauto.
    apply (exec_invariant (λ evs s, CallbackBufferSize s = 0%nat ∧ enqueued evs = []))
      with (sched := sched) (s0 := NewExecutor 0 t0); [|done|done].
    intros evs1 s1 a ev s1' [Hs1 He1] Hstep.
    destruct (step_queue _ _ _ _ Hstep) as [Hsz' Hev].
    rewrite enqueued_snoc, He1, Hsz'. split; [done|].
    destruct ev; try done. destruct Hev as [_ Hlt]. lia. }
  rewrite He, Hc, app_nil_r in Hq. split_and!; try done.
  intros k Hw. pose proof (Inv_reachable _ _ _ _ _ H) as [Hj _].
  specialize (Hj k). unfold job_inv in Hj.
  destruct (heap s !! k) as [o|]; [|destruct Hj as (_ & _ & ? & _); congruence].
  destruct Hj as (_ & r & w & Hr & Hw' & Hl).
  assert (w = WatchReturned) as -> by congruence.
  assert (∃ cb, callbacks k evs = [cb]) as [cb Hcb].
  { destruct r; simpl in Hl; unfold quiet in Hl; try naive_solver. }
  pose proof (callbacks_enqueued k evs cb) as Hin.
  rewrite Hcb, He in Hin. set_solver.
Qed.

Lemma unbuffered_queue_reports_nothing_witness :
  callbackChan (after sched_done (NewExecutor 0 0)) = [].
Proof.
  refine (proj1 (proj2 (proj2 (unbuffered_queue_reports_nothing 0 sched_done
    (shown sched_done (NewExecutor 0 0)) _ _)))).
  vm_compute. reflexivity.
Defined.

(** ** What a Job keeps from [newJob] *)

(** The fields that [newJob] sets and nothing assigns afterwards. *)
Definition same_job (o o' : Job.t) : Prop :=
  Job.ID o' = Job.ID o ∧ Job.LogID o' = Job.LogID o
  ∧ Job.LogDateTime o' = Job.LogDateTime o ∧ Job.Name o' = Job.Name o
  ∧ Job.Handle o' = Job.Handle o ∧ Job.Param o' = Job.Param o
  ∧ Job.Timeout o' = Job.Timeout o ∧ Job.LogDir o' = Job.LogDir o.

Lemma same_job_refl o : same_job o o.
Proof. by repeat split. Qed.

Lemma same_job_trans o1 o2 o3 : same_job o1 o2 → same_job o2 o3 → same_job o1 o3.
Proof. unfold same_job. intros H1 H2. destruct_and!. split_and!; congruence. Qed.

(** The heap after a step: a Job that was there is there with the same
    fields, and a Job that was not there has just been made by [newJob]. *)
Definition heap_grows (s s' : state) : Prop :=
  (∀ k o, heap s !! k = Some o → ∃ o', heap s' !! k = Some o' ∧ same_job o o')
  ∧ (∀ k o', heap s' !! k = Some o' → heap s !! k = None →
       ∃ params f, o' = jobOf params (Func f)).

Lemma heap_grows_refl s : heap_grows s s.
Proof.
  split; [|congruence]. intros k o Ho. exists o. split; [done|apply same_job_refl].
Qed.

Lemma heap_grows_eq s s' : heap s' = heap s → heap_grows s s'.
Proof.
  intros E. split; rewrite E; [|congruence].
  intros k o Ho. exists o. split; [done|apply same_job_refl].
Qed.

Lemma heap_grows_touch s s' j o o' :
  heap s !! j = Some o → same_job o o' →
  heap s' = <[j := o']> (heap s) →
  heap_grows s s'.
Proof.
  intros Ho Hsame E. split; rewrite E.
  - intros k ok Hk. destruct (decide (k = j)) as [->|Hne].
    + rewrite lookup_insert_eq. exists o'. split; [done|]. congruence.
    + rewrite lookup_insert_ne by done. exists ok. split; [done|apply same_job_refl].
  - intros k ok. destruct (decide (k = j)) as [->|Hne].
    + congruence.
    + rewrite lookup_insert_ne by done. congruence.
Qed.

Lemma heap_grows_http evs s s' :
  Inv evs s → http_made s s' → heap_grows s s'.
Proof.
  intros HI (s1 & H1 & H2).
  assert (HI1 : Inv evs s1).
  { destruct H1 as [->|(j & o & Ho & _ & ->)]; [done|]. by apply Inv_stopped. }
  assert (Hg1 : heap_grows s s1).
  { destruct H1 as [->|(j & o & Ho & _ & ->)]; [apply heap_grows_refl|].
    by apply (heap_grows_touch s _ j o (Job.set_ctx Cancelled o)). }
  destruct H2 as [->|(params & f & ->)]; [done|].
  assert (Hfresh : heap s1 !! next s1 = None).
  { pose proof (proj1 HI1 (next s1)) as Hn. unfold job_inv in Hn.
    destruct (heap s1 !! next s1); [lia|done]. }
  destruct Hg1 as [Hold Hnew]. split.
  - intros k o Ho. destruct (Hold k o Ho) as (o' & Ho' & Hs).
    exists o'. split; [|done]. simpl. rewrite lookup_insert_ne; [done|].
    intros <-. congruence.
  - intros k o' Ho' Hk. simpl in Ho'.
    destruct (decide (k = next s1)) as [->|Hne].
    + rewrite lookup_insert_eq in Ho'. injection Ho' as <-. eauto.
    + rewrite lookup_insert_ne in Ho' by done. eauto.
Qed.

Lemma heap_grows_step evs s a ev s' :
  Inv evs s → step a s = Some (ev, s') → heap_grows s s'.
Proof.
  intros HI Hs.
  destruct (decide (is_http a)) as [Ha|Ha].
  { eapply heap_grows_http; [done|]. by eapply step_http_made. }
  destruct a; simpl in Ha; try tauto; clear Ha; simpl in Hs;
    unfold called, runJob_step, handler_returns, watch_step,
      notifyResult, expire, getJob, addJob, load, get, modify,
      AddJobHandler, RemoveJobHandler, mbind, M_bind, mret, M_ret in Hs;
    cbv beta in Hs; simpl in Hs;
    repeat (case_match; simplify_eq; try done); simplify_eq;
    try (by apply heap_grows_eq);
    (eapply (heap_grows_touch s _ job); [eassumption| |reflexivity]);
    by repeat split.
Qed.

(** Every Job has been made by [newJob]: its handler is a function, it has
    no log directory and no log date. *)
Definition made_by_newJob (o : Job.t) : Prop :=
  (∃ f, Job.Handle o = Func f) ∧ Job.LogDir o = EmptyString
  ∧ Job.LogDateTime o = 0.

Lemma made_by_newJob_same o o' : same_job o o' → made_by_newJob o → made_by_newJob o'.
Proof.
  intros (_ & _ & Hd & _ & Hh & _ & _ & Hl) ([f Hf] & ? & ?).
  split; [exists f; congruence|]. split; congruence.
Qed.

Lemma made_reachable size t0 sched evs s :
  exec sched (NewExecutor size t0) = Some (evs, s) →
  ∀ k o, heap s !! k = Some o → made_by_newJob o.
Proof.
  intros H.
  enough (Inv evs s ∧ ∀ k o, heap s !! k = Some o → made_by_newJob o) by tauto.
  apply (exec_invariant (λ evs s, Inv evs s ∧ ∀ k o, heap s !! k = Some o → made_by_newJob o))
    with (sched := sched) (pre := []) (s0 := NewExecutor size t0); [| |done].
  - intros evs0 s0 a ev s' [HI Hm] Hs. split; [by eapply Inv_step|].
    destruct (heap_grows_step _ _ _ _ _ HI Hs) as [Hold Hnew].
    intros k o' Ho'. destruct (heap s0 !! k) as [o|] eqn:Ho.
    + destruct (Hold k o Ho) as (o1 & Ho1 & Hsame).
      assert (o1 = o') as -> by congruence.
      eapply made_by_newJob_same; [done|]. by eapply Hm.
    + destruct (Hnew k o' Ho' Ho) as (params & f & ->).
      split; [by exists f|done].
  - split; [apply Inv_init|]. intros k o Hk. simpl in Hk.
    by rewrite lookup_empty in Hk.
Qed.

(** X14: a Job stays on the heap for good, and along every run it keeps
    the ID, LogID, LogDateTime, Name, Handle, Param, Timeout and LogDir that
    [newJob] gave it (registering another handler under its name later does
    not change its Handle).  Its Handle is never nil, and its LogDir is
    empty, so [Run] opens no log file. *)
Theorem Job_identity_kept s sched evs s' k o :
  reachable s → exec sched s = Some (evs, s') → heap s !! k = Some o →
  ∃ o', heap s' !! k = Some o'
        ∧ same_job o o'
        ∧ Job.Handle o' ≠ NilHandler
        ∧ Job.LogDir o' = EmptyString.
Proof.
  intros (size & t0 & sched0 & evs0 & Hs0) Hexec Ho.
  pose proof (Inv_reachable _ _ _ _ _ Hs0) as HI0.
  pose proof (made_reachable _ _ _ _ _ Hs0 k o Ho) as Hm.
  enough (Inv (evs0 ++ evs) s' ∧ ∃ o', heap s' !! k = Some o' ∧ same_job o o')
    as (_ & o' & Ho' & Hsame).
  { exists o'. split; [done|]. split; [done|].
    destruct (made_by_newJob_same _ _ Hsame Hm) as ([f Hf] & Hl & _).
    split; [congruence|done]. }
  apply (exec_invariant (λ evs s, Inv evs s ∧ ∃ o', heap s !! k = Some o' ∧ same_job o o'))
    with (sched := sched) (s0 := s); [| |done].
  - intros evs1 s1 a ev s1' [HI (o1 & Ho1 & Hs1)] Hstep.
    split; [by eapply Inv_step|].
    destruct (heap_grows_step _ _ _ _ _ HI Hstep) as [Hold _].
    destruct (Hold k o1 Ho1) as (o2 & Ho2 & Hs2).
    exists o2. split; [done|]. by eapply same_job_trans.
  - split; [done|]. exists o. split; [done|apply same_job_refl].
Qed.

Lemma Job_identity_kept_witness :
  ∃ o', heap (after [Handle_returns 0%nat None; Go_runJob 0%nat] s_running)
          !! 0%nat = Some o'
        ∧ same_job (Job.set_StartTime 0 (Job.set_ctx (Live None)
             (jobOf (demo_run 1 "demoJobHandler" SerialExecution 1) (Func 0)))) o'
        ∧ Job.Handle o' ≠ NilHandler
        ∧ Job.LogDir o' = EmptyString.
Proof.
  refine (Job_identity_kept s_running
    [Handle_returns 0%nat None; Go_runJob 0%nat]
    (shown [Handle_returns 0%nat None; Go_runJob 0%nat] s_running)
    (after [Handle_returns 0%nat None; Go_runJob 0%nat] s_running)
    0%nat _ s_running_reachable _ _).
  - vm_compute. reflexivity.
  - vm_compute. reflexivity.
Defined.

(** ** Clocks: start, end, deadline *)

(** The context of a started Job against its [Timeout]. *)
Definition deadline_ok (o : Job.t) : Prop :=
  match Job.ctx o with
  | Live (Some d) =>
      0 < Job.Timeout o ∧ d = Job.StartTime o + Job.Timeout o * Second
  | Live None => Job.Timeout o ≤ 0
  | NoContext | Cancelled => True
  end.

(** What the watcher has recorded. *)
Definition ended (o : Job.t) (w : watch_pc) (t : Z) : Prop :=
  match w with
  | AtRecvDone => True
  | AtDelete _ | WatchReturned => Job.StartTime o ≤ Job.EndTime o ≤ t
  | AtSendCallback cb =>
      Job.StartTime o ≤ Job.EndTime o ≤ CallbackParam.LogDateTime cb
      ∧ CallbackParam.LogDateTime cb ≤ t
  end.

Definition clock_inv (s : state) : Prop :=
  ∀ k o r w, heap s !! k = Some o → runners s !! k = Some r →
    watchers s !! k = Some w →
    (¬ before_Run r → Job.StartTime o ≤ now s ∧ deadline_ok o)
    ∧ ended o w (now s).

Lemma clock_inv_http evs s s' :
  Inv evs s → clock_inv s → http_made s s' → clock_inv s'.
Proof.
  intros HI Hq (s1 & H1 & H2).
  assert (Hq1 : clock_inv s1).
  { destruct H1 as [->|(j & o & Ho & Hc & ->)]; [done|].
    intros k o' r w Hk Hr Hw. simpl in Hk, Hr, Hw.
    destruct (decide (k = j)) as [->|Hne].
    - rewrite lookup_insert_eq in Hk. injection Hk as <-.
      destruct (Hq j o r w Ho Hr Hw) as [A B]. split; [|by destruct w].
      intros Hb. destruct (A Hb). done.
    - rewrite lookup_insert_ne in Hk by done. by apply (Hq k o' r w). }
  destruct H2 as [->|(params & h & ->)]; [done|].
  intros k o r w Hk Hr Hw. simpl in Hk, Hr, Hw.
  destruct (decide (k = next s1)) as [->|Hne].
  - rewrite lookup_insert_eq in Hk. rewrite lookup_insert_eq in Hr.
    rewrite lookup_insert_eq in Hw. by simplify_eq.
  - rewrite lookup_insert_ne in Hk by done.
    rewrite lookup_insert_ne in Hr by done.
    rewrite lookup_insert_ne in Hw by done. by apply (Hq1 k o r w).
Qed.

Lemma Inv_life evs s k o r w :
  Inv evs s → heap s !! k = Some o → runners s !! k = Some r →
  watchers s !! k = Some w → life k evs o r w.
Proof.
  intros [Hj _] Ho Hr Hw. specialize (Hj k). unfold job_inv in Hj.
  rewrite Ho in Hj. destruct Hj as (_ & r' & w' & Hr' & Hw' & Hl).
  congruence.
Qed.

(** The watcher waits for [done] until [runJob] has returned, and [done]
    is empty until then. *)
Lemma Inv_watch_waits evs s k o r w :
  Inv evs s → heap s !! k = Some o → runners s !! k = Some r →
  watchers s !! k = Some w →
  (r ≠ RunReturned → w = AtRecvDone ∧ Job.done o = []).
Proof.
  intros HI Ho Hr Hw Hne. pose proof (Inv_life _ _ _ _ _ _ HI Ho Hr Hw) as Hl.
  destruct r; simpl in Hl; unfold quiet in Hl; try done; naive_solver.
Qed.

Lemma clock_inv_step evs s a ev s' :
  Inv evs s → ctx_inv s → clock_inv s → step a s = Some (ev, s') →
  clock_inv s'.
Proof.
  intros HI Hc Hq Hs.
  destruct (decide (is_http a)) as [Ha|Ha].
  { eapply clock_inv_http; [done|done|]. by eapply step_http_made. }
  destruct a; simpl in Ha; try tauto; clear Ha; simpl in Hs;
    unfold called, runJob_step, handler_returns, watch_step,
      notifyResult, expire, getJob, addJob, load, get, modify,
      AddJobHandler, RemoveJobHandler, mbind, M_bind, mret, M_ret in Hs;
    cbv beta in Hs; simpl in Hs;
    repeat (case_match; simplify_eq; try done); simplify_eq;
    intros k ok rk wk Hk Hr Hw; simpl in Hk, Hr, Hw;
    try (by apply (Hq k ok rk wk)).
  all: try (destruct (decide (k = job)) as [->|Hne];
    [| rewrite ?lookup_insert_ne in Hk by done;
       rewrite ?lookup_insert_ne in Hr by done;
       rewrite ?lookup_insert_ne in Hw by done; by apply (Hq k ok rk wk)]).
  all: rewrite ?lookup_insert_eq in Hk.
  all: rewrite ?lookup_insert_eq in Hr.
  all: rewrite ?lookup_insert_eq in Hw.
  all: simplify_eq; simpl.
  all: try match goal with
       | Hh : heap ?s0 !! ?j = Some ?o, Hp : runners ?s0 !! ?j = Some ?r,
         Hx : watchers ?s0 !! ?j = Some ?w |- _ =>
           pose proof (Hq j o r w Hh Hp Hx) as [Hjob Hend];
           simpl in Hjob, Hend
       end.
  all: try (split; [tauto|done]).
  - pose proof (proj2 (Hc job t AtRun H0 H) I) as Hn.
    destruct (Inv_watch_waits _ _ _ _ _ _ HI H0 H Hw ltac:(done)) as [-> _].
    split; [|done]. intros _. split; [lia|]. unfold deadline_ok. simpl.
    rewrite Hn. simpl. apply Z.ltb_lt in H1. done.
  - pose proof (proj2 (Hc job t AtRun H0 H) I) as Hn.
    destruct (Inv_watch_waits _ _ _ _ _ _ HI H0 H Hw ltac:(done)) as [-> _].
    split; [|done]. intros _. split; [lia|]. unfold deadline_ok. simpl.
    rewrite Hn. simpl. apply Z.ltb_ge in H1. done.
  - assert (¬ before_Run rk) as Hnb.
    { intros Hb.
      destruct (Inv_watch_waits _ _ _ _ _ _ HI H0 Hr H) as [_ Hd];
        [by destruct rk|congruence]. }
    destruct (Hjob Hnb). split; [done|lia].
  - split; [done|]. destruct err; simpl; lia.
  - split; [done|lia].
  - split; [|by destruct wk]. intros Hb. destruct (Hjob Hb). done.
  - apply Z.leb_le in H.
    destruct (Hq k ok rk wk Hk Hr Hw) as [A B]. split.
    + intros Hb. destruct (A Hb). split; [lia|done].
    + destruct wk; simpl in *; try done; lia.
Qed.

Lemma clock_inv_reachable size t0 sched evs s :
  exec sched (NewExecutor size t0) = Some (evs, s) → clock_inv s.
Proof.
  intros H.
  enough (Inv evs s ∧ ctx_inv s ∧ clock_inv s) by tauto.
  apply (exec_invariant (λ evs s, Inv evs s ∧ ctx_inv s ∧ clock_inv s))
    with (sched := sched) (pre := []) (s0 := NewExecutor size t0); [| |done].
  - intros evs0 s0 a ev s' (HI & Hc & Hq) Hs.
    split; [by eapply Inv_step|]. split; [by eapply ctx_inv_step|].
    by eapply clock_inv_step.
  - split; [apply Inv_init|].
    split; intros k o r; [|intros w]; intros Hk; simpl in Hk;
      by rewrite lookup_empty in Hk.
Qed.

(** What a step leaves of a Job: the timeout; the start time once [Run] has
    made the context; a cancelled context; the end time and the watcher once
    the watcher has returned. *)
Definition frozen (s s' : state) (k : ptr) (o o' : Job.t) : Prop :=
  Job.Timeout o' = Job.Timeout o
  ∧ (Job.ctx o ≠ NoContext → Job.StartTime o' = Job.StartTime o)
  ∧ (Job.ctx o = Cancelled → Job.ctx o' = Cancelled)
  ∧ (watchers s !! k = Some WatchReturned →
       watchers s' !! k = Some WatchReturned
       ∧ Job.EndTime o' = Job.EndTime o).

Lemma frozen_http evs s s' k o :
  Inv evs s → http_made s s' → heap s !! k = Some o →
  now s' = now s ∧ ∃ o', heap s' !! k = Some o' ∧ frozen s s' k o o'.
Proof.
  intros HI (s1 & H1 & H2) Ho.
  assert (HI1 : Inv evs s1).
  { destruct H1 as [->|(j & o0 & Ho0 & _ & ->)]; [done|]. by apply Inv_stopped. }
  assert (H1' : now s1 = now s ∧ ∃ o', heap s1 !! k = Some o' ∧ frozen s s1 k o o').
  { destruct H1 as [->|(j & o0 & Ho0 & _ & ->)].
    - split; [done|]. exists o. by repeat split.
    - split; [done|]. simpl. destruct (decide (k = j)) as [->|Hne].
      + rewrite lookup_insert_eq. assert (o0 = o) as -> by congruence.
        eexists. split; [done|]. by repeat split.
      + rewrite lookup_insert_ne by done. exists o. by repeat split. }
  destruct H1' as (Hn & o' & Ho' & Hf).
  destruct H2 as [->|(params & h & ->)]; [eauto|].
  assert (k ≠ next s1).
  { intros ->. pose proof (proj1 HI1 (next s1)) as Hj. unfold job_inv in Hj.
    rewrite Ho' in Hj. lia. }
  split; [done|]. exists o'. split; [simpl; by rewrite lookup_insert_ne|].
  destruct Hf as (? & ? & ? & Hw). unfold frozen. simpl.
  rewrite lookup_insert_ne by done. repeat split; try done; by apply Hw.
Qed.

Lemma frozen_step evs s a ev s' k o :
  Inv evs s → ctx_inv s → step a s = Some (ev, s') → heap s !! k = Some o →
  now s ≤ now s' ∧ ∃ o', heap s' !! k = Some o' ∧ frozen s s' k o o'.
Proof.
  intros HI Hc Hs Ho.
  destruct (decide (is_http a)) as [Ha|Ha].
  { destruct (frozen_http evs s s' k o HI (step_http_made _ _ _ _ Ha Hs) Ho)
      as [-> ?]. split; [lia|done]. }
  destruct a; simpl in Ha; try tauto; clear Ha; simpl in Hs;
    unfold called, runJob_step, handler_returns, watch_step,
      notifyResult, expire, getJob, addJob, load, get, modify,
      AddJobHandler, RemoveJobHandler, mbind, M_bind, mret, M_ret in Hs;
    cbv beta in Hs; simpl in Hs;
    repeat (case_match; simplify_eq; try done); simplify_eq; simpl;
    (split; [try lia|]);
    try (exists o; by repeat split).
  all: try (destruct (decide (k = job)) as [->|Hne];
    [| rewrite ?lookup_insert_ne by done; exists o; unfold frozen; simpl;
       rewrite ?lookup_insert_ne by done; by repeat split]).
  all: rewrite ?lookup_insert_eq.
  all: simplify_eq.
  all: try (eexists; split; [done|]; unfold frozen; simpl;
            rewrite ?lookup_insert_eq; repeat split; try done; congruence).
  all: pose proof (proj2 (Hc job t AtRun H0 H) I) as Hn;
    eexists; (split; [done|]); unfold frozen; simpl;
    repeat split; try done; try congruence;
    intros Hw;
    destruct (Inv_watch_waits _ _ _ _ _ _ HI H0 H Hw ltac:(done)); done.
Qed.

(** ** A context expires no sooner than its timeout *)



Lemma Inv_goroutines evs s k o :
  Inv evs s → heap s !! k = Some o →
  ∃ r w, runners s !! k = Some r ∧ watchers s !! k = Some w.
Proof.
  intros [Hj _] Ho. specialize (Hj k). unfold job_inv in Hj. rewrite Ho in Hj.
  destruct Hj as (_ & r & w & ? & ? & _). eauto.
Qed.







(** ** The times a callback carries *)

Definition enqueued_inv (evs : list event) (s : state) : Prop :=
  ∀ k cb, Enqueued k cb ∈ evs →
    ∃ o, heap s !! k = Some o ∧ watchers s !! k = Some WatchReturned
         ∧ Job.StartTime o ≤ Job.EndTime o ≤ CallbackParam.LogDateTime cb
         ∧ CallbackParam.LogDateTime cb ≤ now s.

Lemma enqueued_inv_step evs s a ev s' :
  Inv evs s → ctx_inv s → clock_inv s → enqueued_inv evs s →
  step a s = Some (ev, s') → enqueued_inv (evs ++ [ev]) s'.
Proof.
  intros HI Hc Hq He Hs k cb [Hin|Hin%list_elem_of_singleton]%elem_of_app.
  - destruct (He k cb Hin) as (o & Ho & Hw & Ht & Hd).
    destruct (frozen_step _ _ _ _ _ k o HI Hc Hs Ho)
      as (Hnow & o' & Ho' & _ & HS & _ & HW).
    destruct (HW Hw) as [Hw' HE].
    destruct (Inv_goroutines _ _ _ _ HI Ho) as (r & w & Hr & Hw0).
    assert (Job.ctx o ≠ NoContext).
    { intros Hn. apply (Hc k o r Ho Hr) in Hn.
      destruct (Inv_watch_waits _ _ _ _ _ _ HI Ho Hr Hw) as [? _];
        [by destruct r|done]. }
    exists o'. rewrite HE, (HS ltac:(done)). split; [done|].
    split; [done|]. split; [done|lia].
  - subst ev. destruct (step_Enqueued _ _ _ _ _ Hs) as [Hw Hq'].
    destruct (heap s !! k) as [o|] eqn:Ho.
    2:{ pose proof (proj1 HI k) as Hj. unfold job_inv in Hj. rewrite Ho in Hj.
        destruct Hj as (_ & _ & ? & _). congruence. }
    destruct (Inv_goroutines _ _ _ _ HI Ho) as (r & w & Hr & Hw0).
    destruct (Hq k o r _ Ho Hr Hw) as [_ Hend]. simpl in Hend.
    invert_step Hs. simpl. rewrite lookup_insert_eq.
    eexists. split; [eassumption|]. split; [done|]. lia.
Qed.

(** X16: the times of a callback.  With a clock that does not go back, a
    callback that a watcher has sent carries as LogDateTime the time at
    which the watcher built it, which is not before the EndTime of its Job,
    which is not before the StartTime.  It is not the LogDateTime of the
    run request: the Job does not keep that one (its LogDateTime is 0). *)
Theorem callback_times size t0 sched evs s k cb :
  exec sched (NewExecutor size t0) = Some (evs, s) →
  Enqueued k cb ∈ evs →
  ∃ o, heap s !! k = Some o
       ∧ Job.StartTime o ≤ Job.EndTime o ≤ CallbackParam.LogDateTime cb
       ∧ CallbackParam.LogDateTime cb ≤ now s
       ∧ Job.LogDateTime o = 0.
Proof.
  intros H Hin.
  assert (Hall : Inv evs s ∧ ctx_inv s ∧ clock_inv s ∧ enqueued_inv evs s).
  { apply (exec_invariant
             (λ evs s, Inv evs s ∧ ctx_inv s ∧ clock_inv s ∧ enqueued_inv evs s))
      with (sched := sched) (pre := []) (s0 := NewExecutor size t0); [| |done].
    - intros evs0 s0 a ev s' (HI & Hc & Hq & He) Hs.
      split; [by eapply Inv_step|]. split; [by eapply ctx_inv_step|].
      split; [by eapply clock_inv_step|]. by eapply enqueued_inv_step.
    - split; [apply Inv_init|].
      split; [intros ??? Hk; simpl in Hk; by rewrite lookup_empty in Hk|].
      split; [intros ???? Hk; simpl in Hk; by rewrite lookup_empty in Hk|].
      intros ?? Hin'. by apply elem_of_nil in Hin'. }
  destruct Hall as (HI & Hc & Hq & He).
  destruct (He k cb Hin) as (o & Ho & _ & Ht & Hn).
  exists o. split; [done|]. split; [done|]. split; [done|].
  by destruct (made_reachable _ _ _ _ _ H k o Ho) as (_ & _ & ?).
Qed.

Lemma callback_times_witness :
  ∃ o, heap (after sched_reported (NewExecutor 1024 0)) !! 0%nat = Some o
       ∧ Job.StartTime o ≤ Job.EndTime o ≤ 0
       ∧ 0 ≤ now (after sched_reported (NewExecutor 1024 0))
       ∧ Job.LogDateTime o = 0.
Proof.
  refine (callback_times 1024 0 sched_reported
    (shown sched_reported (NewExecutor 1024 0))
    (after sched_reported (NewExecutor 1024 0)) 0%nat
    (CallbackParam.mk 1 0 200 "OK") _ _).
  - vm_compute. reflexivity.
  - vm_compute. repeat constructor.
Defined.

(** ** Two triggers before the first insertion *)

Lemma exec_cons a sched s ev s' evs s'' :
  step a s = Some (ev, s') → exec sched s' = Some (evs, s'') →
  exec (a :: sched) s = Some (ev :: evs, s'').
Proof. intros Hs He. simpl. by rewrite Hs, He. Qed.

Lemma step_trigger_ok params s s' :
  TriggerJob params s = Ret None s' →
  step (Http_run (Body params)) s = Some (Replied (Some NewSuccResponse), s').
Proof.
  intros H. simpl. unfold served, serve, trigger, mbind, M_bind, mret, M_ret.
  by rewrite H.
Qed.

Lemma step_poll_free s k o :
  runners s !! k = Some AtGetJob → heap s !! k = Some o →
  jobs s !! Job.ID o = None →
  step (Go_runJob k) s = Some (Polled k None, set_runners <[k := AtAddJob]> s).
Proof.
  intros Hr Ho Hj. simpl. unfold runJob_step, getJob, get.
  by rewrite Hr, Ho, Hj.
Qed.

Lemma step_addJob s k o :
  runners s !! k = Some AtAddJob → heap s !! k = Some o →
  step (Go_runJob k) s
  = Some (Inserted k (jobs s !! Job.ID o),
          set_runners <[k := AtRun]> (set_jobs <[Job.ID o := k]> s)).
Proof.
  intros Hr Ho. simpl.
  unfold runJob_step, addJob, load, modify, mbind, M_bind.
  by rewrite Hr, Ho.
Qed.

Lemma step_Run s k o :
  runners s !! k = Some AtRun → heap s !! k = Some o →
  step (Go_runJob k) s
  = Some (Started k,
          set_runners <[k := InHandle]>
            (set_heap <[k := Job.set_StartTime (now s)
                               (Job.set_ctx
                                  (withDeadline (Job.ctx o)
                                     (if 0 <? Job.Timeout o
                                      then Some (now s + Job.Timeout o * Second)
                                      else None)) o)]> s)).
Proof. intros Hr Ho. simpl. unfold runJob_step. by rewrite Hr, Ho. Qed.

(** The schedule: the handler is registered, the same request is served
    twice, and the two [runJob] goroutines take turns. *)
Definition sched_twice (f : nat) (params : RunParam.t) : list action :=
  [ Call_AddJobHandler (RunParam.ExecutorHandler params) (Func f);
    Http_run (Body params);
    Http_run (Body params);
    Go_runJob 0%nat; Go_runJob 1%nat;
    Go_runJob 0%nat; Go_runJob 1%nat;
    Go_runJob 0%nat; Go_runJob 1%nat ].

(** X17: the same run request served twice before the first [runJob] has
    inserted its Job is accepted twice, whatever its block strategy and
    although the log ids are equal: the table is empty at both lookups.  The
    two [runJob] goroutines then both find the table free, both insert (the
    second overwrites the entry of the first) and both start their handler:
    two handlers of one job id run at the same time. *)
Theorem same_id_jobs_run_together size t0 f params :
  ∃ s,
    exec (sched_twice f params) (NewExecutor size t0)
    = Some ([ Silent;
              Replied (Some NewSuccResponse); Replied (Some NewSuccResponse);
              Polled 0%nat None; Polled 1%nat None;
              Inserted 0%nat None; Inserted 1%nat (Some 0%nat);
              Started 0%nat; Started 1%nat ], s)
    ∧ runners s !! 0%nat = Some InHandle
    ∧ runners s !! 1%nat = Some InHandle
    ∧ jobs s !! RunParam.JobID params = Some 1%nat
    ∧ ∃ o0 o1, heap s !! 0%nat = Some o0 ∧ heap s !! 1%nat = Some o1
               ∧ same_job o0 o1 ∧ Job.ID o0 = RunParam.JobID params
               ∧ Job.LogID o0 = RunParam.LogID params.
Proof.
  eexists. split.
  - unfold sched_twice.
    eapply exec_cons; [reflexivity|].
    eapply exec_cons.
    { apply step_trigger_ok. eapply (TriggerJob_found _ _ _ f).
      - apply admission_free. simpl. apply lookup_empty.
      - simpl. apply lookup_insert_eq. }
    eapply exec_cons.
    { apply step_trigger_ok. eapply (TriggerJob_found _ _ _ f).
      - apply admission_free. simpl. apply lookup_empty.
      - simpl. apply lookup_insert_eq. }
    eapply exec_cons.
    { eapply step_poll_free; [reflexivity|reflexivity|]. simpl. apply lookup_empty. }
    eapply exec_cons.
    { eapply step_poll_free; [reflexivity|reflexivity|]. simpl. apply lookup_empty. }
    eapply exec_cons.
    { erewrite step_addJob; [|reflexivity|reflexivity]. simpl.
      rewrite lookup_empty. reflexivity. }
    eapply exec_cons.
    { erewrite step_addJob; [|reflexivity|reflexivity]. simpl.
      rewrite lookup_insert_eq. reflexivity. }
    eapply exec_cons.
    { eapply step_Run; reflexivity. }
    eapply exec_cons.
    { eapply step_Run; reflexivity. }
    reflexivity.
  - simpl. split_and!; try reflexivity.
    + apply lookup_insert_eq.
    + eexists _, _. split; [reflexivity|]. split; [reflexivity|].
      by repeat split.
Qed.

(** ** The endpoints that only read *)

(** What the log endpoint writes for a decoded request. *)
Definition quoted (s : string) : string :=
  String dquote (s ++ String dquote EmptyString).

Definition log_text : string :=
  ("{" ++ quoted "code" ++ ":200,"
       ++ quoted "msg" ++ ":" ++ quoted EmptyString ++ ","
       ++ quoted "content" ++ ":{"
       ++ quoted "fromLineNum" ++ ":1,"
       ++ quoted "toLineNum" ++ ":2,"
       ++ quoted "logContent" ++ ":" ++ quoted "N/A" ++ ","
       ++ quoted "isEnd" ++ ":true}}")%string.

(** X18: beat, idleBeat and log never panic and leave the state as it
    is.  [beat] answers 200.  [idleBeat] answers 200 exactly for a decoded
    request whose job id has no table entry, and "job is running" for one
    that has.  [log] answers a decoded request, whatever it asks for, with
    the text [log_text]: lines 1 to 2, content "N/A", isEnd true. *)
Theorem read_only_endpoints s :
  beat s = Ret NewSuccResponse s
  ∧ (∀ body, ∃ res,
       idleBeat body s = Ret res s
       ∧ (Response.Code res = 200
          ↔ ∃ param, body = Body param
                     ∧ jobs s !! IdleBeatParam.JobID param = None)
       ∧ (∀ param, body = Body param →
            jobs s !! IdleBeatParam.JobID param ≠ None →
            res = NewErrorResponse "job is running"))
  ∧ (∀ body, ∃ res,
       log body s = Ret res s
       ∧ (∀ err, body = Malformed err → res = NewErrorResponse err)
       ∧ (∀ param, body = Body param → Response_String res = log_text)).
Proof.
  split; [done|]. split.
  - intros [param|err]; simpl; unfold getJob, get, mbind, M_bind, mret, M_ret.
    + destruct (jobs s !! IdleBeatParam.JobID param) as [j|] eqn:Hj.
      * eexists. split; [done|]. split.
        -- simpl. split; [done|]. intros (p & [= <-] & ?). congruence.
        -- done.
      * eexists. split; [done|]. split.
        -- simpl. split; [|done]. intros _. by exists param.
        -- intros p [= <-] Hne. congruence.
    + eexists. split; [done|]. split.
      * simpl. split; [done|]. by intros (p & ? & _).
      * done.
  - intros [param|err]; simpl; eexists; (split; [done|]); split; try done.
    by intros ? [= <-].
Qed.

(** ** [runJob] on a free table *)





(** ** [Executor.Stop]: the loop over the table *)

(** The Jobs of the table. *)
Definition in_table (s : state) (j : ptr) : Prop :=
  ∃ id, jobs s !! id = Some j.

Lemma ctx_inv_stopped s j o :
  ctx_inv s → heap s !! j = Some o → Job.ctx o ≠ NoContext →
  ctx_inv (stopped j o s).
Proof.
  intros Hq Ho Hc k o' r Hk Hr. simpl in Hk, Hr.
  destruct (decide (k = j)) as [->|Hne].
  - rewrite lookup_insert_eq in Hk. injection Hk as <-. simpl.
    split; [done|]. intros Hb. by apply (Hq j o r Ho Hr) in Hb.
  - rewrite lookup_insert_ne in Hk by done. by apply (Hq k o' r).
Qed.

Lemma Stop_Range_started evs order : ∀ s,
  Inv evs s → ctx_inv s → NoDup order →
  (∀ j, j ∈ order → in_table s j ∧ runners s !! j ≠ Some AtRun) →
  ∃ s', Stop_Range order s = Ret tt s'
    ∧ (∀ id k, jobs s' !! id = Some k ↔ jobs s !! id = Some k ∧ k ∉ order)
    ∧ (∀ j, j ∈ order →
         ∃ o, heap s !! j = Some o
              ∧ heap s' !! j = Some (Job.set_ctx Cancelled o))
    ∧ (∀ j, j ∉ order → heap s' !! j = heap s !! j)
    ∧ runners s' = runners s ∧ watchers s' = watchers s
    ∧ callbackChan s' = callbackChan s ∧ handlers s' = handlers s.
Proof.
  induction order as [|j rest IH]; intros s HI Hc Hnd Hall.
  { exists s. split; [done|]. split_and!; try done.
    - intros id k. split; [|tauto]. intros H. split; [done|]. by intros ?%elem_of_nil.
    - by intros j ?%elem_of_nil. }
  apply NoDup_cons in Hnd as [Hnin Hnd].
  destruct (Hall j ltac:(left)) as [[id Hid] Hrun].
  destruct (proj2 HI id j Hid) as (o & r & Ho & HID & Hr & Hpast).
  assert (Hctx : Job.ctx o ≠ NoContext).
  { intros Hn. apply (Hc j o r Ho Hr) in Hn.
    destruct r; simpl in *; try done. }
  destruct (IH (stopped j o s)) as (s' & Hs' & Hj' & Hh' & Ho' & Hr' & Hw' & Hq' & Hn').
  - by apply Inv_stopped.
  - by apply ctx_inv_stopped.
  - done.
  - intros j' Hin. destruct (Hall j' ltac:(by right)) as [[id' Hid'] Hrun'].
    split; [|done]. exists id'. simpl. rewrite HID.
    apply lookup_delete_Some. split; [|done]. intros <-.
    assert (j' = j) as -> by congruence. done.
  - exists s'. split.
    { cbn [Stop_Range]. unfold mbind, M_bind.
      by rewrite (stopJob_started _ _ _ Ho Hctx). }
    split_and!; try done.
    + intros id' k. rewrite Hj'. simpl. rewrite HID, lookup_delete_Some.
      rewrite not_elem_of_cons. split.
      * intros [[Hne Hk] Hnk]. split; [done|]. split; [|done].
        intros ->. destruct (proj2 HI id' j Hk) as (o1 & _ & Ho1 & HID1 & _).
        congruence.
      * intros [Hk [Hne Hnk]]. split; [|done]. split; [|done].
        intros <-. congruence.
    + intros j' [->|Hin]%elem_of_cons.
      * exists o. split; [done|]. rewrite (Ho' j Hnin). simpl.
        by rewrite lookup_insert_eq.
      * destruct (Hh' j' Hin) as (o1 & Ho1 & Ho1').
        simpl in Ho1. rewrite lookup_insert_ne in Ho1 by (intros <-; done).
        eauto.
    + intros j' [Hne Hnin']%not_elem_of_cons. rewrite (Ho' j' Hnin'). simpl.
      by rewrite lookup_insert_ne.
Qed.

Lemma Stop_Range_unstarted evs order : ∀ s,
  Inv evs s → ctx_inv s → NoDup order →
  (∀ j, j ∈ order → in_table s j) →
  (∃ j, j ∈ order ∧ runners s !! j = Some AtRun) →
  ∃ s', Stop_Range order s = Panic s'
        ∧ ∃ id j, jobs s' !! id = Some j ∧ runners s' !! j = Some AtRun.
Proof.
  induction order as [|j rest IH]; intros s HI Hc Hnd Hall (j0 & Hin0 & Hrun0).
  { by apply elem_of_nil in Hin0. }
  apply NoDup_cons in Hnd as [Hnin Hnd].
  destruct (Hall j ltac:(left)) as [id Hid].
  destruct (proj2 HI id j Hid) as (o & r & Ho & HID & Hr & Hpast).
  destruct (context_cases (Job.ctx o)) as [Hn|Hctx].
  - exists s. split.
    { cbn [Stop_Range]. unfold mbind, M_bind.
      by rewrite (stopJob_unstarted _ _ _ Ho Hn). }
    exists id, j. split; [done|]. apply (Hc j o r Ho Hr) in Hn.
    destruct r; simpl in *; try done.
  - assert (j0 ≠ j).
    { intros ->. rewrite Hr in Hrun0. injection Hrun0 as ->.
      by apply Hctx, (Hc j o AtRun Ho Hr). }
    apply elem_of_cons in Hin0 as [->|Hin0]; [done|].
    destruct (IH (stopped j o s)) as (s' & Hs' & Hleft).
    + by apply Inv_stopped.
    + by apply ctx_inv_stopped.
    + done.
    + intros j' Hin. destruct (Hall j' ltac:(by right)) as [id' Hid'].
      exists id'. simpl. rewrite HID.
      apply lookup_delete_Some. split; [|done]. intros <-.
      assert (j' = j) as -> by congruence. done.
    + by exists j0.
    + exists s'. split; [|done].
      cbn [Stop_Range]. unfold mbind, M_bind.
      by rewrite (stopJob_started _ _ _ Ho Hctx).
Qed.

(** X20: the loop of [Executor.Stop] ([order]: the Jobs of the table, in
    the order in which Range visits them), in a state the executor can be
    in.  If no Job of the table stands between [addJob] and [Run], the loop
    ends with an empty table and every Job that was in it cancelled; Jobs
    outside the table, the goroutines and the callback channel are as they
    were.  If some Job of the table stands there, [Stop] panics whatever
    the order, and the table is not empty then. *)
Theorem Stop_Range_table s order :
  reachable s → NoDup order → (∀ j, j ∈ order ↔ in_table s j) →
  ((∀ j, j ∈ order → runners s !! j ≠ Some AtRun) →
     ∃ s', Stop_Range order s = Ret tt s'
       ∧ jobs s' = ∅
       ∧ (∀ j, j ∈ order →
            ∃ o, heap s !! j = Some o
                 ∧ heap s' !! j = Some (Job.set_ctx Cancelled o))
       ∧ (∀ j, j ∉ order → heap s' !! j = heap s !! j)
       ∧ runners s' = runners s ∧ watchers s' = watchers s
       ∧ callbackChan s' = callbackChan s)
  ∧ ((∃ j, j ∈ order ∧ runners s !! j = Some AtRun) →
     ∃ s', Stop_Range order s = Panic s' ∧ jobs s' ≠ ∅).
Proof.
  intros (size & t0 & sched & evs & Hexec) Hnd Hord.
  pose proof (Inv_reachable _ _ _ _ _ Hexec) as HI.
  pose proof (ctx_inv_reachable _ _ _ _ _ Hexec) as Hc.
  split.
  - intros Hall.
    destruct (Stop_Range_started evs order s HI Hc Hnd) as
      (s' & Hs' & Hj' & Hh' & Ho' & Hr' & Hw' & Hq' & _).
    { intros j Hin. split; [by apply Hord|by apply Hall]. }
    exists s'. split_and!; try done.
    apply map_eq. intros id. rewrite lookup_empty.
    destruct (jobs s' !! id) as [k|] eqn:E; [|done].
    apply Hj' in E as [Hk Hnin]. destruct Hnin. apply Hord. by exists id.
  - intros Hex.
    destruct (Stop_Range_unstarted evs order s HI Hc Hnd) as
      (s' & Hs' & id & j & Hj & _); [by intros j ?%Hord|done|].
    exists s'. split; [done|]. intros E. by rewrite E, lookup_empty in Hj.
Qed.

Lemma Stop_Range_table_witness :
  ∃ s', Stop_Range [0%nat] s_running = Ret tt s'
    ∧ jobs s' = ∅
    ∧ (∀ j, j ∈ [0%nat] →
         ∃ o, heap s_running !! j = Some o
              ∧ heap s' !! j = Some (Job.set_ctx Cancelled o))
    ∧ (∀ j, j ∉ [0%nat] → heap s' !! j = heap s_running !! j)
    ∧ runners s' = runners s_running ∧ watchers s' = watchers s_running
    ∧ callbackChan s' = callbackChan s_running.
Proof.
  refine (proj1 (Stop_Range_table s_running [0%nat] s_running_reachable _ _) _).
  - apply NoDup_singleton.
  - intros j. rewrite list_elem_of_singleton. split.
    + intros ->. unfold in_table. exists 1. vm_compute. reflexivity.
    + intros [id Hid].
      destruct (reachable_Inv _ s_running_reachable) as [evs HI].
      destruct (proj2 HI id j Hid) as (o & r & Ho & _).
      pose proof (proj1 HI j) as Hj. unfold job_inv in Hj. rewrite Ho in Hj.
      destruct Hj as [Hlt _]. change (next s_running) with 1%nat in Hlt. lia.
  - intros j ->%list_elem_of_singleton. vm_compute. discriminate.
Defined.

(** ** The Jobs of the table are not reported yet *)

(** The watcher has not deleted the entry of its Job yet. *)
Definition before_delete (w : watch_pc) : Prop :=
  match w with
  | AtRecvDone | AtDelete _ => True
  | AtSendCallback _ | WatchReturned => False
  end.

Definition live_inv (s : state) : Prop :=
  ∀ id k, jobs s !! id = Some k →
    ∃ w, watchers s !! k = Some w ∧ before_delete w.

Lemma live_inv_http evs s s' :
  Inv evs s → live_inv s → http_made s s' → live_inv s'.
Proof.
  intros HI Hq (s1 & H1 & H2).
  assert (HI1 : Inv evs s1).
  { destruct H1 as [->|(j & o & Ho & _ & ->)]; [done|]. by apply Inv_stopped. }
  assert (Hq1 : live_inv s1).
  { destruct H1 as [->|(j & o & Ho & Hc & ->)]; [done|].
    intros id k Hk. simpl in Hk. apply lookup_delete_Some in Hk as [_ Hk].
    by apply (Hq id k). }
  destruct H2 as [->|(params & h & ->)]; [done|].
  intros id k Hk. simpl in Hk. destruct (Hq1 id k Hk) as (w & Hw & Hb).
  exists w. split; [|done]. simpl. rewrite lookup_insert_ne; [done|].
  intros <-. pose proof (proj1 HI1 (next s1)) as Hj. unfold job_inv in Hj.
  destruct (heap s1 !! next s1); [lia|].
  destruct Hj as (_ & _ & ? & _). congruence.
Qed.

Lemma live_inv_step evs s a ev s' :
  Inv evs s → live_inv s → step a s = Some (ev, s') → live_inv s'.
Proof.
  intros HI Hq Hs.
  destruct (decide (is_http a)) as [Ha|Ha].
  { eapply live_inv_http; [done|done|]. by eapply step_http_made. }
  destruct a; simpl in Ha; try tauto; clear Ha; simpl in Hs;
    unfold called, runJob_step, handler_returns, watch_step,
      notifyResult, expire, getJob, addJob, load, get, modify,
      AddJobHandler, RemoveJobHandler, mbind, M_bind, mret, M_ret in Hs;
    cbv beta in Hs; simpl in Hs;
    repeat (case_match; simplify_eq; try done); simplify_eq;
    intros id k Hk; simpl in Hk; simpl;
    try (by apply (Hq id k)).
  - (* addJob *)
    destruct (decide (id = Job.ID t)) as [->|Hne].
    + rewrite lookup_insert_eq in Hk. injection Hk as <-.
      destruct (Inv_goroutines _ _ _ _ HI H0) as (r & w & Hr & Hw).
      destruct (Inv_watch_waits _ _ _ _ _ _ HI H0 H Hw ltac:(done)) as [-> _].
      by exists AtRecvDone.
    + rewrite lookup_insert_ne in Hk by done. by apply (Hq id k).
  - (* the receive from done *)
    destruct (decide (k = job)) as [->|Hne].
    + rewrite lookup_insert_eq. by eexists.
    + rewrite lookup_insert_ne by done. by apply (Hq id k).
  - (* the delete *)
    apply lookup_delete_Some in Hk as [Hne Hk].
    destruct (proj2 HI id k Hk) as (o1 & _ & Ho1 & HID & _).
    assert (k ≠ job) by (intros ->; congruence).
    rewrite lookup_insert_ne by done. by apply (Hq id k).
  - (* the send of the callback *)
    destruct (Hq id k Hk) as (w & Hw & Hb).
    assert (k ≠ job) by (intros ->; rewrite H in Hw; by injection Hw as <-).
    rewrite lookup_insert_ne by done. eauto.
Qed.

(** X21: along every run, an entry of the table under [id] holds a Job
    whose ID is [id], whose [runJob] has passed [addJob], whose watcher has
    not yet deleted the entry of the Job, and for which no callback has been
    sent. *)
Theorem table_entries_are_live size t0 sched evs s id k :
  exec sched (NewExecutor size t0) = Some (evs, s) →
  jobs s !! id = Some k →
  ∃ o r w,
    heap s !! k = Some o ∧ Job.ID o = id
    ∧ runners s !! k = Some r ∧ past_addJob r
    ∧ watchers s !! k = Some w ∧ before_delete w
    ∧ callbacks k evs = [].
Proof.
  intros H Hk.
  assert (Hall : Inv evs s ∧ live_inv s).
  { apply (exec_invariant (λ evs s, Inv evs s ∧ live_inv s))
      with (sched := sched) (pre := []) (s0 := NewExecutor size t0); [| |done].
    - intros evs0 s0 a ev s' [HI Hq] Hs. split; [by eapply Inv_step|].
      by eapply live_inv_step.
    - split; [apply Inv_init|]. intros ?? Hj. simpl in Hj.
      by rewrite lookup_empty in Hj. }
  destruct Hall as [HI Hq].
  destruct (proj2 HI id k Hk) as (o & r & Ho & HID & Hr & Hp).
  destruct (Hq id k Hk) as (w & Hw & Hb).
  exists o, r, w. split_and!; try done.
  pose proof (Inv_life _ _ _ _ _ _ HI Ho Hr Hw) as Hl.
  destruct r; simpl in Hl, Hp; unfold quiet in Hl; try done;
    try naive_solver.
  destruct Hl as (_ & _ & err & _ & Hl). destruct w; simpl in Hb; naive_solver.
Qed.

Lemma table_entries_are_live_witness :
  ∃ o r w,
    heap s_running !! 0%nat = Some o ∧ Job.ID o = 1
    ∧ runners s_running !! 0%nat = Some r ∧ past_addJob r
    ∧ watchers s_running !! 0%nat = Some w ∧ before_delete w
    ∧ callbacks 0%nat (shown sched_running (NewExecutor 1024 0)) = [].
Proof.
  refine (table_entries_are_live 1024 0 sched_running
            (shown sched_running (NewExecutor 1024 0)) s_running 1 0%nat _ _).
  - vm_compute. reflexivity.
  - vm_compute. reflexivity.
Defined.

(** ** A msg that is not UTF-8 *)

(** What the encoder makes of a string: every byte that starts no UTF-8
    sequence becomes U+FFFD. *)
Fixpoint coerceUTF8 (s : string) : string :=
  match s with
  | EmptyString => EmptyString
  | String c0 r =>
      let (c, size) := DecodeRune s in
      if (c =? RuneError) && (size =? 1)%nat
      then (EncodeRune RuneError ++ coerceUTF8 r)%string
      else
        match size, r with
        | 2%nat, String c1 r1 => String c0 (String c1 (coerceUTF8 r1))
        | 3%nat, String c1 (String c2 r2) =>
            String c0 (String c1 (String c2 (coerceUTF8 r2)))
        | 4%nat, String c1 (String c2 (String c3 r3)) =>
            String c0 (String c1 (String c2 (String c3 (coerceUTF8 r3))))
        | _, _ => String c0 (coerceUTF8 r)
        end
  end.

Lemma coerceUTF8_ascii c0 r :
  byte c0 < 0x80 → coerceUTF8 (String c0 r) = String c0 (coerceUTF8 r).
Proof.
  intros Hc. pose proof (byte_range c0).
  cbn [coerceUTF8]. unfold DecodeRune.
  rewrite (proj2 (Z.ltb_lt _ _)) by done.
  rewrite (proj2 (Z.eqb_neq _ _)) by (unfold RuneError; lia). done.
Qed.

Lemma unquote_coerce n m rest :
  (String.length m ≤ n)%nat →
  unquote (appendStringBody m ++ String dquote rest)
  = Some (coerceUTF8 m, rest).
Proof.
  revert m. induction n as [|n IH]; intros m Hlen.
  { destruct m; [done|simpl in Hlen; lia]. }
  destruct m as [|c0 r]; [done|]. simpl in Hlen.
  destruct (Z.lt_ge_cases (byte c0) 0x80) as [Hc|Hc].
  - rewrite coerceUTF8_ascii by done.
    rewrite appendStringBody_ascii by done.
    rewrite append_assoc, unquote_escapeByte by done.
    rewrite IH by lia. done.
  - rewrite appendStringBody_high by done.
    pose proof (DecodeRune_cases c0 r Hc) as Hd.
    cbn [coerceUTF8].
    destruct (DecodeRune (String c0 r)) as [c size] eqn:Ed.
    inversion Hd as [|c1 r1 c' Hr Henc Hlt HX|c1 c2 r2 c' Hr Henc HX
                     |c1 c2 c3 r3 c' Hr Henc Hge HX]; subst.
    + (* no UTF-8 *)
      cbn [andb Z.eqb Nat.eqb]. rewrite Z.eqb_refl. cbn [andb].
      assert (∀ t, unquote (String backslash "ufffd" ++ t)
                   = prepend (EncodeRune RuneError) (unquote t)) as Hu
        by reflexivity.
      rewrite append_assoc, Hu. rewrite IH by lia. done.
    + rewrite (proj2 (Z.eqb_neq c RuneError)) in * by (unfold RuneError; lia).
      rewrite !(proj2 (Z.eqb_neq c _)) by lia. cbn [orb andb].
      rewrite !append_cons, unquote_high, HX by done.
      simpl in Hlen. rewrite IH by lia.
      by rewrite Henc.
    + replace ((c =? RuneError) && (3 =? 1)%nat) with false in *
        by (by rewrite andb_false_r).
      simpl in Hlen.
      destruct ((c =? 0x2028) || (c =? 0x2029)) eqn:Els.
      * assert (unquote (String backslash "u202"
                  ++ String (hex (Z.land c 0xF)) EmptyString
                  ++ appendStringBody r2 ++ String dquote rest)
                = prepend (EncodeRune c)
                    (unquote (appendStringBody r2 ++ String dquote rest)))
          as Hu.
        { apply orb_true_iff in Els as [->%Z.eqb_eq| ->%Z.eqb_eq]; reflexivity. }
        rewrite !append_assoc. rewrite Hu.
        rewrite IH by lia. by rewrite Henc.
      * cbn [orb andb]. rewrite !append_cons, unquote_high, HX by done.
        rewrite IH by lia. by rewrite Henc.
    + replace ((c =? RuneError) && (4 =? 1)%nat) with false in *
        by (by rewrite andb_false_r).
      rewrite !(proj2 (Z.eqb_neq c _)) by lia. cbn [orb andb].
      simpl in Hlen. rewrite !append_cons, unquote_high, HX by done.
      rewrite IH by lia. by rewrite Henc.
Qed.

Lemma coerceUTF8_valid n m :
  (String.length m ≤ n)%nat → ValidString m = true → coerceUTF8 m = m.
Proof.
  revert m. induction n as [|n IH]; intros m Hlen Hvalid.
  { destruct m; [done|simpl in Hlen; lia]. }
  destruct m as [|c0 r]; [done|]. simpl in Hlen.
  destruct (Z.lt_ge_cases (byte c0) 0x80) as [Hc|Hc].
  - rewrite ValidString_ascii in Hvalid by done.
    rewrite coerceUTF8_ascii by done. by rewrite IH by (done || lia).
  - pose proof (DecodeRune_cases c0 r Hc) as Hd.
    cbn [ValidString] in Hvalid. cbn [coerceUTF8].
    destruct (DecodeRune (String c0 r)) as [c size] eqn:Ed.
    inversion Hd as [|c1 r1 c' Hr Henc Hlt HX|c1 c2 r2 c' Hr Henc HX
                     |c1 c2 c3 r3 c' Hr Henc Hge HX]; subst.
    + done.
    + simpl in Hlen.
      destruct ((c =? RuneError) && (2 =? 1)%nat); [done|].
      by rewrite IH by (done || lia).
    + simpl in Hlen.
      destruct ((c =? RuneError) && (3 =? 1)%nat); [done|].
      by rewrite IH by (done || lia).
    + simpl in Hlen.
      destruct ((c =? RuneError) && (4 =? 1)%nat); [done|].
      by rewrite IH by (done || lia).
Qed.

Lemma ValidString_coerceUTF8 n m :
  (String.length m ≤ n)%nat → ValidString (coerceUTF8 m) = true.
Proof.
  revert m. induction n as [|n IH]; intros m Hlen.
  { destruct m; [done|simpl in Hlen; lia]. }
  destruct m as [|c0 r]; [done|]. simpl in Hlen.
  destruct (Z.lt_ge_cases (byte c0) 0x80) as [Hc|Hc].
  - rewrite coerceUTF8_ascii by done. rewrite ValidString_ascii by done.
    apply IH. lia.
  - pose proof (DecodeRune_cases c0 r Hc) as Hd.
    cbn [coerceUTF8].
    destruct (DecodeRune (String c0 r)) as [c size] eqn:Ed.
    inversion Hd as [|c1 r1 c' Hr Henc Hlt HX|c1 c2 r2 c' Hr Henc HX
                     |c1 c2 c3 r3 c' Hr Henc Hge HX]; subst.
    + cbn [andb Z.eqb Nat.eqb]. rewrite Z.eqb_refl. cbn [andb].
      assert (∀ t, ValidString (EncodeRune RuneError ++ t) = ValidString t) as Hv
        by reflexivity.
      rewrite Hv. apply IH. lia.
    + simpl in Hlen.
      replace ((c =? RuneError) && (2 =? 1)%nat) with false
        by (by rewrite andb_false_r).
      cbn [ValidString]. rewrite HX.
      replace ((c =? RuneError) && (2 =? 1)%nat) with false
        by (by rewrite andb_false_r).
      apply IH. lia.
    + simpl in Hlen.
      replace ((c =? RuneError) && (3 =? 1)%nat) with false
        by (by rewrite andb_false_r).
      cbn [ValidString]. rewrite HX.
      replace ((c =? RuneError) && (3 =? 1)%nat) with false
        by (by rewrite andb_false_r).
      apply IH. lia.
    + simpl in Hlen.
      replace ((c =? RuneError) && (4 =? 1)%nat) with false
        by (by rewrite andb_false_r).
      cbn [ValidString]. rewrite HX.
      replace ((c =? RuneError) && (4 =? 1)%nat) with false
        by (by rewrite andb_false_r).
      apply IH. lia.
Qed.

Lemma parse_text_of_any code msg :
  parse (text_of code msg)
  = Some (JObject [("code", JNumber (AppendInt code));
                   ("msg", JString (coerceUTF8 msg))]).
Proof.
  unfold parse.
  assert (∃ n, String.length (text_of code msg) = S (S (S n))) as [n ->].
  { unfold text_of. cbn [String.length String.append]. eauto. }
  unfold text_of.
  rewrite parseValue_object.
  change (skipSpace (String dquote ?r)) with (String dquote r).
  change (byte dquote =? 125) with false. cbv iota.
  rewrite parseMembers_member.
  change (unquote ("code" ++ String dquote ?r)) with (Some ("code", r)).
  cbv iota beta.
  change (skipSpace (String ":" ?r)) with (String ":" r).
  change (byte ":" =? 58) with true. cbv iota beta.
  rewrite parseValue_AppendInt.
  change (skipSpace (String "," ?r)) with (String "," r).
  change (byte "," =? 44) with true. cbv iota beta.
  rewrite parseMembers_member.
  change (unquote ("msg" ++ String dquote ?r)) with (Some ("msg", r)).
  cbv iota beta.
  change (skipSpace (String ":" ?r)) with (String ":" r).
  change (byte ":" =? 58) with true. cbv iota beta.
  rewrite parseValue_string.
  rewrite (unquote_coerce (String.length msg)) by done.
  reflexivity.
Qed.

(** X22: [res.String()] of a Response without content, whatever bytes its
    msg holds, is read back by the decoder, with the code of [res] (an int)
    and the msg that [coerceUTF8] gives: every byte of the msg that starts
    no UTF-8 sequence is U+FFFD, the rest is the same.  That msg is valid
    UTF-8, and it is the msg of [res] when that one is. *)
Theorem Response_String_parses {C} `{Marshaler C} (res : Response.t C) :
  - 2 ^ 63 ≤ Response.Code res < 2 ^ 63 →
  Response.Content res = None →
  Unmarshal (Response_String res)
  = Some (Response.mk (Response.Code res) (coerceUTF8 (Response.Msg res)) None)
  ∧ ValidString (coerceUTF8 (Response.Msg res)) = true
  ∧ (ValidString (Response.Msg res) = true →
       coerceUTF8 (Response.Msg res) = Response.Msg res).
Proof.
  intros Hcode Hcontent. split_and!.
  - rewrite Response_String_text_of by done. unfold Unmarshal.
    rewrite parse_text_of_any.
    cbn [setFields]. unfold setField at 1.
    change (fieldOf ("code", JNumber (AppendInt (Response.Code res))).1)
      with (Some FCode).
    cbn [snd]. rewrite ParseInt_AppendInt by done.
    reflexivity.
  - by apply (ValidString_coerceUTF8 (String.length (Response.Msg res))).
  - by apply (coerceUTF8_valid (String.length (Response.Msg res))).
Qed.

Lemma Response_String_parses_witness :
  Unmarshal (Response_String
               (NewErrorResponse (String (chr 255) "x") : Response.t LogResult.t))
  = Some (Response.mk 500
            (String (chr 239) (String (chr 191) (String (chr 189) "x"))) None).
Proof.
  refine (proj1 (Response_String_parses
    (NewErrorResponse (String (chr 255) "x") : Response.t LogResult.t) _ _)).
  - vm_compute. split; [discriminate|reflexivity].
  - reflexivity.
Defined.
